(** * text-to-voice: the audio pipeline, embedded and verified

    The model follows the repository file by file:
    - [Js]: the JavaScript values the code computes with (UTF-16 strings,
      regular expressions, exceptions, numbers, byte buffers);
    - [Eff]: methods of stateful objects, run to completion;
    - [Utils]: [cleanTextForTTS], [splitIntoSentences], [decodeBase64],
      [pcmToWav], [pcmToMp3];
    - [Types], [Storage]: [StorageService] over an IndexedDB object store;
    - [AudioEngine]: [generateTTS], [playBuffer], [stop] and the rest;
    - [App]: [handleGenerate];
    - [Actions]: the other handlers of the component.

    [Contract] states what the specification asks of them, and the
    modules after it prove what holds: [GeneratorFacts] (error
    classification, decoding), [NormaliserFacts], [SegmenterFacts],
    [PlaybackFacts], [EncoderFacts], [AppFacts] (a generation run) and
    [StorageFacts].

    The modules at the end go further into the code, with the notions of
    [Reference]: [StoreFacts] (the store as a map), [EngineFacts] (the
    other methods of the engine), [CodecFacts] (base64, WAV, MP3),
    [TextFacts] (what normalising and segmenting keep), [LibraryFacts]
    (display and store), [GenerateFacts] (a whole run of
    [handleGenerate]) and [ControlFacts] (the player controls). *)

From Stdlib Require Import ZArith NArith QArith Lia List Bool String Ascii.
From stdpp Require Import base option list gmap.
Import ListNotations.

#[local] Open Scope nat_scope.

(* ===================================================================== *)
(** * JavaScript strings and regular expressions *)
(* ===================================================================== *)

Module Js.

(** A JavaScript string is a sequence of UTF-16 code units.  Every
    character the program names (ASCII, U+2022 BULLET, U+0964 DANDA) is a
    single code unit, and the regular expressions carry no [u] flag, so
    they work code unit by code unit. *)
Definition code_unit := N.
Definition jsstring := list N.

(** String literals of the source, as code units (ASCII only). *)
Definition lit (s : string) : jsstring :=
  map N_of_ascii (list_ascii_of_string s).

(** ECMAScript LineTerminator: LF, CR, LS, PS.  The regex atom [.]
    (without the [s] flag) matches everything else. *)
Definition is_line_terminator (c : N) : bool :=
  (c =? 0x0A)%N || (c =? 0x0D)%N || (c =? 0x2028)%N || (c =? 0x2029)%N.

(** ECMAScript WhiteSpace + LineTerminator: the class [\s], and what
    [String.prototype.trim] strips. *)
Definition is_space (c : N) : bool :=
  (c =? 0x09)%N || (c =? 0x0B)%N || (c =? 0x0C)%N || (c =? 0x20)%N
  || (c =? 0xA0)%N || (c =? 0x1680)%N
  || ((0x2000 <=? c)%N && (c <=? 0x200A)%N)
  || (c =? 0x202F)%N || (c =? 0x205F)%N || (c =? 0x3000)%N
  || (c =? 0xFEFF)%N
  || is_line_terminator c.

Definition dot (c : N) : bool := negb (is_line_terminator c).

(** Membership in a bracket class given by its code units. *)
Definition one_of (cs : list N) (c : N) : bool :=
  existsb (N.eqb c) cs.

Definition is_char (a : N) (c : N) : bool := (c =? a)%N.

(** ** The regular-expression fragment used by [utils]

    Quantifiers only ever apply to a single-character class in this
    program, which keeps the backtracking matcher structurally recursive. *)
Inductive regex : Type :=
| Class (p : N -> bool)              (* [abc], \s, \n, \[ ... *)
| Cat (r1 r2 : regex)                (* r1 r2 *)
| LazyStar (p : N -> bool)           (* c*?  *)
| AtLeast (n : nat) (p : N -> bool)  (* c{n,} greedy; c+ is c{1,} *)
| LookBehind (p : N -> bool).        (* (?<=[abc]) *)

(** A matcher state is the code unit just before the current position (for
    the look-behind) and the input that remains.  Matchers are written in
    continuation-passing style, as in the ECMAScript specification: a
    continuation failing makes the quantifier try its next alternative. *)
Definition cont := option N -> jsstring -> option (option N * jsstring).

Fixpoint lazy_star (p : N -> bool) (k : cont) (prev : option N)
    (s : jsstring) {struct s} : option (option N * jsstring) :=
  match k prev s with
  | Some r => Some r
  | None =>
      match s with
      | c :: s' => if p c then lazy_star p k (Some c) s' else None
      | [] => None
      end
  end.

Fixpoint greedy_star (p : N -> bool) (k : cont) (prev : option N)
    (s : jsstring) {struct s} : option (option N * jsstring) :=
  match s with
  | c :: s' =>
      if p c then
        match greedy_star p k (Some c) s' with
        | Some r => Some r
        | None => k prev s
        end
      else k prev s
  | [] => k prev s
  end.

Fixpoint at_least (n : nat) (p : N -> bool) (k : cont) (prev : option N)
    (s : jsstring) {struct n} : option (option N * jsstring) :=
  match n with
  | O => greedy_star p k prev s
  | S n' =>
      match s with
      | c :: s' => if p c then at_least n' p k (Some c) s' else None
      | [] => None
      end
  end.

Fixpoint rmatch (r : regex) (k : cont) (prev : option N) (s : jsstring)
    : option (option N * jsstring) :=
  match r with
  | Class p =>
      match s with
      | c :: s' => if p c then k (Some c) s' else None
      | [] => None
      end
  | Cat r1 r2 => rmatch r1 (rmatch r2 k) prev s
  | LazyStar p => lazy_star p k prev s
  | AtLeast n p => at_least n p k prev s
  | LookBehind p =>
      match prev with
      | Some c => if p c then k prev s else None
      | None => None
      end
  end.

(** A match anchored at the current position: the state after it. *)
Definition exec_at (r : regex) (prev : option N) (s : jsstring)
    : option (option N * jsstring) :=
  rmatch r (fun prev' rest => Some (prev', rest)) prev s.

(** ** [String.prototype.replace] with a global regex and a literal
    replacement: scan left to right, copy what does not match, put [rep]
    for every match, resume after the match (one code unit further when
    the match was empty).  [fuel] bounds the number of scan steps. *)
Fixpoint replace_go (fuel : nat) (r : regex) (rep : jsstring)
    (prev : option N) (s : jsstring) : jsstring :=
  match fuel with
  | O => s
  | S fuel' =>
      match exec_at r prev s with
      | Some (prev', rest) =>
          if length rest <? length s
          then rep ++ replace_go fuel' r rep prev' rest
          else match s with
               | [] => rep
               | c :: s' => rep ++ c :: replace_go fuel' r rep (Some c) s'
               end
      | None =>
          match s with
          | [] => []
          | c :: s' => c :: replace_go fuel' r rep (Some c) s'
          end
      end
  end.

Definition replace_all (r : regex) (rep : jsstring) (s : jsstring) : jsstring :=
  replace_go (S (length s)) r rep None s.

(** ** [String.prototype.split] with a regex separator (no captures, no
    limit).  [cur] is the piece being collected, reversed.  An empty match
    closes a non-empty piece and is skipped at the start of a piece; either
    way the scan then moves one code unit on. *)
Fixpoint split_go (fuel : nat) (r : regex) (prev : option N)
    (cur : jsstring) (s : jsstring) : list jsstring :=
  match fuel with
  | O => [rev cur ++ s]
  | S fuel' =>
      match s with
      | [] => [rev cur]
      | c :: s' =>
          match exec_at r prev s with
          | Some (prev', rest) =>
              if length rest <? length s
              then rev cur :: split_go fuel' r prev' [] rest
              else match cur with
                   | [] => split_go fuel' r (Some c) [c] s'
                   | _ :: _ => rev cur :: split_go fuel' r (Some c) [c] s'
                   end
          | None => split_go fuel' r (Some c) (c :: cur) s'
          end
      end
  end.

Definition split (r : regex) (s : jsstring) : list jsstring :=
  match s with
  | [] => match exec_at r None [] with Some _ => [] | None => [[]] end
  | _ => split_go (S (length s)) r None [] s
  end.

(** ** [String.prototype.trim] *)
Fixpoint trim_start (s : jsstring) : jsstring :=
  match s with
  | c :: s' => if is_space c then trim_start s' else s
  | [] => []
  end.

Definition trim_end (s : jsstring) : jsstring := rev (trim_start (rev s)).

Definition trim (s : jsstring) : jsstring := trim_end (trim_start s).

(** ** [String.prototype.includes] *)
Fixpoint is_prefix (p s : jsstring) : bool :=
  match p, s with
  | [], _ => true
  | a :: p', b :: s' => (a =? b)%N && is_prefix p' s'
  | _ :: _, [] => false
  end.

Fixpoint includes (s needle : jsstring) : bool :=
  is_prefix needle s ||
  match s with
  | [] => false
  | _ :: s' => includes s' needle
  end.

(** ** Exceptions

    What the program inspects of a thrown value: [error.message] (absent
    on values that carry none) and a numeric [error.status]. *)
Record error : Type := Error {
  message : option jsstring;
  status : option Z
}.

(** [new Error(msg)] and the built-in errors: a message, no status. *)
Definition new_Error (msg : jsstring) : error :=
  {| message := Some msg; status := None |}.

(** The built-in errors raised by the platform on the paths below.  Their
    message text is the engine's (V8's here); the program never looks at
    it beyond searching it for the word quota. *)
Definition RangeError_view_length : error :=
  new_Error (lit "byte length of Int16Array should be a multiple of 2").
Definition RangeError_offset : error :=
  new_Error (lit "Offset is outside the bounds of the DataView").
Definition RangeError_source_too_large : error :=
  new_Error (lit "offset is out of bounds").
Definition InvalidCharacterError : error :=
  new_Error (lit "The string to be decoded is not correctly encoded.").
Definition TypeError_undefined : error :=
  new_Error (lit "Cannot read properties of undefined (reading 'replace')").

(** A completion: the value returned, or the value thrown. *)
Inductive completion (A : Type) : Type :=
| Return (a : A)
| Throw (e : error).
Arguments Return {A} a.
Arguments Throw {A} e.

Definition bind {A B} (c : completion A) (k : A -> completion B)
    : completion B :=
  match c with
  | Return a => k a
  | Throw e => Throw e
  end.

(** [try { body } catch (e) { handler }] around a computation that
    touches no state. *)
Definition catch {A} (body : completion A) (handler : error -> completion A)
    : completion A :=
  match body with
  | Return a => Return a
  | Throw e => handler e
  end.

(** ** Numbers

    A [number] of the program is an integer (lengths, offsets, header
    fields: [Z]) or an audio sample.  A sample held in a [Float32Array] is
    a binary32 value; every product and quotient the program takes of one
    (by 0x8000, by 0x7FFF, an int16 by 32768.0) is exact in binary64, so
    finite samples are modelled by the rational they denote, next to NaN
    and the two infinities.  The sign of zero is never observed. *)
Inductive float : Type :=
| NaN
| Inf (negative : bool)
| Fin (q : Q).

Definition float_of_Z (z : Z) : float := Fin (inject_Z z).

(** [Math.min(a, b)] and [Math.max(a, b)] *)
Definition Math_min (a b : float) : float :=
  match a, b with
  | NaN, _ | _, NaN => NaN
  | Inf true, _ | _, Inf true => Inf true
  | Inf false, x | x, Inf false => x
  | Fin x, Fin y => if Qle_bool x y then Fin x else Fin y
  end.

Definition Math_max (a b : float) : float :=
  match a, b with
  | NaN, _ | _, NaN => NaN
  | Inf false, _ | _, Inf false => Inf false
  | Inf true, x | x, Inf true => x
  | Fin x, Fin y => if Qle_bool x y then Fin y else Fin x
  end.

(** [a < b] *)
Definition float_lt (a b : float) : bool :=
  match a, b with
  | NaN, _ | _, NaN => false
  | Inf true, Inf true => false
  | Inf true, _ => true
  | _, Inf true => false
  | Inf false, _ => false
  | Fin _, Inf false => true
  | Fin x, Fin y => negb (Qle_bool y x)
  end.

(** [a * c] for a finite non-zero constant [c] *)
Definition float_scale (a : float) (c : Z) : float :=
  match a with
  | NaN => NaN
  | Inf neg => Inf (if (c <? 0)%Z then negb neg else neg)
  | Fin x => Fin (x * inject_Z c)
  end.

(** [a / c] for a finite non-zero constant [c] *)
Definition float_div (a : float) (c : Z) : float :=
  match a with
  | NaN => NaN
  | Inf neg => Inf (if (c <? 0)%Z then negb neg else neg)
  | Fin x => Fin (x / inject_Z c)
  end.

(** ToIntegerOrInfinity, with the infinities and NaN already sent to 0 as
    the fixed-width conversions do: truncation towards zero. *)
Definition truncate (a : float) : Z :=
  match a with
  | NaN | Inf _ => 0%Z
  | Fin x => Z.quot (Qnum x) (Z.pos (Qden x))
  end.

(** ToUint8, ToUint16, ToUint32: reduction modulo 2^w. *)
Definition to_uint (w : Z) (z : Z) : Z := (z mod 2 ^ w)%Z.

(** ToInt16: the same residue, read as a signed value. *)
Definition to_int16 (z : Z) : Z :=
  let m := (z mod 65536)%Z in
  if (m <? 32768)%Z then m else (m - 65536)%Z.

(** ** Byte buffers, [DataView] and typed arrays *)

(** [n] bytes of [z], least significant first (two's complement for a
    negative [z]). *)
Fixpoint le_bytes (n : nat) (z : Z) : list Z :=
  match n with
  | O => []
  | S n' => (z mod 256)%Z :: le_bytes n' (z / 256)%Z
  end.

(** [new ArrayBuffer(n)]: [n] zero bytes. *)
Definition new_ArrayBuffer (n : nat) : list Z := replicate n 0%Z.

(** A [DataView] store of the bytes [bs] at [offset]: a [RangeError] when
    they do not fit, the buffer updated in place otherwise. *)
Definition view_store (view : list Z) (offset : nat) (bs : list Z)
    : completion (list Z) :=
  if offset + length bs <=? length view
  then Return (list_inserts offset bs view)
  else Throw RangeError_offset.

Definition setUint8 (view : list Z) (offset : nat) (v : Z) :=
  view_store view offset (le_bytes 1 (to_uint 8 v)).
Definition setUint16_le (view : list Z) (offset : nat) (v : Z) :=
  view_store view offset (le_bytes 2 (to_uint 16 v)).
Definition setUint32_le (view : list Z) (offset : nat) (v : Z) :=
  view_store view offset (le_bytes 4 (to_uint 32 v)).
Definition setInt16_le (view : list Z) (offset : nat) (v : float) :=
  view_store view offset (le_bytes 2 (to_int16 (truncate v))).

(** [new Int16Array(buffer)] over a whole buffer: the byte length must be
    even; elements are read in platform order, little-endian on every
    platform the application runs on. *)
Fixpoint int16_elements (bytes : list Z) : list Z :=
  match bytes with
  | lo :: hi :: rest => to_int16 (lo + 256 * hi) :: int16_elements rest
  | _ => []
  end.

Definition new_Int16Array (buffer : list Z) : completion (list Z) :=
  if Nat.even (length buffer)
  then Return (int16_elements buffer)
  else Throw RangeError_view_length.

(** [dst.set(src, offset)] on typed arrays. *)
Definition typed_array_set {A} (dst src : list A) (offset : nat)
    : completion (list A) :=
  if offset + length src <=? length dst
  then Return (list_inserts offset src dst)
  else Throw RangeError_source_too_large.

End Js.

Notation "x <- c ;; k" := (Js.bind c (fun x => k))
  (at level 60, c at next level, right associativity).

(* ===================================================================== *)
(** * Methods: a completion and the object's state after the call *)
(* ===================================================================== *)

(** A method of a stateful object, run to completion: what it returns or
    throws, and the state it leaves.  State changes made before a [throw]
    stay made. *)
Module Eff.
Import Js.

Definition M (St A : Type) : Type := St -> completion A * St.

Definition ret {St A} (a : A) : M St A := fun st => (Return a, st).
Definition throw {St A} (e : error) : M St A := fun st => (Throw e, st).
Definition get {St} : M St St := fun st => (Return st, st).
Definition modify {St} (f : St -> St) : M St unit :=
  fun st => (Return tt, f st).
Definition lift {St A} (c : completion A) : M St A := fun st => (c, st).

Definition mbind {St A B} (m : M St A) (k : A -> M St B) : M St B :=
  fun st =>
    match m st with
    | (Return a, st') => k a st'
    | (Throw e, st') => (Throw e, st')
    end.

(** [try { body } catch (e) { handler }] *)
Definition try_catch {St A} (body : M St A) (handler : error -> M St A)
    : M St A :=
  fun st =>
    match body st with
    | (Return a, st') => (Return a, st')
    | (Throw e, st') => handler e st'
    end.

(** [try { body } finally { cleanup }], for a [cleanup] that completes
    normally. *)
Definition finally {St A} (body : M St A) (cleanup : St -> St) : M St A :=
  fun st => let (c, st') := body st in (c, cleanup st').

End Eff.

Notation "x <~ c ;; k" := (Eff.mbind c (fun x => k))
  (at level 60, c at next level, right associativity).
Notation "c ;;; k" := (Eff.mbind c (fun _ => k))
  (at level 60, right associativity).

(* ===================================================================== *)
(** * utils *)
(* ===================================================================== *)

Module Utils.
Import Js.

(** ** Text normalisation *)

(** [/[#*`~_]/g] *)
Definition is_markdown : N -> bool := one_of [0x23; 0x2A; 0x60; 0x7E; 0x5F]%N.
Definition re_markdown : regex := Class is_markdown.

(** [/\[.*?\]\(.*?\)/g] *)
Definition re_link : regex :=
  Cat (Class (is_char 0x5B))
   (Cat (LazyStar dot)
    (Cat (Class (is_char 0x5D))
     (Cat (Class (is_char 0x28))
      (Cat (LazyStar dot) (Class (is_char 0x29)))))).

(** [/\n{2,}/g] *)
Definition re_blank_lines : regex := AtLeast 2 (is_char 0x0A).

(** [/[-•*+]\s+/g] *)
Definition is_bullet : N -> bool := one_of [0x2D; 0x2022; 0x2A; 0x2B]%N.
Definition re_bullet : regex := Cat (Class is_bullet) (AtLeast 1 is_space).

(** [/\s+/g] *)
Definition re_spaces : regex := AtLeast 1 is_space.

Definition cleanTextForTTS (text : jsstring) : jsstring :=
  trim
    (replace_all re_spaces (lit " ")
      (replace_all re_bullet (lit ", ")
        (replace_all re_blank_lines (lit ". ")
          (replace_all re_link []
            (replace_all re_markdown [] text))))).

(** ** Sentence segmentation *)

(** [/(?<=[.!?।])\s+/] *)
Definition is_terminator : N -> bool := one_of [0x2E; 0x21; 0x3F; 0x0964]%N.
Definition re_sentence_gap : regex :=
  Cat (LookBehind is_terminator) (AtLeast 1 is_space).

Definition splitIntoSentences (text : jsstring) : list jsstring :=
  filter (fun s => 0 < length (trim s)) (split re_sentence_gap text).

(** ** Base64 *)

(** [atob]: the forgiving-base64 decoder of the HTML standard.  ASCII
    whitespace is dropped, up to two padding signs are dropped when the
    length is a multiple of four, a length of 1 modulo 4 or a character
    outside the alphabet is an [InvalidCharacterError], and left-over bits
    of the last group are discarded. *)
Definition is_ascii_whitespace : N -> bool :=
  one_of [0x09; 0x0A; 0x0C; 0x0D; 0x20]%N.

Definition base64_value (c : N) : option Z :=
  if (0x41 <=? c)%N && (c <=? 0x5A)%N then Some (Z.of_N c - 0x41)%Z
  else if (0x61 <=? c)%N && (c <=? 0x7A)%N then Some (Z.of_N c - 0x61 + 26)%Z
  else if (0x30 <=? c)%N && (c <=? 0x39)%N then Some (Z.of_N c - 0x30 + 52)%Z
  else if (c =? 0x2B)%N then Some 62%Z
  else if (c =? 0x2F)%N then Some 63%Z
  else None.

Definition strip_padding (data : jsstring) : jsstring :=
  if length data mod 4 =? 0 then
    match rev data with
    | 0x3D%N :: 0x3D%N :: r => rev r
    | 0x3D%N :: r => rev r
    | _ => data
    end
  else data.

Fixpoint sextets (data : jsstring) : option (list Z) :=
  match data with
  | [] => Some []
  | c :: r =>
      match base64_value c, sextets r with
      | Some v, Some vs => Some (v :: vs)
      | _, _ => None
      end
  end.

Fixpoint decode_sextets (vs : list Z) : list Z :=
  match vs with
  | a :: b :: c :: d :: rest =>
      let n := (a * 262144 + b * 4096 + c * 64 + d)%Z in
      (n / 65536)%Z :: (n / 256 mod 256)%Z :: (n mod 256)%Z
        :: decode_sextets rest
  | [a; b; c] =>
      let n := ((a * 4096 + b * 64 + c) / 4)%Z in
      [(n / 256)%Z; (n mod 256)%Z]
  | [a; b] => [((a * 64 + b) / 16)%Z]
  | _ => []
  end.

(** The binary string [atob] returns: one code unit per decoded byte. *)
Definition atob (base64 : jsstring) : completion jsstring :=
  let data :=
    strip_padding (filter (fun c => negb (is_ascii_whitespace c)) base64) in
  if length data mod 4 =? 1 then Throw InvalidCharacterError
  else match sextets data with
       | None => Throw InvalidCharacterError
       | Some vs => Return (map Z.to_N (decode_sextets vs))
       end.

(** [decodeBase64]: the code units of the binary string, stored one by one
    into a [Uint8Array] of the same length. *)
Definition decodeBase64 (base64 : jsstring) : completion (list Z) :=
  binaryString <- atob base64 ;;
  Return (map (fun c => to_uint 8 (Z.of_N c)) binaryString).

(** ** Encoders *)

Record Blob : Type := new_Blob {
  blob_bytes : list Z;
  blob_type : jsstring
}.

(** [writeString]: the loop over [i], from [i] on. *)
Fixpoint writeString_from (i : nat) (view : list Z) (offset : nat)
    (chars : jsstring) : completion (list Z) :=
  match chars with
  | [] => Return view
  | c :: rest =>
      view' <- setUint8 view (offset + i) (Z.of_N c) ;;
      writeString_from (S i) view' offset rest
  end.

Definition writeString (view : list Z) (offset : nat) (str : jsstring)
    : completion (list Z) :=
  writeString_from 0 view offset str.

(** The float-to-integer step shared by [pcmToWav] and [pcmToMp3]:
    [Math.max(-1, Math.min(1, x))], then [s < 0 ? s * 0x8000 : s * 0x7FFF]. *)
Definition clamp_sample (x : float) : float :=
  Math_max (Fin (-1)) (Math_min (Fin 1) x).

Definition scale_sample (s : float) : float :=
  if float_lt s (Fin 0) then float_scale s 0x8000 else float_scale s 0x7FFF.

(** The sample loop of [pcmToWav]. *)
Fixpoint write_samples (view : list Z) (offset : nat) (pcmData : list float)
    : completion (list Z) :=
  match pcmData with
  | [] => Return view
  | x :: rest =>
      let s := clamp_sample x in
      view' <- setInt16_le view offset (scale_sample s) ;;
      write_samples view' (offset + 2) rest
  end.

Definition pcmToWav (pcmData : list float) (sampleRate : Z)
    : completion Blob :=
  let len := Z.of_nat (length pcmData) in
  let view := new_ArrayBuffer (44 + length pcmData * 2) in
  view <- writeString view 0 (lit "RIFF") ;;
  view <- setUint32_le view 4 (36 + len * 2) ;;
  view <- writeString view 8 (lit "WAVE") ;;
  view <- writeString view 12 (lit "fmt ") ;;
  view <- setUint32_le view 16 16 ;;
  view <- setUint16_le view 20 1 ;;
  view <- setUint16_le view 22 1 ;;
  view <- setUint32_le view 24 sampleRate ;;
  view <- setUint32_le view 28 (sampleRate * 2) ;;
  view <- setUint16_le view 32 2 ;;
  view <- setUint16_le view 34 16 ;;
  view <- writeString view 36 (lit "data") ;;
  view <- setUint32_le view 40 (len * 2) ;;
  view <- write_samples view 44 pcmData ;;
  Return (new_Blob view (lit "audio/wav")).

(** [window.lamejs], when the page has loaded it: an encoder object with
    its two methods, which hand back the bytes they emit. *)
Record lamejs : Type := {
  encoder : Type;
  new_Mp3Encoder : Z -> Z -> Z -> encoder;
  encodeBuffer : encoder -> list Z -> completion (encoder * list Z);
  flush : encoder -> completion (list Z)
}.

(** The block loop of [pcmToMp3]: [samples.subarray(i, i + 1152)] for
    [i = 0, 1152, ...]; [fuel] bounds the number of blocks. *)
Fixpoint encode_blocks (fuel : nat) (lame : lamejs) (enc : encoder lame)
    (samples : list Z) (mp3Data : list (list Z))
    : completion (encoder lame * list (list Z)) :=
  match fuel, samples with
  | _, [] | O, _ => Return (enc, mp3Data)
  | S fuel', _ :: _ =>
      r <- encodeBuffer lame enc (take 1152 samples) ;;
      let mp3Data' :=
        if 0 <? length (snd r) then mp3Data ++ [snd r] else mp3Data in
      encode_blocks fuel' lame (fst r) (drop 1152 samples) mp3Data'
  end.

Definition pcmToMp3 (window_lamejs : option lamejs) (pcmData : list float)
    (sampleRate : Z) : completion Blob :=
  match window_lamejs with
  | None => pcmToWav pcmData sampleRate
  | Some lame =>
      let mp3encoder := new_Mp3Encoder lame 1 sampleRate 128 in
      let samples :=
        map (fun x => to_int16 (truncate (scale_sample (clamp_sample x))))
            pcmData in
      r <- encode_blocks (length samples) lame mp3encoder samples [] ;;
      mp3buf <- flush lame (fst r) ;;
      let mp3Data :=
        if 0 <? length mp3buf then snd r ++ [mp3buf] else snd r in
      Return (new_Blob (concat mp3Data) (lit "audio/mp3"))
  end.

End Utils.

(* ===================================================================== *)
(** * types *)
(* ===================================================================== *)

Module Types.
Import Js Utils.

(** Modelled from the spec: [types.ts] is not among the sources.  The spec
    has exactly two narration modes; the code names one, [AudioMode.STUDY],
    and treats every other value alike. *)
Inductive AudioMode : Type := STUDY | STORY.

Definition is_STUDY (mode : AudioMode) : bool :=
  match mode with STUDY => true | STORY => false end.

(** Modelled from the spec: the fields are those of the object literal
    [handleGenerate] builds. *)
Record LibraryItem : Type := {
  id : jsstring;
  title : jsstring;
  timestamp : Z;
  duration : Q;
  blob : Blob;
  mode : AudioMode;
  voice : jsstring
}.

End Types.

(* ===================================================================== *)
(** * services/Storage *)
(* ===================================================================== *)

Module Storage.
Import Js Utils Types Eff.

(** The browser's IndexedDB, as far as [StorageService] uses it: whether
    the database [AIAudioStudioDB] exists, and then the content of its
    object store [audioLibrary], keyed by [id]; and which requests the
    browser lets fail. *)
Inductive request : Type := ReqOpen | ReqPut | ReqGetAll | ReqDelete.

Record IndexedDB : Type := {
  fails : request -> bool;
  audioLibrary : option (gmap (list N) LibraryItem)
}.

(** [StorageService]: the field [db] (set or [null]) and, behind it, the
    browser's database. *)
Record StorageService : Type := {
  db : bool;
  indexedDB : IndexedDB
}.

(** The items a store holds; none before the database exists. *)
Definition stored (st : StorageService) : gmap (list N) LibraryItem :=
  default ∅ (audioLibrary (indexedDB st)).

Definition NotFoundError : error :=
  new_Error (lit "One of the specified object stores was not found.").

(** [init]: open the database, creating the object store on first use. *)
Definition init : M StorageService unit :=
  fun st =>
    if fails (indexedDB st) ReqOpen
    then (Throw (new_Error (lit "Failed to open IndexedDB")), st)
    else (Return tt,
          {| db := true;
             indexedDB :=
               {| fails := fails (indexedDB st);
                  audioLibrary := Some (stored st) |} |}).

(** [if (!this.db) await this.init();] *)
Definition ensure_db : M StorageService unit :=
  fun st => if db st then (Return tt, st) else init st.

(** One request on the object store inside a transaction. *)
Definition on_store (req : request) (failure : jsstring)
    (f : gmap (list N) LibraryItem -> gmap (list N) LibraryItem)
    : M StorageService unit :=
  fun st =>
    match audioLibrary (indexedDB st) with
    | None => (Throw NotFoundError, st)
    | Some items =>
        if fails (indexedDB st) req
        then (Throw (new_Error failure), st)
        else (Return tt,
              {| db := db st;
                 indexedDB :=
                   {| fails := fails (indexedDB st);
                      audioLibrary := Some (f items) |} |})
    end.

Definition saveItem (item : LibraryItem) : M StorageService unit :=
  ensure_db ;;;
  on_store ReqPut (lit "Failed to save audio") (fun items => <[id item := item]> items).

Definition getItems : M StorageService (list LibraryItem) :=
  ensure_db ;;;
  on_store ReqGetAll (lit "Failed to retrieve library") (fun items => items) ;;;
  st <~ get ;;
  ret (map snd (map_to_list (stored st))).

Definition deleteItem (key : jsstring) : M StorageService unit :=
  ensure_db ;;;
  on_store ReqDelete (lit "Failed to delete item") (fun items => delete key items).

(** A service is consistent when a set [db] handle has a database behind
    it; [init] is the only place the handle is set. *)
Definition consistent (st : StorageService) : Prop :=
  db st = true -> is_Some (audioLibrary (indexedDB st)).

End Storage.

(* ===================================================================== *)
(** * services/AudioEngine *)
(* ===================================================================== *)

Module AudioEngine.
Import Js Utils Types Eff.

(** ** The Web Audio objects the engine holds *)

Record AudioBuffer : Type := {
  channelData : list float;
  sampleRate : Z
}.

Inductive AudioContextState : Type := running | suspended.

Record AudioContext : Type := {
  state : AudioContextState;
  currentTime : Q
}.

(** An [AudioBufferSourceNode] as the browser keeps it.  [onended] is the
    caller's [onEnd], if the handler has been installed. *)
Record SourceNode : Type := {
  buffer : option AudioBuffer;
  playbackRate : Q;
  connected : bool;
  started : bool;
  stopped : bool;
  handler : option (option nat)
}.

(** A source is audible from [start] until [stop]. *)
Definition audible (n : SourceNode) : bool := started n && negb (stopped n).

(** What the engine asks of the browser, in order. *)
Inductive event : Type :=
| EvCreate (h : nat)
| EvStart (h : nat)
| EvStop (h : nat)
| EvResume
| EvSuspend.

(** The [AudioEngine] object with the part of the browser it drives: the
    source nodes ever created (a node is named by its index) and the trace
    of requests. *)
Record AudioEngine : Type := {
  audioCtx : option AudioContext;
  analyser : bool;
  currentSource : option nat;
  currentGainNode : bool;
  startTime : Q;
  pauseTime : Q;
  isActuallyPlaying : bool;
  nodes : list SourceNode;
  trace : list event;
  autoplay_blocked : bool
}.

Definition set_audioCtx v (e : AudioEngine) : AudioEngine :=
  {| audioCtx := v; analyser := analyser e; currentSource := currentSource e;
     currentGainNode := currentGainNode e; startTime := startTime e;
     pauseTime := pauseTime e; isActuallyPlaying := isActuallyPlaying e;
     nodes := nodes e; trace := trace e;
     autoplay_blocked := autoplay_blocked e |}.
Definition set_graph (e : AudioEngine) : AudioEngine :=
  {| audioCtx := audioCtx e; analyser := true; currentSource := currentSource e;
     currentGainNode := true; startTime := startTime e;
     pauseTime := pauseTime e; isActuallyPlaying := isActuallyPlaying e;
     nodes := nodes e; trace := trace e;
     autoplay_blocked := autoplay_blocked e |}.
Definition set_currentSource v (e : AudioEngine) : AudioEngine :=
  {| audioCtx := audioCtx e; analyser := analyser e; currentSource := v;
     currentGainNode := currentGainNode e; startTime := startTime e;
     pauseTime := pauseTime e; isActuallyPlaying := isActuallyPlaying e;
     nodes := nodes e; trace := trace e;
     autoplay_blocked := autoplay_blocked e |}.
Definition set_startTime v (e : AudioEngine) : AudioEngine :=
  {| audioCtx := audioCtx e; analyser := analyser e;
     currentSource := currentSource e;
     currentGainNode := currentGainNode e; startTime := v;
     pauseTime := pauseTime e; isActuallyPlaying := isActuallyPlaying e;
     nodes := nodes e; trace := trace e;
     autoplay_blocked := autoplay_blocked e |}.
Definition set_isActuallyPlaying v (e : AudioEngine) : AudioEngine :=
  {| audioCtx := audioCtx e; analyser := analyser e;
     currentSource := currentSource e;
     currentGainNode := currentGainNode e; startTime := startTime e;
     pauseTime := pauseTime e; isActuallyPlaying := v;
     nodes := nodes e; trace := trace e;
     autoplay_blocked := autoplay_blocked e |}.
Definition set_nodes v (e : AudioEngine) : AudioEngine :=
  {| audioCtx := audioCtx e; analyser := analyser e;
     currentSource := currentSource e;
     currentGainNode := currentGainNode e; startTime := startTime e;
     pauseTime := pauseTime e; isActuallyPlaying := isActuallyPlaying e;
     nodes := v; trace := trace e;
     autoplay_blocked := autoplay_blocked e |}.
Definition emit (ev : event) (e : AudioEngine) : AudioEngine :=
  {| audioCtx := audioCtx e; analyser := analyser e;
     currentSource := currentSource e;
     currentGainNode := currentGainNode e; startTime := startTime e;
     pauseTime := pauseTime e; isActuallyPlaying := isActuallyPlaying e;
     nodes := nodes e; trace := trace e ++ [ev];
     autoplay_blocked := autoplay_blocked e |}.

(** An assignment to a property of node [h]. *)
Definition on_node (h : nat) (f : SourceNode -> SourceNode)
    (e : AudioEngine) : AudioEngine :=
  set_nodes (alter f h (nodes e)) e.

Definition set_state (s : AudioContextState) (c : AudioContext) : AudioContext :=
  {| state := s; currentTime := currentTime c |}.

(** [audioCtx.resume()] and [audioCtx.suspend()]; the state they request
    is taken to hold at once. *)
Definition ctx_resume (e : AudioEngine) : AudioEngine :=
  emit EvResume (set_audioCtx (set_state running <$> audioCtx e) e).
Definition ctx_suspend (e : AudioEngine) : AudioEngine :=
  emit EvSuspend (set_audioCtx (set_state suspended <$> audioCtx e) e).

(** ** Methods *)

Definition initContext (e : AudioEngine) : AudioEngine :=
  let e :=
    match audioCtx e with
    | Some _ => e
    | None =>
        set_graph
          (set_audioCtx
             (Some {| state := if autoplay_blocked e then suspended else running;
                      currentTime := 0 |}) e)
    end in
  match audioCtx e with
  | Some {| state := suspended |} => ctx_resume e
  | _ => e
  end.

Definition getAnalyser (e : AudioEngine) : bool := analyser e.

(** [source.stop()]: an [InvalidStateError] on a source never started,
    which the caller swallows. *)
Definition node_stop (h : nat) (e : AudioEngine) : completion unit * AudioEngine :=
  let e := emit (EvStop h) e in
  match nodes e !! h with
  | Some n =>
      if started n
      then (Return tt,
            on_node h (fun n =>
              {| buffer := buffer n; playbackRate := playbackRate n;
                 connected := connected n; started := started n;
                 stopped := true; handler := handler n |}) e)
      else (Throw (new_Error (lit "cannot call stop without calling start first")), e)
  | None => (Throw (new_Error (lit "cannot call stop without calling start first")), e)
  end.

Definition stop (e : AudioEngine) : AudioEngine :=
  let e :=
    match currentSource e with
    | Some h =>
        let e := snd (try_catch (node_stop h) (fun _ => ret tt) e) in
        set_currentSource None e
    | None => e
    end in
  set_isActuallyPlaying false e.

Definition default_node : SourceNode :=
  {| buffer := None; playbackRate := 1; connected := false;
     started := false; stopped := false; handler := None |}.

(** The statements of [playBuffer], one state change each. *)
Definition createBufferSource (e : AudioEngine) : AudioEngine :=
  let h := length (nodes e) in
  set_currentSource (Some h)
    (emit (EvCreate h) (set_nodes (nodes e ++ [default_node]) e)).

Definition on_current (f : SourceNode -> SourceNode) (e : AudioEngine)
    : AudioEngine :=
  match currentSource e with
  | Some h => on_node h f e
  | None => e
  end.

Definition assign_buffer (b : AudioBuffer) : AudioEngine -> AudioEngine :=
  on_current (fun n =>
    {| buffer := Some b; playbackRate := playbackRate n;
       connected := connected n; started := started n;
       stopped := stopped n; handler := handler n |}).

Definition assign_rate (rate : Q) : AudioEngine -> AudioEngine :=
  on_current (fun n =>
    {| buffer := buffer n; playbackRate := rate;
       connected := connected n; started := started n;
       stopped := stopped n; handler := handler n |}).

Definition connect_gain : AudioEngine -> AudioEngine :=
  on_current (fun n =>
    {| buffer := buffer n; playbackRate := playbackRate n;
       connected := true; started := started n;
       stopped := stopped n; handler := handler n |}).

Definition record_startTime (e : AudioEngine) : AudioEngine :=
  match audioCtx e with
  | Some c => set_startTime (currentTime c) e
  | None => e
  end.

Definition start_current (e : AudioEngine) : AudioEngine :=
  match currentSource e with
  | Some h =>
      emit (EvStart h)
        (on_node h (fun n =>
          {| buffer := buffer n; playbackRate := playbackRate n;
             connected := connected n; started := true;
             stopped := stopped n; handler := handler n |}) e)
  | None => e
  end.

Definition assign_onended (onEnd : option nat) : AudioEngine -> AudioEngine :=
  on_current (fun n =>
    {| buffer := buffer n; playbackRate := playbackRate n;
       connected := connected n; started := started n;
       stopped := stopped n; handler := Some onEnd |}).

Definition playBuffer_statements (b : AudioBuffer) (rate : Q)
    (onEnd : option nat) : list (AudioEngine -> AudioEngine) :=
  [ initContext;
    stop;
    createBufferSource;
    assign_buffer b;
    assign_rate rate;
    connect_gain;
    record_startTime;
    start_current;
    set_isActuallyPlaying true;
    assign_onended onEnd ].

Definition run (stmts : list (AudioEngine -> AudioEngine)) (e : AudioEngine)
    : AudioEngine :=
  foldl (fun e stmt => stmt e) e stmts.

Definition playBuffer (b : AudioBuffer) (rate : Q) (onEnd : option nat)
    (e : AudioEngine) : AudioEngine :=
  run (playBuffer_statements b rate onEnd) e.

(** [playFromBlob]: [decodeAudioData] is the browser's decoder; the
    promise it returns is rejected on data it cannot decode, and then
    nothing is played. *)
Definition playFromBlob
    (decodeAudioData : list Z -> completion AudioBuffer)
    (blob : Blob) (rate : Q) (onEnd : option nat)
    : M AudioEngine unit :=
  fun e =>
    let e := initContext e in
    match decodeAudioData (blob_bytes blob) with
    | Return b => (Return tt, playBuffer b rate onEnd e)
    | Throw err => (Throw err, e)
    end.

Definition pause (e : AudioEngine) : AudioEngine :=
  match audioCtx e with
  | Some _ => ctx_suspend e
  | None => e
  end.

Definition resume (e : AudioEngine) : AudioEngine :=
  match audioCtx e with
  | Some _ => ctx_resume e
  | None => e
  end.

Definition setPlaybackRate (rate : Q) (e : AudioEngine) : AudioEngine :=
  match currentSource e with
  | Some _ => assign_rate rate e
  | None => e
  end.

(** [decodeToBuffer]: [createBuffer] refuses a length of zero frames with
    a [NotSupportedError]. *)
Definition decodeToBuffer (pcmData : list float)
    : M AudioEngine AudioBuffer :=
  fun e =>
    let e := initContext e in
    if length pcmData =? 0
    then (Throw (new_Error (lit "The number of frames provided (0) is less than or equal to the minimum bound (0).")), e)
    else (Return {| channelData := pcmData; sampleRate := 24000 |}, e).

(** ** [generateTTS] *)

Record GenerateContentParameters : Type := {
  model : jsstring;
  contents : jsstring;
  voiceName : jsstring
}.

(** What [ai.models.generateContent] comes back with: a rejection, or a
    response whose
    [candidates?.[0]?.content?.parts?.[0]?.inlineData?.data] is a string
    or [undefined]. *)
Inductive GenerateContentResult : Type :=
| Rejected (e : error)
| Response (data : option jsstring).

Definition study_prompt : jsstring :=
  lit "Read the following text naturally. Prioritize correct Bangla pronunciation. Calm, intelligent teacher tone. Steady voice, minimal emotion.".
Definition story_prompt : jsstring :=
  lit "Read like a warm storyteller. Use soft emotional tone. Add natural pauses. Blend English words gently. Expressive but not dramatic.".

Definition voice_of (mode : AudioMode) : jsstring :=
  if is_STUDY mode then lit "Kore" else lit "Zephyr".

Definition QUOTA_FULL : jsstring := lit "QUOTA_FULL".

(** [error.message?.includes("quota") || error.status === 429] *)
Definition quota_signal (e : error) : bool :=
  match message e with
  | Some m => includes m (lit "quota")
  | None => false
  end
  || match status e with
     | Some n => (n =? 429)%Z
     | None => false
     end.

(** The body of the [try] block.  [text] is [undefined] when the caller
    indexes past the end of its sentence list; [cleanTextForTTS] then
    throws a [TypeError] while the request is being built. *)
Definition generateTTS_try
    (generateContent : GenerateContentParameters -> GenerateContentResult)
    (text : option jsstring) (mode : AudioMode) : completion (list float) :=
  let systemPrompt := if is_STUDY mode then study_prompt else story_prompt in
  let voiceName := voice_of mode in
  cleaned <- match text with
             | Some t => Return (cleanTextForTTS t)
             | None => Throw TypeError_undefined
             end ;;
  data <- match generateContent
                  {| model := lit "gemini-2.5-flash-preview-tts";
                     contents := systemPrompt ++ [0x0A; 0x0A]%N
                                   ++ lit "Text to read: " ++ cleaned;
                     voiceName := voiceName |} with
          | Rejected e => Throw e
          | Response data => Return data
          end ;;
  base64Audio <- match data with
                 | None | Some [] => Throw (new_Error (lit "No audio data received"))
                 | Some b => Return b
                 end ;;
  uint8 <- decodeBase64 base64Audio ;;
  int16 <- new_Int16Array uint8 ;;
  Return (map (fun v => float_div (float_of_Z v) 32768) int16).

Definition generateTTS
    (generateContent : GenerateContentParameters -> GenerateContentResult)
    (text : option jsstring) (mode : AudioMode) : completion (list float) :=
  catch (generateTTS_try generateContent text mode)
    (fun error =>
       if quota_signal error
       then Throw (new_Error QUOTA_FULL)
       else Throw error).

End AudioEngine.

(* ===================================================================== *)
(** * App *)
(* ===================================================================== *)

Module App.
Import Js Utils Types Eff.

Record AudioState : Type := {
  isPlaying : bool;
  isPaused : bool;
  currentTime : Q;
  duration : Q;
  playbackRate : Q;
  currentTitle : jsstring;
  currentVoice : jsstring
}.

(** The component's state variables. *)
Record State : Type := {
  text : jsstring;
  title : jsstring;
  mode : AudioMode;
  library : list LibraryItem;
  isGenerating : bool;
  progress : Z;
  error : option jsstring;
  audioState : AudioState
}.

(** The component with the two singletons it imports and the number of
    requests sent to the remote model so far. *)
Record World : Type := {
  app : State;
  audioEngine : AudioEngine.AudioEngine;
  storage : Storage.StorageService;
  calls : nat
}.

Definition on_app (f : State -> State) (w : World) : World :=
  {| app := f (app w); audioEngine := audioEngine w;
     storage := storage w; calls := calls w |}.

Definition setError v (a : State) : State :=
  {| text := text a; title := title a; mode := mode a; library := library a;
     isGenerating := isGenerating a; progress := progress a; error := v;
     audioState := audioState a |}.
Definition setIsGenerating v (a : State) : State :=
  {| text := text a; title := title a; mode := mode a; library := library a;
     isGenerating := v; progress := progress a; error := error a;
     audioState := audioState a |}.
Definition setProgress v (a : State) : State :=
  {| text := text a; title := title a; mode := mode a; library := library a;
     isGenerating := isGenerating a; progress := v; error := error a;
     audioState := audioState a |}.
Definition setLibrary v (a : State) : State :=
  {| text := text a; title := title a; mode := mode a; library := v;
     isGenerating := isGenerating a; progress := progress a; error := error a;
     audioState := audioState a |}.
Definition setAudioState (f : AudioState -> AudioState) (a : State) : State :=
  {| text := text a; title := title a; mode := mode a; library := library a;
     isGenerating := isGenerating a; progress := progress a; error := error a;
     audioState := f (audioState a) |}.

(** Run a method of one of the singletons. *)
Definition on_engine {A} (m : M AudioEngine.AudioEngine A) : M World A :=
  fun w =>
    let (c, e) := m (audioEngine w) in
    (c, {| app := app w; audioEngine := e; storage := storage w;
           calls := calls w |}).

Definition on_storage {A} (m : M Storage.StorageService A) : M World A :=
  fun w =>
    let (c, s) := m (storage w) in
    (c, {| app := app w; audioEngine := audioEngine w; storage := s;
           calls := calls w |}).

(** [Math.round(num / den * 100)], the display value of the progress bar;
    the division is taken exact. *)
Definition percent (num den : nat) : Z :=
  ((200 * Z.of_nat num + Z.of_nat den) / (2 * Z.of_nat den))%Z.

Section Environment.

(** The remote model: its answer to the [n]-th request of the session. *)
Variable generateContent :
  nat -> AudioEngine.GenerateContentParameters -> AudioEngine.GenerateContentResult.
(** [window.lamejs], [crypto.randomUUID()] and [Date.now()]. *)
Variable window_lamejs : option lamejs.
Variable randomUUID : jsstring.
Variable now : Z.

(** [await audioEngine.generateTTS(sentence, mode)] *)
Definition call_generateTTS (sentence : option jsstring) (m : AudioMode)
    : M World (list float) :=
  fun w =>
    (AudioEngine.generateTTS (generateContent (calls w)) sentence m,
     {| app := app w; audioEngine := audioEngine w; storage := storage w;
        calls := S (calls w) |}).

(** [for (let i = 1; i < totalSentences; i++)], with [k] rounds to go. *)
Fixpoint fetch_remaining (k : nat) (i : nat) (sentences : list jsstring)
    (m : AudioMode) (combinedPCMChunks : list (list float))
    (totalLength : nat) : M World (list (list float) * nat) :=
  match k with
  | O => ret (combinedPCMChunks, totalLength)
  | S k' =>
      chunk <~ call_generateTTS (sentences !! i) m ;;
      modify (on_app (setProgress (percent (i + 1) (length sentences)))) ;;;
      fetch_remaining k' (S i) sentences m
        (combinedPCMChunks ++ [chunk]) (totalLength + length chunk)
  end.

(** [for (const chunk of combinedPCMChunks)] *)
Fixpoint merge_chunks (finalPCM : list float) (offset : nat)
    (chunks : list (list float)) : completion (list float) :=
  match chunks with
  | [] => Return finalPCM
  | chunk :: rest =>
      finalPCM' <- typed_array_set finalPCM chunk offset ;;
      merge_chunks finalPCM' (offset + length chunk) rest
  end.

(** The first part of the [try] block: from [splitIntoSentences] to the
    merged [finalPCM]. *)
Definition generate_finalPCM (a0 : State) : M World (list float) :=
  let sentences := splitIntoSentences (text a0) in
  let totalSentences := length sentences in
  firstSentencePCM <~ call_generateTTS (sentences !! 0) (mode a0) ;;
  buffer <~ on_engine (AudioEngine.decodeToBuffer firstSentencePCM) ;;
  modify (on_app (setAudioState (fun prev =>
    {| isPlaying := true; isPaused := false;
       currentTime := currentTime prev;
       duration := inject_Z (Z.of_nat (length (AudioEngine.channelData buffer)))
                     / inject_Z (AudioEngine.sampleRate buffer);
       playbackRate := playbackRate prev;
       currentTitle := title a0;
       currentVoice := AudioEngine.voice_of (mode a0) |}))) ;;;
  on_engine (modify (AudioEngine.playBuffer buffer
                       (playbackRate (audioState a0)) (Some 0))) ;;;
  modify (on_app (setProgress (percent 1 totalSentences))) ;;;
  r <~ (if 1 <? totalSentences
        then fetch_remaining (totalSentences - 1) 1 sentences (mode a0)
               [firstSentencePCM] (length firstSentencePCM)
        else ret ([firstSentencePCM], length firstSentencePCM)) ;;
  lift (merge_chunks (replicate (snd r) (Fin 0)) 0 (fst r)).

(** The second part: encode, build the item, save it. *)
Definition encode_and_save (a0 : State) (finalPCM : list float)
    : M World unit :=
  mp3Blob <~ lift (pcmToMp3 window_lamejs finalPCM 24000) ;;
  let newItem :=
    {| id := randomUUID;
       Types.title := match title a0 with
                      | [] => lit "Untitled Audio"
                      | t => t
                      end;
       timestamp := now;
       Types.duration := inject_Z (Z.of_nat (length finalPCM)) / 24000;
       blob := mp3Blob;
       Types.mode := mode a0;
       voice := AudioEngine.voice_of (mode a0) |} in
  on_storage (Storage.saveItem newItem) ;;;
  modify (on_app (setLibrary (newItem :: library a0))) ;;;
  modify (on_app (setProgress 100)).

(** The [catch] clause. *)
Definition report (err : Js.error) : M World unit :=
  if match message err with
     | Some m => bool_decide (m = AudioEngine.QUOTA_FULL)
     | None => false
     end
  then modify (on_app (setError (Some (lit "API Quota Full. Please wait a moment."))))
  else modify (on_app (setError (Some (lit "An error occurred during generation.")))).

Definition handleGenerate (w : World) : World :=
  let a0 := app w in
  if length (trim (text a0)) =? 0
  then on_app (setError (Some (lit "Please enter some text first."))) w
  else
    let w := on_app (setProgress 5)
               (on_app (setIsGenerating true) (on_app (setError None) w)) in
    snd (finally
           (try_catch
              (finalPCM <~ generate_finalPCM a0 ;; encode_and_save a0 finalPCM)
              report)
           (on_app (setIsGenerating false))
           w).

End Environment.

End App.

(* ===================================================================== *)
(** * App: the other handlers *)
(* ===================================================================== *)

Module Actions.
Import Js Utils Types Eff App.

(** ** [Array.prototype.sort] with a comparator

    The sort is stable.  For a comparator that orders its arguments
    consistently every stable sort returns the same array, so the
    insertion sort below stands for the engine's: an element goes in front
    of the first one it does not compare greater than. *)
Fixpoint sort_insert {A} (comparefn : A -> A -> Z) (x : A) (sorted : list A)
    : list A :=
  match sorted with
  | [] => [x]
  | y :: rest =>
      if (comparefn x y <=? 0)%Z
      then x :: y :: rest
      else y :: sort_insert comparefn x rest
  end.

Definition Array_sort {A} (comparefn : A -> A -> Z) (l : list A) : list A :=
  foldr (sort_insert comparefn) [] l.

(** [(a, b) => b.timestamp - a.timestamp] *)
Definition by_newest (a b : LibraryItem) : Z := (timestamp b - timestamp a)%Z.

(** [loadLibrary], run once when the component mounts. *)
Definition loadLibrary : M World unit :=
  on_storage Storage.init ;;;
  items <~ on_storage Storage.getItems ;;
  modify (on_app (setLibrary (Array_sort by_newest items))).

(** [deleteFromLibrary] *)
Definition deleteFromLibrary (key : jsstring) : M World unit :=
  fun w =>
    (on_storage (Storage.deleteItem key) ;;;
     modify (on_app (setLibrary
       (filter (fun item => id item <> key) (library (app w)))))) w.

(** [downloadItem]: the anchor it clicks, with its [href] and [download]
    attributes; [createObjectURL] is the browser's. *)
Record Anchor : Type := {
  href : jsstring;
  download : jsstring
}.

Definition downloadItem (createObjectURL : Blob -> jsstring)
    (item : LibraryItem) : Anchor :=
  {| href := createObjectURL (blob item);
     download := replace_all re_spaces (lit "_") (Types.title item)
                   ++ lit "_AI_Voice.mp3" |}.

Definition with_engine (f : AudioEngine.AudioEngine -> AudioEngine.AudioEngine)
    (w : World) : World :=
  {| app := app w; audioEngine := f (audioEngine w);
     storage := storage w; calls := calls w |}.

(** [togglePlayback] *)
Definition togglePlayback (w : World) : World :=
  let audioState := audioState (app w) in
  if isPaused audioState
  then
    on_app (setAudioState (fun _ =>
      {| isPlaying := true; isPaused := false;
         currentTime := currentTime audioState;
         duration := duration audioState;
         playbackRate := playbackRate audioState;
         currentTitle := currentTitle audioState;
         currentVoice := currentVoice audioState |}))
      (with_engine AudioEngine.resume w)
  else
    on_app (setAudioState (fun _ =>
      {| isPlaying := isPlaying audioState; isPaused := true;
         currentTime := currentTime audioState;
         duration := duration audioState;
         playbackRate := playbackRate audioState;
         currentTitle := currentTitle audioState;
         currentVoice := currentVoice audioState |}))
      (with_engine AudioEngine.pause w).

(** [stopPlayback] *)
Definition stopPlayback (w : World) : World :=
  let audioState := audioState (app w) in
  on_app (setAudioState (fun _ =>
    {| isPlaying := false; isPaused := false;
       currentTime := currentTime audioState;
       duration := duration audioState;
       playbackRate := playbackRate audioState;
       currentTitle := currentTitle audioState;
       currentVoice := currentVoice audioState |}))
    (with_engine AudioEngine.stop w).

(** [changeRate] *)
Definition changeRate (rate : Q) (w : World) : World :=
  let audioState := audioState (app w) in
  with_engine (AudioEngine.setPlaybackRate rate)
    (on_app (setAudioState (fun _ =>
      {| isPlaying := isPlaying audioState; isPaused := isPaused audioState;
         currentTime := currentTime audioState;
         duration := duration audioState;
         playbackRate := rate;
         currentTitle := currentTitle audioState;
         currentVoice := currentVoice audioState |})) w).

(** [playFromLibrary] *)
Definition playFromLibrary
    (decodeAudioData : list Z -> completion AudioEngine.AudioBuffer)
    (item : LibraryItem) : M World unit :=
  fun w =>
    let audioState := audioState (app w) in
    (modify (on_app (setError None)) ;;;
     modify (on_app (setAudioState (fun _ =>
       {| isPlaying := true; isPaused := false;
          currentTime := currentTime audioState;
          duration := Types.duration item;
          playbackRate := playbackRate audioState;
          currentTitle := Types.title item;
          currentVoice := voice item |}))) ;;;
     on_engine (AudioEngine.playFromBlob decodeAudioData (blob item)
                  (playbackRate audioState) (Some 0))) w.

(** [handleMagicScript]: [generateContent] of the text model comes back
    with a rejection or with a response whose [text] may be missing. *)
Inductive ScriptResult : Type :=
| ScriptRejected (e : Js.error)
| ScriptResponse (text : option jsstring).

Definition setText v (a : State) : State :=
  {| text := v; title := title a; mode := mode a; library := library a;
     isGenerating := isGenerating a; progress := progress a; error := error a;
     audioState := App.audioState a |}.

Definition magic_prompt (a : State) : jsstring :=
  lit "Improve or generate a professional "
  ++ (if is_STUDY (mode a) then lit "educational"
      else lit "engaging story-based")
  ++ lit " script based on the following input: " ++ [0x22%N]
  ++ (match text a with [] => title a | t => t end)
  ++ [0x22%N]
  ++ lit ". The script should be clear, natural, and approximately 100-150 words long. Focus on natural pauses and human-like flow.".

Definition handleMagicScript (generateScript : jsstring -> ScriptResult)
    (w : World) : World :=
  let a0 := app w in
  match text a0, title a0 with
  | [], [] =>
      on_app (setError (Some (lit "Enter a topic or some text first."))) w
  | _, _ =>
      let w := on_app (setError None) (on_app (setIsGenerating true) w) in
      snd (finally
             (try_catch
                (response <~ lift (match generateScript (magic_prompt a0) with
                                   | ScriptRejected e => Throw e
                                   | ScriptResponse t => Return t
                                   end) ;;
                 modify (on_app (setText (default [] response))))
                (fun _ => modify (on_app (setError
                   (Some (lit "Magic Script failed. Please try again."))))))
             (on_app (setIsGenerating false))
             w)
  end.

End Actions.

(* ===================================================================== *)
(** * The contract, in the specification's words *)
(* ===================================================================== *)

Module Contract.
Import Js Utils Types Eff.

(** ** Speech generator *)

(** A failure carries the quota signal when its message contains the word
    quota or its numeric status is 429. *)
Definition quota_failure (e : error) : Prop :=
  (exists m pre post, message e = Some m /\ m = pre ++ lit "quota" ++ post)
  \/ status e = Some 429%Z.

(** The distinguished error, as the caller recognises it
    ([err.message === 'QUOTA_FULL'] in [handleGenerate]). *)
Definition is_quota_error (e : error) : bool :=
  match message e with
  | Some m => bool_decide (m = AudioEngine.QUOTA_FULL)
  | None => false
  end.

(** The claim on error classification, as stated: every failure with the
    quota signal comes out as the distinguished error, every other failure
    as an error the caller does not take for it. *)
Definition failures_distinguished : Prop :=
  forall gc text mode e,
    AudioEngine.generateTTS_try gc text mode = Throw e ->
    (quota_failure e ->
       AudioEngine.generateTTS gc text mode
       = Throw (new_Error AudioEngine.QUOTA_FULL))
    /\ (~ quota_failure e ->
          exists e', AudioEngine.generateTTS gc text mode = Throw e'
                     /\ is_quota_error e' = false).

(** Raw 16-bit little-endian signed PCM, each sample divided by 32768. *)
Definition signed16 (u : Z) : Z :=
  if (u <? 32768)%Z then u else (u - 65536)%Z.

Fixpoint s16le_samples (bytes : list Z) : list float :=
  match bytes with
  | lo :: hi :: rest =>
      Fin (signed16 (lo + 256 * hi) # 32768) :: s16le_samples rest
  | _ => []
  end.

(** A normalised sample: finite, between -1 and 32767/32768. *)
Definition normalised (x : float) : Prop :=
  match x with
  | Fin q => (-1 <= q)%Q /\ (q <= 32767 # 32768)%Q
  | _ => False
  end.

(** The request [generateTTS] sends for a sentence. *)
Definition request_for (t : jsstring) (mode : AudioMode)
    : AudioEngine.GenerateContentParameters :=
  {| AudioEngine.model := lit "gemini-2.5-flash-preview-tts";
     AudioEngine.contents :=
       (if is_STUDY mode then AudioEngine.study_prompt
        else AudioEngine.story_prompt)
       ++ [0x0A; 0x0A]%N ++ lit "Text to read: " ++ cleanTextForTTS t;
     AudioEngine.voiceName := AudioEngine.voice_of mode |}.

(** ** Playback controller *)

(** Exclusive ownership: whatever source is audible is the one in the
    [currentSource] slot, so no two sources are audible together. *)
Definition exclusive (e : AudioEngine.AudioEngine) : Prop :=
  forall h n,
    AudioEngine.nodes e !! h = Some n ->
    AudioEngine.audible n = true ->
    AudioEngine.currentSource e = Some h.

Definition silent (e : AudioEngine.AudioEngine) : Prop :=
  forall h n,
    AudioEngine.nodes e !! h = Some n -> AudioEngine.audible n = false.

Definition audible_sources (e : AudioEngine.AudioEngine) : nat :=
  length (filter (fun n => AudioEngine.audible n = true) (AudioEngine.nodes e)).

(** The Playing state: source [h] is current and audible, with buffer [b]
    at rate [rate], on a running context. *)
Definition playing (e : AudioEngine.AudioEngine) (h : nat)
    (b : AudioEngine.AudioBuffer) (rate : Q) : Prop :=
  AudioEngine.currentSource e = Some h
  /\ AudioEngine.isActuallyPlaying e = true
  /\ (exists c, AudioEngine.audioCtx e = Some c
                /\ AudioEngine.state c = AudioEngine.running)
  /\ exists n, AudioEngine.nodes e !! h = Some n
               /\ AudioEngine.audible n = true
               /\ AudioEngine.buffer n = Some b
               /\ AudioEngine.playbackRate n = rate.

(** ** Encoder: the WAV container *)

(** Unsigned little-endian fields, byte by byte. *)
Definition u16le (v : Z) : list Z :=
  [v mod 256; v / 256 mod 256]%Z.
Definition u32le (v : Z) : list Z :=
  [v mod 256; v / 256 mod 256; v / 65536 mod 256; v / 16777216 mod 256]%Z.

(** A signed 16-bit value in two's complement, little-endian. *)
Definition s16le (v : Z) : list Z :=
  u16le (if (v <? 0)%Z then v + 65536 else v)%Z.

(** The value of a little-endian field. *)
Definition le_value (bytes : list Z) : Z :=
  foldr (fun b acc => b + 256 * acc)%Z 0%Z bytes.

Definition ascii_bytes (s : string) : list Z := map Z.of_N (lit s).

(** The fixed 44-byte header for [count] mono 16-bit samples. *)
Definition wav_header (count : nat) (sampleRate : Z) : list Z :=
  ascii_bytes "RIFF" ++ u32le (36 + 2 * Z.of_nat count)
  ++ ascii_bytes "WAVE"
  ++ ascii_bytes "fmt " ++ u32le 16
  ++ u16le 1                      (* PCM *)
  ++ u16le 1                      (* mono *)
  ++ u32le sampleRate
  ++ u32le (sampleRate * 2)       (* byte rate *)
  ++ u16le 2                      (* block align *)
  ++ u16le 16                     (* bits per sample *)
  ++ ascii_bytes "data" ++ u32le (2 * Z.of_nat count).

(** A sample clamped to [-1, 1], scaled by 32768 when negative and by
    32767 otherwise, and cut to an integer. *)
Definition clamp (q : Q) : Q :=
  (if Qlt_le_dec q (-1) then -1 else if Qlt_le_dec 1 q then 1 else q)%Q.

Definition quantise (q : Q) : Z :=
  let c := clamp q in
  let scaled := (if Qlt_le_dec c 0 then c * 32768 else c * 32767)%Q in
  Z.quot (Qnum scaled) (Z.pos (Qden scaled)).

Definition wav_data (pcm : list Q) : list Z :=
  concat (map (fun q => s16le (quantise q)) pcm).

(** ** Text segmenter *)

(** A unit is blank when trimming leaves nothing of it. *)
Definition blank (u : jsstring) : Prop := trim u = [].

Definition no_leading_space (u : jsstring) : Prop :=
  match u with
  | c :: _ => is_space c = false
  | [] => True
  end.

Definition no_trailing_space (u : jsstring) : Prop :=
  no_leading_space (rev u).

Definition ends_with_terminator (u : jsstring) : Prop :=
  exists u' c, u = u' ++ [c] /\ is_terminator c = true.

(** The segmenter's contract as stated, in two parts: a non-empty input
    gives at least one unit; every unit is trimmed. *)
Definition segment_returns_units : Prop :=
  forall text, text <> [] -> splitIntoSentences text <> [].

Definition segment_units_trimmed : Prop :=
  forall text, text <> [] ->
    Forall (fun u => ~ blank u /\ trim u = u) (splitIntoSentences text).

(** ** Scanning

    What a greedy run of a class leaves: the last code unit taken (or the
    one before the run) and the input after the run. *)
Fixpoint span_end (p : N -> bool) (prev : option N) (s : jsstring)
    : option N * jsstring :=
  match s with
  | c :: s' => if p c then span_end p (Some c) s' else (prev, s)
  | [] => (prev, s)
  end.

(** ** Text normaliser *)

(** The normaliser's contract as stated. *)
Definition normalisation_idempotent : Prop :=
  forall x, cleanTextForTTS (cleanTextForTTS x) = cleanTextForTTS x.

(** No inline link is left in a text: the link pattern matches at no
    position of it. *)
Definition link_free (s : jsstring) : Prop :=
  forall pre post, s = pre ++ post -> exec_at re_link None post = None.

(** The pattern [r] matches nowhere from the state [(prev, s)] on. *)
Fixpoint no_match (r : regex) (prev : option N) (s : jsstring) : Prop :=
  exec_at r prev s = None
  /\ match s with
     | [] => True
     | c :: s' => no_match r (Some c) s'
     end.

(** White space is tidy when it only comes as single U+0020 spaces. *)
Fixpoint tidy (s : jsstring) : Prop :=
  match s with
  | [] => True
  | c :: s' =>
      (is_space c = true -> c = 0x20%N /\ no_leading_space s') /\ tidy s'
  end.

(** No list bullet is followed by white space. *)
Fixpoint no_bullet_gap (s : jsstring) : Prop :=
  match s with
  | [] => True
  | c :: s' => (is_bullet c = true -> no_leading_space s') /\ no_bullet_gap s'
  end.

End Contract.

(* ===================================================================== *)
(** * Reference notions for the further properties *)
(* ===================================================================== *)

Module Reference.
Import Js Utils Types Eff.

(** ** Base64 encoding, the inverse of what [decodeBase64] reads *)

Definition base64_char (v : Z) : N :=
  if (v <? 26)%Z then Z.to_N (v + 0x41)
  else if (v <? 52)%Z then Z.to_N (v - 26 + 0x61)
  else if (v <? 62)%Z then Z.to_N (v - 52 + 0x30)
  else if (v =? 62)%Z then 0x2B%N
  else 0x2F%N.

Fixpoint base64_encode (bytes : list Z) : jsstring :=
  match bytes with
  | a :: b :: c :: rest =>
      base64_char (a / 4)
      :: base64_char (a mod 4 * 16 + b / 16)
      :: base64_char (b mod 16 * 4 + c / 64)
      :: base64_char (c mod 64)
      :: base64_encode rest
  | [a; b] =>
      [base64_char (a / 4); base64_char (a mod 4 * 16 + b / 16);
       base64_char (b mod 16 * 4); 0x3D%N]
  | [a] =>
      [base64_char (a / 4); base64_char (a mod 4 * 16); 0x3D%N; 0x3D%N]
  | [] => []
  end%Z.

(** The sextets of the encoding and its padding, apart. *)
Fixpoint base64_digits (bytes : list Z) : list Z :=
  match bytes with
  | a :: b :: c :: rest =>
      a / 4 :: a mod 4 * 16 + b / 16 :: b mod 16 * 4 + c / 64 :: c mod 64
      :: base64_digits rest
  | [a; b] => [a / 4; a mod 4 * 16 + b / 16; b mod 16 * 4]
  | [a] => [a / 4; a mod 4 * 16]
  | [] => []
  end%Z.

Fixpoint base64_padding (bytes : list Z) : jsstring :=
  match bytes with
  | _ :: _ :: _ :: rest => base64_padding rest
  | [_; _] => [0x3D%N]
  | [_] => [0x3D; 0x3D]%N
  | [] => []
  end.

(** ** Blocks of at most [n] elements, in order *)
Fixpoint blocks_go {A} (fuel n : nat) (l : list A) : list (list A) :=
  match fuel, l with
  | _, [] | O, _ => []
  | S fuel', _ :: _ => take n l :: blocks_go fuel' n (drop n l)
  end.

Definition blocks {A} (n : nat) (l : list A) : list (list A) :=
  blocks_go (length l) n l.

(** Feeding blocks to an MP3 encoder one after the other, collecting what
    it emits. *)
Fixpoint feed (lame : lamejs) (enc : encoder lame) (bs : list (list Z))
    : completion (encoder lame * list (list Z)) :=
  match bs with
  | [] => Return (enc, [])
  | b :: rest =>
      r <- encodeBuffer lame enc b ;;
      r' <- feed lame (fst r) rest ;;
      Return (fst r', snd r :: snd r')
  end.

(** The 16-bit samples [pcmToMp3] hands to the encoder. *)
Definition int16_of_sample (x : float) : Z :=
  to_int16 (truncate (scale_sample (clamp_sample x))).

(** The finite sample a [Float32Array] element is written as: silence
    for NaN, full scale for the infinities. *)
Definition finite_of (x : float) : Q :=
  match x with
  | NaN => 0
  | Inf true => -1
  | Inf false => 1
  | Fin q => q
  end.

(** ** Reading a WAV file back *)
Definition wav_field (bytes : list Z) (offset width : nat) : Z :=
  foldr (fun b acc => b + 256 * acc)%Z 0%Z (take width (drop offset bytes)).

Definition wav_sample (bytes : list Z) (i : nat) : Z :=
  let u := wav_field bytes (44 + 2 * i) 2 in
  if (u <? 32768)%Z then u else (u - 65536)%Z.

(** ** Visible content of a text *)
Definition visible (s : jsstring) : jsstring :=
  filter (fun c => is_space c = false) s.

(** ** The library and the store *)

(** The store keeps every item under its own [id]. *)
Definition keyed_by_id (items : gmap (list N) LibraryItem) : Prop :=
  forall k item, items !! k = Some item -> id item = k.

(** The displayed library shows exactly the stored items. *)
Definition in_sync (w : App.World) : Prop :=
  forall item,
    item ∈ App.library (App.app w)
    <-> Storage.stored (App.storage w) !! id item = Some item.

(** An item of one silent sample, for worked instances. *)
Definition fresh_item (key : jsstring) : LibraryItem :=
  {| id := key; title := lit "Demo"; timestamp := 0; duration := 0;
     blob := new_Blob [] (lit "audio/mp3"); mode := STUDY;
     voice := lit "Kore" |}.

(** Newest first. *)
Definition newest_first (l : list LibraryItem) : Prop :=
  forall i j a b, i <= j -> l !! i = Some a -> l !! j = Some b ->
    (timestamp b <= timestamp a)%Z.

End Reference.

(* ===================================================================== *)
(** * Sample data for the worked instances *)
(* ===================================================================== *)

Module Samples.
Import Js Utils Types Eff.

Definition engine0 : AudioEngine.AudioEngine :=
  {| AudioEngine.audioCtx := None; AudioEngine.analyser := false;
     AudioEngine.currentSource := None; AudioEngine.currentGainNode := false;
     AudioEngine.startTime := 0; AudioEngine.pauseTime := 0;
     AudioEngine.isActuallyPlaying := false; AudioEngine.nodes := [];
     AudioEngine.trace := []; AudioEngine.autoplay_blocked := false |}.

Definition storage0 : Storage.StorageService :=
  {| Storage.db := false;
     Storage.indexedDB :=
       {| Storage.fails := fun _ => false; Storage.audioLibrary := None |} |}.

Definition world0 : App.World :=
  {| App.app :=
       {| App.text := lit "Hi. Yo."; App.title := lit "Demo";
          App.mode := STUDY; App.library := []; App.isGenerating := false;
          App.progress := 0; App.error := None;
          App.audioState :=
            {| App.isPlaying := false; App.isPaused := false;
               App.currentTime := 0; App.duration := 0;
               App.playbackRate := 1; App.currentTitle := [];
               App.currentVoice := lit "Kore" |} |};
     App.audioEngine := engine0;
     App.storage := storage0;
     App.calls := 0 |}.

(** A remote that answers every request with the three samples 0, 32767
    and -32768, and one that is out of quota. *)
Definition remote_ok (n : nat) (_ : AudioEngine.GenerateContentParameters)
    : AudioEngine.GenerateContentResult :=
  AudioEngine.Response (Some (lit "AAD/fwCA")).

Definition remote_quota (n : nat) (_ : AudioEngine.GenerateContentParameters)
    : AudioEngine.GenerateContentResult :=
  AudioEngine.Rejected {| message := None; status := Some 429%Z |}.

Definition three_samples : list float :=
  [Fin (0 # 32768); Fin (32767 # 32768); Fin (-32768 # 32768)].

End Samples.

(* ===================================================================== *)
(** * Properties of the regular expressions *)
(* ===================================================================== *)

Module RegexFacts.
Import Js Utils Contract.

Lemma greedy_star_final (p : N -> bool) (prev : option N) (s : jsstring) :
  greedy_star p (fun prev' rest => Some (prev', rest)) prev s
  = Some (span_end p prev s).
Proof.
  revert prev. induction s as [|c s IH]; intros prev; cbn; [done|].
  destruct (p c); [|done]. by rewrite IH.
Qed.

Lemma span_end_length p prev s : length (snd (span_end p prev s)) <= length s.
Proof.
  revert prev. induction s as [|c s IH]; intros prev; cbn; [lia|].
  destruct (p c); cbn; [specialize (IH (Some c))|]; lia.
Qed.

(** After the run, the input does not start with a member of the class. *)
Lemma span_end_stops p prev s :
  match snd (span_end p prev s) with
  | c :: _ => p c = false
  | [] => True
  end.
Proof.
  revert prev. induction s as [|c s IH]; intros prev; cbn; [done|].
  destruct (p c) eqn:Hc; cbn; [apply IH | exact Hc].
Qed.

(** The last code unit of a run that started in the class is in it. *)
Lemma span_end_last p w s :
  p w = true ->
  exists w', fst (span_end p (Some w) s) = Some w' /\ p w' = true.
Proof.
  revert w. induction s as [|c s IH]; intros w Hw; cbn; [eauto|].
  destruct (p c) eqn:Hc; cbn; eauto.
Qed.

Lemma span_end_suffix p prev s :
  exists run, s = run ++ snd (span_end p prev s) /\ forallb p run = true.
Proof.
  revert prev. induction s as [|c s IH]; intros prev; cbn.
  - by exists [].
  - destruct (p c) eqn:Hc; cbn.
    + destruct (IH (Some c)) as (run & Hs & Hrun).
      exists (c :: run). cbn. rewrite Hc, Hrun. split; [|done]. by f_equal.
    + by exists [].
Qed.

Lemma terminator_not_space c : is_terminator c = true -> is_space c = false.
Proof.
  unfold is_terminator, one_of. cbn [existsb]. rewrite !orb_true_iff.
  intros [H|[H|[H|[H|H]]]]; try discriminate H;
    apply N.eqb_eq in H; subst c; reflexivity.
Qed.

(** The sentence gap: look-behind on a terminator, then all the white
    space there is. *)
Lemma exec_at_sentence_gap prev s :
  exec_at re_sentence_gap prev s
  = match prev, s with
    | Some c, w :: s' =>
        if is_terminator c && is_space w
        then Some (span_end is_space (Some w) s')
        else None
    | _, _ => None
    end.
Proof.
  unfold exec_at, re_sentence_gap. cbn [rmatch at_least].
  destruct prev as [c|]; [|done].
  destruct (is_terminator c); [|by destruct s].
  destruct s as [|w s']; [done|]. cbn [andb].
  destruct (is_space w); [|done]. apply greedy_star_final.
Qed.

(** ** Matches consume input *)

Lemma lazy_star_suffix p (k : cont) :
  (forall q s q' rest, k q s = Some (q', rest) -> rest `suffix_of` s) ->
  forall prev s q' rest,
    lazy_star p k prev s = Some (q', rest) -> rest `suffix_of` s.
Proof.
  intros Hk prev s. revert prev.
  induction s as [|c s IH]; intros prev q' rest; cbn.
  - destruct (k prev []) as [r|] eqn:Hk0; [|discriminate].
    intros [= ->]. by eapply Hk.
  - destruct (k prev (c :: s)) as [r|] eqn:Hk0.
    + intros [= ->]. by eapply Hk.
    + destruct (p c); [|discriminate]. intros Hrec.
      apply suffix_cons_r. by apply (IH (Some c) q').
Qed.

Lemma greedy_star_suffix p (k : cont) :
  (forall q s q' rest, k q s = Some (q', rest) -> rest `suffix_of` s) ->
  forall prev s q' rest,
    greedy_star p k prev s = Some (q', rest) -> rest `suffix_of` s.
Proof.
  intros Hk prev s. revert prev.
  induction s as [|c s IH]; intros prev q' rest; cbn.
  - apply Hk.
  - destruct (p c); [|apply Hk].
    destruct (greedy_star p k (Some c) s) as [r|] eqn:Hrec.
    + intros [= ->]. apply suffix_cons_r. by apply (IH (Some c) q').
    + apply Hk.
Qed.

Lemma at_least_suffix n p (k : cont) :
  (forall q s q' rest, k q s = Some (q', rest) -> rest `suffix_of` s) ->
  forall prev s q' rest,
    at_least n p k prev s = Some (q', rest) -> rest `suffix_of` s.
Proof.
  intros Hk. induction n as [|n IH]; intros prev s q' rest; cbn.
  - by apply greedy_star_suffix.
  - destruct s as [|c s]; [discriminate|].
    destruct (p c); [|discriminate]. intros Hrec.
    apply suffix_cons_r. by apply (IH (Some c) s q').
Qed.

Lemma rmatch_suffix r : forall k : cont,
  (forall q s q' rest, k q s = Some (q', rest) -> rest `suffix_of` s) ->
  forall prev s q' rest,
    rmatch r k prev s = Some (q', rest) -> rest `suffix_of` s.
Proof.
  induction r as [p|r1 IH1 r2 IH2|p|n p|p]; intros k Hk prev s q' rest; cbn.
  - destruct s as [|c s]; [discriminate|].
    destruct (p c); [|discriminate]. intros Hrec.
    apply suffix_cons_r. by apply (Hk (Some c) s q').
  - apply IH1. intros q s0 q0 rest0. by apply IH2.
  - by apply lazy_star_suffix.
  - by apply at_least_suffix.
  - destruct prev as [c|]; [|discriminate].
    destruct (p c); [|discriminate]. apply Hk.
Qed.

Lemma exec_at_suffix r prev s q' rest :
  exec_at r prev s = Some (q', rest) -> rest `suffix_of` s.
Proof.
  apply rmatch_suffix. by intros q s0 q0 rest0 [= _ ->].
Qed.

(** ** One step of a global replacement *)

Lemma replace_go_match fuel r rep prev s q' rest :
  exec_at r prev s = Some (q', rest) ->
  length rest < length s ->
  replace_go (S fuel) r rep prev s = rep ++ replace_go fuel r rep q' rest.
Proof.
  intros Hexec Hlen. cbn [replace_go]. rewrite Hexec.
  by destruct (Nat.ltb_spec (length rest) (length s)); [|lia].
Qed.

Lemma replace_go_skip fuel r rep prev c s :
  exec_at r prev (c :: s) = None ->
  replace_go (S fuel) r rep prev (c :: s)
  = c :: replace_go fuel r rep (Some c) s.
Proof. intros Hexec. cbn [replace_go]. by rewrite Hexec. Qed.

Lemma replace_go_nil fuel r rep prev :
  exec_at r prev [] = None -> replace_go fuel r rep prev [] = [].
Proof. intros Hexec. destruct fuel; cbn [replace_go]; [done|]. by rewrite Hexec. Qed.

(** A pattern that matches nowhere leaves the text as it is. *)
Lemma replace_go_no_match fuel r rep : forall prev s,
  no_match r prev s -> replace_go fuel r rep prev s = s.
Proof.
  induction fuel as [|fuel IH]; intros prev s Hno; [done|].
  destruct s as [|c s]; cbn [no_match] in Hno; destruct Hno as [Hexec Hrest].
  - by apply replace_go_nil.
  - rewrite replace_go_skip by done. f_equal. by apply IH.
Qed.

(** What holds of every code unit of the text and of the replacement
    holds of every code unit of the result. *)
Lemma replace_go_Forall (Q : N -> Prop) fuel r rep : forall prev s,
  Forall Q s -> Forall Q rep -> Forall Q (replace_go fuel r rep prev s).
Proof.
  induction fuel as [|fuel IH]; intros prev s Hs Hrep; [done|].
  cbn [replace_go].
  destruct (exec_at r prev s) as [[q' rest]|] eqn:Hexec.
  - assert (Hrest : Forall Q rest).
    { apply exec_at_suffix in Hexec as [m Hm]. rewrite Hm in Hs.
      by apply Forall_app in Hs as [_ Hrest]. }
    destruct (length rest <? length s).
    + apply Forall_app. split; [done | by apply IH].
    + destruct s as [|c s']; [done|]. inversion Hs; subst.
      apply Forall_app. split; [done|]. constructor; [done | by apply IH].
  - destruct s as [|c s]; [done|]. inversion Hs; subst.
    constructor; [done | by apply IH].
Qed.

End RegexFacts.

(* ===================================================================== *)
(** * Properties of the Library Store *)
(* ===================================================================== *)

Module StorageFacts.
Import Js Utils Types Eff Storage.

Lemma init_consistent st c st' :
  init st = (c, st') -> consistent st -> consistent st'.
Proof.
  unfold init, consistent. intros Hinit Hwf.
  destruct (fails (indexedDB st) ReqOpen); inversion Hinit; subst; simpl; eauto.
Qed.

Lemma ensure_db_ok st :
  fails (indexedDB st) ReqOpen = false ->
  consistent st ->
  exists st',
    ensure_db st = (Return tt, st')
    /\ audioLibrary (indexedDB st') = Some (stored st)
    /\ fails (indexedDB st') = fails (indexedDB st)
    /\ db st' = true.
Proof.
  intros Hopen Hwf. unfold ensure_db.
  destruct (db st) eqn:Hdb.
  - exists st. destruct (Hwf Hdb) as [items Hitems].
    unfold stored. rewrite Hitems. auto.
  - unfold init. rewrite Hopen. eexists. split; [reflexivity|]. simpl. auto.
Qed.

(** C9. Deleting is idempotent: with a browser that serves the open and
    delete requests, [deleteItem] returns normally for every key; when the
    key is absent the stored items are the same afterwards; and a second
    [deleteItem] of the same key returns normally and changes nothing. *)
Theorem deleteItem_idempotent (key : jsstring) (st : StorageService) :
  fails (indexedDB st) ReqOpen = false ->
  fails (indexedDB st) ReqDelete = false ->
  consistent st ->
  exists st1,
    deleteItem key st = (Return tt, st1)
    /\ stored st1 = delete key (stored st)
    /\ (stored st !! key = None -> stored st1 = stored st)
    /\ deleteItem key st1 = (Return tt, st1).
Proof.
  intros Hopen Hdel Hwf.
  destruct (ensure_db_ok st Hopen Hwf) as (st' & He & Hlib & Hf & Hdb).
  unfold deleteItem, mbind. rewrite He.
  assert (Hdel' : fails (indexedDB st') ReqDelete = false) by (by rewrite Hf).
  exists {| db := db st';
            indexedDB := {| fails := fails (indexedDB st');
                            audioLibrary := Some (delete key (stored st)) |} |}.
  unfold on_store. simpl. rewrite Hlib, Hdel', Hdb. simpl. rewrite Hdel'.
  repeat split.
  - intros Hnone. unfold stored at 1. simpl. by apply delete_id.
  - by rewrite delete_delete_eq.
Qed.

Lemma deleteItem_idempotent_witness :
  exists st1,
    deleteItem (lit "missing")
      {| db := false;
         indexedDB := {| fails := fun _ => false; audioLibrary := None |} |}
    = (Return tt, st1)
    /\ stored st1 = delete (lit "missing") ∅.
Proof.
  destruct (deleteItem_idempotent (lit "missing")
              {| db := false;
                 indexedDB := {| fails := fun _ => false;
                                 audioLibrary := None |} |})
    as (st1 & H1 & H2 & _).
  - reflexivity.
  - reflexivity.
  - intros H; discriminate H.
  - exists st1. split; [exact H1 | exact H2].
Defined.

End StorageFacts.

(* ===================================================================== *)
(** * Properties of the speech generator *)
(* ===================================================================== *)

Module GeneratorFacts.
Import Js Utils Types Eff AudioEngine Contract.

#[local] Arguments lit : simpl never.
#[local] Arguments cleanTextForTTS : simpl never.

(** [includes] finds exactly the strings that contain the needle. *)
Lemma is_prefix_spec (p s : jsstring) :
  is_prefix p s = true <-> exists post, s = p ++ post.
Proof.
  revert s. induction p as [|a p IH]; intros s; simpl.
  - split; eauto.
  - destruct s as [|b s].
    + split; [discriminate | intros [post H]; discriminate H].
    + rewrite andb_true_iff, N.eqb_eq, IH. split.
      * intros [-> [post ->]]. eauto.
      * intros [post H]. inversion H; subst. eauto.
Qed.

Lemma includes_spec (s needle : jsstring) :
  includes s needle = true <-> exists pre post, s = pre ++ needle ++ post.
Proof.
  induction s as [|c s IH]; simpl.
  - rewrite orb_false_r, is_prefix_spec. split.
    + intros [post H]. exists [], post. exact H.
    + intros (pre & post & H). destruct pre; simpl in H.
      * eauto.
      * discriminate H.
  - rewrite orb_true_iff, is_prefix_spec, IH. split.
    + intros [[post H] | (pre & post & H)].
      * exists [], post. exact H.
      * exists (c :: pre), post. simpl. by rewrite H.
    + intros (pre & post & H). destruct pre as [|c' pre]; simpl in H.
      * left. eauto.
      * right. inversion H; subst. eauto.
Qed.

(** The test in the [catch] clause is the quota signal of the contract. *)
Lemma quota_signal_spec (e : error) :
  quota_signal e = true <-> quota_failure e.
Proof.
  unfold quota_signal, quota_failure. rewrite orb_true_iff. split.
  - intros [H | H].
    + left. destruct (message e) as [m|]; [|discriminate].
      apply includes_spec in H as (pre & post & H). eauto 6.
    + right. destruct (status e) as [n|]; [|discriminate].
      apply Z.eqb_eq in H. by subst.
  - intros [(m & pre & post & Hm & H) | H].
    + left. rewrite Hm. apply includes_spec. eauto.
    + right. rewrite H. reflexivity.
Qed.

Lemma quota_signal_false (e : error) :
  quota_signal e = false <-> ~ quota_failure e.
Proof.
  rewrite <- quota_signal_spec. by destruct (quota_signal e).
Qed.

(** Once the response carries a non-empty payload that [atob] accepts,
    what is left of the [try] block is the reinterpretation of the bytes. *)
Lemma generateTTS_try_payload gc t mode b64 bytes :
  gc (request_for t mode) = Response (Some b64) ->
  b64 <> [] ->
  decodeBase64 b64 = Return bytes ->
  generateTTS_try gc (Some t) mode
  = (int16 <- new_Int16Array bytes ;;
     Return (map (fun v => float_div (float_of_Z v) 32768) int16)).
Proof.
  intros Hgc Hne Hdec. unfold generateTTS_try. cbn [bind].
  change (gc _) with (gc (request_for t mode)). rewrite Hgc. cbn [bind].
  destruct b64 as [|c b64]; [done|]. cbn [bind]. rewrite Hdec. reflexivity.
Qed.

Lemma to_int16_range (z : Z) : (-32768 <= to_int16 z <= 32767)%Z.
Proof.
  unfold to_int16. pose proof (Z.mod_pos_bound z 65536 eq_refl).
  destruct (Z.ltb_spec (z mod 65536) 32768); lia.
Qed.

Lemma to_int16_signed16 (u : Z) :
  (0 <= u < 65536)%Z -> to_int16 u = signed16 u.
Proof.
  intros Hu. unfold to_int16, signed16. by rewrite Z.mod_small.
Qed.

Lemma sample_of_int16 (v : Z) :
  float_div (float_of_Z v) 32768 = Fin (v # 32768).
Proof.
  unfold float_div, float_of_Z, inject_Z, Qdiv, Qinv, Qmult. simpl.
  by rewrite Z.mul_1_r.
Qed.

Lemma sample_of_int16_normalised (v : Z) :
  (-32768 <= v <= 32767)%Z -> normalised (Fin (v # 32768)).
Proof.
  intros Hv. unfold normalised, Qle. simpl. lia.
Qed.

Lemma decodeBase64_bytes b64 bytes :
  decodeBase64 b64 = Return bytes ->
  Forall (fun b => (0 <= b < 256)%Z) bytes.
Proof.
  unfold decodeBase64. destruct (atob b64) as [bin|e]; simpl; [|discriminate].
  intros H. inversion H; subst. apply Forall_map, Forall_forall.
  intros c _. unfold to_uint. apply Z.mod_pos_bound. reflexivity.
Qed.

Lemma int16_samples_s16le (bytes : list Z) :
  Forall (fun b => (0 <= b < 256)%Z) bytes ->
  map (fun v => float_div (float_of_Z v) 32768) (int16_elements bytes)
  = s16le_samples bytes.
Proof.
  revert bytes. fix IH 1. intros [|lo [|hi rest]] Hb; [done|done|].
  inversion Hb as [|? ? Hlo Hb']; subst.
  inversion Hb' as [|? ? Hhi Hrest]; subst.
  cbn [map int16_elements s16le_samples].
  rewrite sample_of_int16, to_int16_signed16 by lia.
  f_equal. by apply IH.
Qed.

Lemma int16_samples_normalised (bytes : list Z) :
  Forall normalised
    (map (fun v => float_div (float_of_Z v) 32768) (int16_elements bytes)).
Proof.
  revert bytes. fix IH 1. intros [|lo [|hi rest]]; [constructor|constructor|].
  cbn [map int16_elements]. constructor; [|apply IH].
  rewrite sample_of_int16. apply sample_of_int16_normalised, to_int16_range.
Qed.

Lemma length_int16_elements (bytes : list Z) (k : nat) :
  length bytes = 2 * k -> length (int16_elements bytes) = k.
Proof.
  revert bytes. induction k as [|k IH]; intros bytes Hlen.
  - by destruct bytes.
  - destruct bytes as [|lo [|hi rest]]; simpl in Hlen; try lia.
    simpl. f_equal. apply IH. lia.
Qed.

Lemma generateTTS_try_no_audio gc t mode :
  gc (request_for t mode) = Response None
  \/ gc (request_for t mode) = Response (Some []) ->
  generateTTS_try gc (Some t) mode
  = Throw (new_Error (lit "No audio data received")).
Proof.
  intros Hgc. unfold generateTTS_try. cbn [bind].
  change (gc _) with (gc (request_for t mode)).
  by destruct Hgc as [-> | ->].
Qed.




(** C7. A response whose payload base64-decodes to an even number of bytes
    is returned as those bytes read as 16-bit signed little-endian
    integers, each divided by 32768; every sample of the returned buffer
    lies between -1 and 32767/32768. *)
Theorem generateTTS_decodes gc t mode b64 bytes :
  gc (request_for t mode) = Response (Some b64) ->
  b64 <> [] ->
  decodeBase64 b64 = Return bytes ->
  Nat.even (length bytes) = true ->
  generateTTS gc (Some t) mode = Return (s16le_samples bytes)
  /\ Forall normalised (s16le_samples bytes).
Proof.
  intros Hgc Hne Hdec Heven.
  pose proof (decodeBase64_bytes _ _ Hdec) as Hbytes.
  unfold generateTTS. rewrite (generateTTS_try_payload _ _ _ _ _ Hgc Hne Hdec).
  unfold new_Int16Array. rewrite Heven. simpl.
  rewrite <- (int16_samples_s16le bytes Hbytes). split; [reflexivity|].
  apply int16_samples_normalised.
Qed.

Lemma generateTTS_decodes_witness :
  generateTTS (fun _ => Response (Some (lit "AAD/fwCA")))
    (Some (lit "Hi.")) STUDY
  = Return (s16le_samples [0; 0; 255; 127; 0; 128]%Z).
Proof.
  refine (proj1 (generateTTS_decodes
            (fun _ => Response (Some (lit "AAD/fwCA")))
            (lit "Hi.") STUDY (lit "AAD/fwCA") [0; 0; 255; 127; 0; 128]%Z
            _ _ _ _)).
  - reflexivity.
  - discriminate.
  - reflexivity.
  - reflexivity.
Defined.

(** C10. When the payload decodes to an odd number of bytes, building the
    16-bit view throws and [generateTTS] raises that error, which is not
    the quota error; when it decodes to 2k bytes, the returned buffer has
    exactly k samples. *)
Theorem generateTTS_payload_parity gc t mode b64 bytes :
  gc (request_for t mode) = Response (Some b64) ->
  b64 <> [] ->
  decodeBase64 b64 = Return bytes ->
  (Nat.even (length bytes) = false ->
     generateTTS gc (Some t) mode = Throw RangeError_view_length
     /\ ~ quota_failure RangeError_view_length
     /\ is_quota_error RangeError_view_length = false)
  /\ (forall k, length bytes = 2 * k ->
        exists samples,
          generateTTS gc (Some t) mode = Return samples
          /\ length samples = k).
Proof.
  intros Hgc Hne Hdec.
  unfold generateTTS. rewrite (generateTTS_try_payload _ _ _ _ _ Hgc Hne Hdec).
  unfold new_Int16Array. split.
  - intros Hodd. rewrite Hodd. simpl. repeat split.
    apply quota_signal_false. reflexivity.
  - intros k Hk.
    assert (Heven : Nat.even (length bytes) = true).
    { rewrite Hk. apply Nat.even_spec. by exists k. }
    rewrite Heven. simpl. eexists. split; [reflexivity|].
    rewrite length_map. by apply length_int16_elements.
Qed.

Lemma generateTTS_payload_parity_witness :
  generateTTS (fun _ => Response (Some (lit "AA==")))
    (Some (lit "Hi.")) STUDY
  = Throw RangeError_view_length.
Proof.
  refine (proj1 (proj1 (generateTTS_payload_parity
            (fun _ => Response (Some (lit "AA==")))
            (lit "Hi.") STUDY (lit "AA==") [0]%Z _ _ _) _)).
  - reflexivity.
  - discriminate.
  - reflexivity.
  - reflexivity.
Defined.

End GeneratorFacts.

(* ===================================================================== *)
(** * Properties of the playback controller *)
(* ===================================================================== *)

Module PlaybackFacts.
Import Js Utils Types Eff AudioEngine Contract.

Lemma silent_exclusive e : silent e -> exclusive e.
Proof. intros Hs h n Hn Ha. rewrite (Hs h n Hn) in Ha. discriminate Ha. Qed.

Lemma filter_audible_none (l : list SourceNode) :
  (forall j n, l !! j = Some n -> audible n <> true) ->
  filter (fun n => audible n = true) l = [].
Proof.
  induction l as [|a l IH]; intros Hall; [done|].
  rewrite filter_cons_False by apply (Hall 0 a eq_refl).
  apply IH. intros j n Hj. apply (Hall (S j) n Hj).
Qed.

(** With every audible node at one index, at most one node is audible. *)
Lemma filter_at_most_one (l : list SourceNode) (i : nat) :
  (forall h n, l !! h = Some n -> audible n = true -> h = i) ->
  length (filter (fun n => audible n = true) l) <= 1.
Proof.
  revert i. induction l as [|a l IH]; intros i Hall; simpl; [lia|].
  assert (Htail : i = 0 -> filter (fun n => audible n = true) l = []).
  { intros ->. apply filter_audible_none. intros j n Hj Hn.
    specialize (Hall (S j) n Hj Hn). discriminate Hall. }
  rewrite filter_cons. destruct (decide (audible a = true)) as [Ha|Ha].
  - rewrite Htail by (symmetry; by apply (Hall 0 a)). simpl. lia.
  - destruct i as [|i].
    + rewrite Htail by done. simpl. lia.
    + apply (IH i). intros h n Hn Hn'.
      specialize (Hall (S h) n Hn Hn'). lia.
Qed.

Lemma exclusive_at_most_one e : exclusive e -> audible_sources e <= 1.
Proof.
  intros Hex. unfold audible_sources.
  destruct (currentSource e) as [i|] eqn:Hcur.
  - apply (filter_at_most_one _ i). intros h n Hn Ha.
    specialize (Hex h n Hn Ha). congruence.
  - apply (filter_at_most_one _ 0). intros h n Hn Ha.
    specialize (Hex h n Hn Ha). congruence.
Qed.

Lemma alter_last (f : SourceNode -> SourceNode) (l : list SourceNode) x :
  alter f (length l) (l ++ [x]) = l ++ [f x].
Proof.
  rewrite <- (Nat.add_0_r (length l)) at 1. by rewrite alter_app_r.
Qed.

Lemma lookup_last (l : list SourceNode) x : (l ++ [x]) !! length l = Some x.
Proof. by rewrite list_lookup_middle. Qed.

(** A node list that was silent and got one more node at its end. *)
Lemma snoc_exclusive (l : list SourceNode) x e :
  (forall h n, l !! h = Some n -> audible n = false) ->
  nodes e = l ++ [x] ->
  (audible x = true -> currentSource e = Some (length l)) ->
  exclusive e.
Proof.
  intros Hl Hn Hx h n Hh Ha. rewrite Hn in Hh.
  apply lookup_app_Some in Hh as [Hh | [Hlen Hh]].
  - rewrite (Hl h n Hh) in Ha. discriminate Ha.
  - apply list_lookup_singleton_Some in Hh as [Hz ->].
    rewrite (Hx Ha). f_equal. lia.
Qed.

Lemma initContext_spec e :
  exists c pre,
    audioCtx (initContext e) = Some c /\ state c = running
    /\ nodes (initContext e) = nodes e
    /\ currentSource (initContext e) = currentSource e
    /\ trace (initContext e) = trace e ++ pre
    /\ Forall (eq EvResume) pre.
Proof.
  destruct e as [[[[] t]|] an cur gain st pt pl ns tr []]; cbn;
    eexists; first [ exists [EvResume]; repeat split; by repeat constructor
                   | exists []; rewrite app_nil_r; repeat split; by constructor ].
Qed.

Lemma stop_spec e h :
  currentSource e = Some h ->
  exclusive e ->
  silent (stop e)
  /\ currentSource (stop e) = None
  /\ trace (stop e) = trace e ++ [EvStop h]
  /\ audioCtx (stop e) = audioCtx e.
Proof.
  intros Hcur Hex. unfold exclusive in Hex.
  destruct e as [ctx an cur gain st pt pl ns tr ab]. simpl in *. subst cur.
  unfold stop, try_catch, node_stop. cbn.
  assert (Hothers : forall j m, j <> h -> ns !! j = Some m -> audible m = false).
  { intros j m Hj Hm. destruct (audible m) eqn:Ha; [|done].
    specialize (Hex j m Hm Ha). congruence. }
  destruct (ns !! h) as [n|] eqn:Hn; [destruct (started n) eqn:Hs|]; cbn;
    repeat split; intros j m Hm; cbn in Hm.
  - destruct (decide (j = h)) as [->|Hj].
    + rewrite list_lookup_alter_eq, Hn in Hm. inversion Hm; subst m.
      unfold audible. cbn. by rewrite andb_false_r.
    + rewrite list_lookup_alter_ne in Hm by done. eauto.
  - destruct (decide (j = h)) as [->|Hj]; [|eauto].
    rewrite Hn in Hm. inversion Hm; subst m. unfold audible. by rewrite Hs.
  - destruct (decide (j = h)) as [->|Hj]; [|eauto]. congruence.
Qed.

(** Running statements on an explicit engine record: call by need, so
    that the record is not copied once per field. *)
Ltac engine_steps :=
  lazy beta iota zeta delta
    [run foldl firstn skipn playBuffer_statements
     assign_buffer assign_rate connect_gain record_startTime
     start_current assign_onended on_current createBufferSource
     on_node set_currentSource emit set_nodes set_startTime
     set_isActuallyPlaying
     audioCtx analyser currentSource currentGainNode startTime pauseTime
     isActuallyPlaying nodes trace autoplay_blocked].

(** The statements of [playBuffer] after [stop], on a silent engine. *)
Lemma after_stop_exclusive b rate onEnd e k :
  silent e ->
  currentSource e = None ->
  exclusive (run (take k (drop 2 (playBuffer_statements b rate onEnd))) e).
Proof.
  intros Hsil Hcur.
  destruct e as [ctx an cur gain st pt pl ns tr ab].
  unfold silent in Hsil. cbn in Hsil, Hcur. subst cur.
  do 9 (try destruct k as [|k]); engine_steps; rewrite ?alter_last.
  1: by apply silent_exclusive.
  all: destruct ctx; engine_steps; rewrite ?alter_last;
    (eapply snoc_exclusive; [exact Hsil | reflexivity | done]).
Qed.

Lemma after_stop_playing b rate onEnd e c :
  currentSource e = None ->
  audioCtx e = Some c ->
  state c = running ->
  playing (run (drop 2 (playBuffer_statements b rate onEnd)) e)
    (length (nodes e)) b rate
  /\ trace (run (drop 2 (playBuffer_statements b rate onEnd)) e)
     = trace e ++ [EvCreate (length (nodes e)); EvStart (length (nodes e))].
Proof.
  intros Hcur Hctx Hrun.
  destruct e as [ctx an cur gain st pt pl ns tr ab].
  cbn in Hcur, Hctx. subst cur ctx. engine_steps.
  rewrite !alter_last. cbn.
  split; [|by rewrite <- app_assoc].
  unfold playing. cbn. repeat split.
  - exists c. by split.
  - rewrite lookup_last. eexists. split; [reflexivity|]. by cbn.
Qed.

Lemma playBuffer_unfold b rate onEnd e :
  playBuffer b rate onEnd e
  = run (drop 2 (playBuffer_statements b rate onEnd)) (stop (initContext e)).
Proof.
  unfold playBuffer, run, playBuffer_statements. cbn [foldl skipn].
  reflexivity.
Qed.

Lemma playBuffer_prefix_unfold b rate onEnd e k :
  run (take (S (S k)) (playBuffer_statements b rate onEnd)) e
  = run (take k (drop 2 (playBuffer_statements b rate onEnd)))
      (stop (initContext e)).
Proof.
  unfold run, playBuffer_statements. cbn [foldl firstn skipn].
  reflexivity.
Qed.

(** ** Every method keeps the ownership invariant *)

Lemma fresh_exclusive e : nodes e = [] -> exclusive e.
Proof. intros He h n Hn. rewrite He in Hn. by destruct h. Qed.

Lemma stop_silent e : exclusive e -> silent (stop e).
Proof.
  intros Hex. destruct (currentSource e) as [h|] eqn:Hcur.
  - by destruct (stop_spec e h Hcur Hex) as [Hsil _].
  - unfold stop. rewrite Hcur. intros h n Hn.
    destruct (audible n) eqn:Ha; [|done].
    specialize (Hex h n Hn Ha). congruence.
Qed.

Lemma stop_current e : currentSource (stop e) = None.
Proof.
  unfold stop. destruct (currentSource e) as [h|] eqn:Hcur; [done|].
  by rewrite <- Hcur.
Qed.

Lemma context_change_exclusive (f : AudioContext -> AudioContext) ev e :
  exclusive e -> exclusive (emit ev (set_audioCtx (f <$> audioCtx e) e)).
Proof. intros Hex h n Hn Ha. by apply (Hex h n). Qed.

Lemma pause_exclusive e : exclusive e -> exclusive (pause e).
Proof.
  intros Hex. unfold pause. destruct (audioCtx e); [|done].
  by apply context_change_exclusive.
Qed.

Lemma resume_exclusive e : exclusive e -> exclusive (resume e).
Proof.
  intros Hex. unfold resume. destruct (audioCtx e); [|done].
  by apply context_change_exclusive.
Qed.

Lemma setPlaybackRate_exclusive rate e :
  exclusive e -> exclusive (setPlaybackRate rate e).
Proof.
  intros Hex. unfold setPlaybackRate, assign_rate, on_current.
  destruct (currentSource e) as [h|] eqn:Hcur; [|done].
  intros j m Hm Ha. cbn in Hm |- *.
  destruct (decide (h = j)) as [->|Hne]; [done|].
  rewrite list_lookup_alter_ne in Hm by done. by apply (Hex j m).
Qed.

Lemma playBuffer_keeps_exclusive b rate onEnd e :
  exclusive e -> exclusive (playBuffer b rate onEnd e).
Proof.
  intros Hex. rewrite playBuffer_unfold.
  destruct (initContext_spec e) as (c & pre & _ & _ & Hns & Hcs & _).
  assert (Hex1 : exclusive (initContext e)).
  { intros j m Hm Ha. rewrite Hns in Hm. rewrite Hcs. eauto. }
  apply (after_stop_exclusive b rate onEnd _ 8).
  - by apply stop_silent.
  - apply stop_current.
Qed.



End PlaybackFacts.

(* ===================================================================== *)
(** * Buffers filled front to back *)
(* ===================================================================== *)

Module BufferFacts.
Import Js.

(** Storing [bs] right after the part [done] already written, over a
    buffer whose remainder still holds its initial value [z]. *)
Lemma list_inserts_cursor {A} (done bs : list A) (z : A) (k : nat) :
  length bs <= k ->
  list_inserts (length done) bs (done ++ replicate k z)
  = (done ++ bs) ++ replicate (k - length bs) z.
Proof.
  intros Hk.
  replace k with (length bs + (k - length bs)) at 1 by lia.
  rewrite replicate_add.
  pose proof (list_inserts_app_r bs done
                (replicate (length bs) z ++ replicate (k - length bs) z) 0)
    as Happ.
  rewrite Nat.add_0_r in Happ. rewrite Happ.
  by rewrite list_inserts_0_r, app_assoc by (by rewrite length_replicate).
Qed.

Lemma typed_array_set_cursor {A} (done src : list A) (z : A) (k : nat) :
  length src <= k ->
  typed_array_set (done ++ replicate k z) src (length done)
  = Return ((done ++ src) ++ replicate (k - length src) z).
Proof.
  intros Hk. unfold typed_array_set.
  rewrite length_app, length_replicate.
  destruct (Nat.leb_spec (length done + length src) (length done + k)); [|lia].
  by rewrite list_inserts_cursor.
Qed.

End BufferFacts.

(* ===================================================================== *)
(** * Properties of a generation run *)
(* ===================================================================== *)

Module AppFacts.
Import Js Utils Types Eff Contract App BufferFacts.

#[local] Arguments lit : simpl never.
#[local] Arguments AudioEngine.generateTTS : simpl never.
#[local] Arguments AudioEngine.playBuffer : simpl never.
#[local] Arguments AudioEngine.initContext : simpl never.
#[local] Arguments splitIntoSentences : simpl never.
#[local] Arguments percent : simpl never.

Section Run.

Variable generateContent :
  nat -> AudioEngine.GenerateContentParameters -> AudioEngine.GenerateContentResult.
Variable window_lamejs : option lamejs.
Variable randomUUID : jsstring.
Variable now : Z.

(** ** Merging *)

Lemma merge_chunks_concat (chunks : list (list float)) :
  forall done : list float,
    merge_chunks
      (done ++ replicate (sum_list (length <$> chunks)) (Fin 0))
      (length done) chunks
    = Return (done ++ concat chunks).
Proof.
  induction chunks as [|chunk rest IH]; intros done.
  - cbn. by rewrite !app_nil_r.
  - cbn [merge_chunks fmap list_fmap sum_list sum_list_with].
    unfold Datatypes.id.
    rewrite typed_array_set_cursor by lia. cbn [bind].
    replace (length chunk + sum_list (length <$> rest) - length chunk)
      with (sum_list (length <$> rest)) by lia.
    rewrite <- length_app, IH. cbn [concat]. by rewrite <- app_assoc.
Qed.

(** ** The loop over the remaining sentences *)

Lemma fetch_remaining_untouched k : forall i sentences m chunks total w c w',
  fetch_remaining generateContent k i sentences m chunks total w = (c, w') ->
  storage w' = storage w /\ library (app w') = library (app w).
Proof.
  induction k as [|k IH]; intros i sentences m chunks total w c w' Hrun.
  - inversion Hrun; subst. done.
  - simpl in Hrun. unfold mbind, call_generateTTS in Hrun.
    destruct (AudioEngine.generateTTS _ _ _) as [chunk|e].
    + simpl in Hrun. apply IH in Hrun. simpl in Hrun. exact Hrun.
    + inversion Hrun; subst. done.
Qed.

Lemma fetch_remaining_returns k : forall i sentences m chunks total w r w',
  fetch_remaining generateContent k i sentences m chunks total w
  = (Return r, w') ->
  forall j, j < k ->
    exists b, AudioEngine.generateTTS (generateContent (calls w + j))
                (sentences !! (i + j)) m = Return b.
Proof.
  induction k as [|k IH]; intros i sentences m chunks total w r w' Hrun j Hj;
    [lia|].
  simpl in Hrun. unfold mbind, call_generateTTS in Hrun.
  destruct (AudioEngine.generateTTS _ _ _) as [chunk|e] eqn:Hcall;
    [|discriminate Hrun].
  simpl in Hrun. destruct j as [|j].
  - rewrite !Nat.add_0_r. eauto.
  - destruct (IH _ _ _ _ _ _ _ _ Hrun j ltac:(lia)) as [b Hb].
    simpl in Hb. exists b.
    replace (calls w + S j) with (S (calls w + j)) by lia.
    replace (i + S j) with (S i + j) by lia. exact Hb.
Qed.

Lemma fetch_remaining_ok (bs : list (list float)) :
  forall i sentences m chunks total w,
    (forall j b, bs !! j = Some b ->
       AudioEngine.generateTTS (generateContent (calls w + j))
         (sentences !! (i + j)) m = Return b) ->
    exists w',
      fetch_remaining generateContent (length bs) i sentences m chunks total w
      = (Return (chunks ++ bs, total + sum_list (length <$> bs)), w').
Proof.
  induction bs as [|b bs IH]; intros i sentences m chunks total w Hcalls.
  - simpl. rewrite app_nil_r, Nat.add_0_r. by eexists.
  - simpl. unfold mbind, call_generateTTS.
    pose proof (Hcalls 0 b eq_refl) as H0. rewrite !Nat.add_0_r in H0.
    rewrite H0. simpl.
    edestruct (IH (S i) sentences m (chunks ++ [b]) (total + length b)) as [w' Hw'];
      [|rewrite Hw'; eexists; by rewrite <- app_assoc, Nat.add_assoc].
    intros j b' Hj. simpl.
    specialize (Hcalls (S j) b' Hj).
    replace (calls w + S j) with (S (calls w + j)) in Hcalls by lia.
    replace (i + S j) with (S i + j) in Hcalls by lia. exact Hcalls.
Qed.

(** ** From the sentences to the merged buffer *)

Lemma mbind_step {St A B} (m : M St A) (k : A -> M St B) st a st' :
  m st = (Return a, st') -> mbind m k st = k a st'.
Proof. intros H. unfold mbind. by rewrite H. Qed.

Ltac run_generate H :=
  unfold generate_finalPCM, mbind, call_generateTTS, on_engine, modify, lift,
    ret, AudioEngine.decodeToBuffer in H;
  cbn [fst snd app audioEngine storage calls on_app] in H.

Lemma generate_finalPCM_untouched a0 w c w' :
  generate_finalPCM generateContent a0 w = (c, w') ->
  storage w' = storage w /\ library (app w') = library (app w).
Proof.
  intros Hrun. run_generate Hrun.
  destruct (AudioEngine.generateTTS _ _ _) as [first|e];
    [|by inversion Hrun; subst].
  destruct (length first =? 0); [by inversion Hrun; subst|].
  destruct (1 <? length (splitIntoSentences (text a0))).
  - destruct (fetch_remaining _ _ _ _ _ _ _ _) as [[r|e] w2] eqn:Hloop;
      apply fetch_remaining_untouched in Hloop; cbn in Hloop;
      inversion Hrun; subst; exact Hloop.
  - inversion Hrun; subst. done.
Qed.

Lemma generate_finalPCM_returns a0 w pcm w' :
  generate_finalPCM generateContent a0 w = (Return pcm, w') ->
  forall i, i < length (splitIntoSentences (text a0)) ->
    exists b, AudioEngine.generateTTS (generateContent (calls w + i))
                (splitIntoSentences (text a0) !! i) (mode a0) = Return b.
Proof.
  intros Hrun i Hi. run_generate Hrun.
  destruct (AudioEngine.generateTTS _ _ _) as [first|e] eqn:Hfirst;
    [|discriminate Hrun].
  destruct (length first =? 0); [discriminate Hrun|].
  destruct i as [|i]; [rewrite Nat.add_0_r; eauto|].
  destruct (Nat.ltb_spec 1 (length (splitIntoSentences (text a0)))); [|lia].
  destruct (fetch_remaining _ _ _ _ _ _ _ _) as [[r|e] w2] eqn:Hloop;
    [|discriminate Hrun].
  destruct (fetch_remaining_returns _ _ _ _ _ _ _ _ _ Hloop i ltac:(lia))
    as [b Hb].
  cbn in Hb. exists b.
  replace (calls w + S i) with (S (calls w + i)) by lia. exact Hb.
Qed.

Lemma generate_finalPCM_ok a0 w (first : list float) (bs : list (list float)) :
  length (first :: bs) = length (splitIntoSentences (text a0)) ->
  (forall i b, (first :: bs) !! i = Some b ->
     AudioEngine.generateTTS (generateContent (calls w + i))
       (splitIntoSentences (text a0) !! i) (mode a0) = Return b) ->
  first <> [] ->
  exists w',
    generate_finalPCM generateContent a0 w = (Return (concat (first :: bs)), w').
Proof.
  intros Hlen Hcalls Hne.
  pose proof (Hcalls 0 first eq_refl) as H0. rewrite Nat.add_0_r in H0.
  assert (Hmerge : forall (chunks : list (list float)) n,
    n = sum_list (length <$> chunks) ->
    merge_chunks (replicate n (Fin 0)) 0 chunks = Return (concat chunks)).
  { intros chunks n ->. apply (merge_chunks_concat chunks []). }
  unfold generate_finalPCM.
  erewrite mbind_step; [|unfold call_generateTTS; rewrite H0; reflexivity].
  erewrite mbind_step;
    [|unfold on_engine, AudioEngine.decodeToBuffer;
      destruct first; [done | reflexivity]].
  erewrite mbind_step; [|reflexivity].
  erewrite mbind_step; [|reflexivity].
  erewrite mbind_step; [|reflexivity].
  rewrite <- Hlen. cbn [length].
  destruct bs as [|b bs].
  - erewrite mbind_step; [|reflexivity].
    unfold lift. cbn [fst snd].
    rewrite Hmerge by (cbn; lia). by eexists.
  - replace (1 <? S (length (b :: bs))) with true
      by (symmetry; apply Nat.ltb_lt; cbn [length]; lia).
    replace (S (length (b :: bs)) - 1) with (length (b :: bs))
      by (cbn [length]; lia).
    match goal with
    | |- context [mbind (fetch_remaining _ _ _ _ _ _ _) _ ?w5] =>
        destruct (fetch_remaining_ok (b :: bs) 1
                    (splitIntoSentences (text a0)) (mode a0) [first]
                    (length first) w5) as [w6 Hw6]
    end.
    + intros j b' Hj. specialize (Hcalls (S j) b' Hj). cbn [calls].
      replace (calls w + S j) with (S (calls w + j)) in Hcalls by lia.
      exact Hcalls.
    + erewrite mbind_step; [|exact Hw6].
      unfold lift. cbn [fst snd].
      rewrite Hmerge by (cbn; lia). by eexists.
Qed.

Lemma generate_finalPCM_first a0 w pcm w' first :
  generate_finalPCM generateContent a0 w = (Return pcm, w') ->
  AudioEngine.generateTTS (generateContent (calls w))
    (splitIntoSentences (text a0) !! 0) (mode a0) = Return first ->
  first <> [].
Proof.
  intros Hrun Hfirst. run_generate Hrun. rewrite Hfirst in Hrun.
  destruct first; [discriminate Hrun | done].
Qed.

(** What a run returns is the concatenation of what the calls returned. *)
Lemma generate_finalPCM_result a0 w pcm w' (bs : list (list float)) :
  generate_finalPCM generateContent a0 w = (Return pcm, w') ->
  length bs = length (splitIntoSentences (text a0)) ->
  (forall i b, bs !! i = Some b ->
     AudioEngine.generateTTS (generateContent (calls w + i))
       (splitIntoSentences (text a0) !! i) (mode a0) = Return b) ->
  bs <> [] ->
  pcm = concat bs.
Proof.
  intros Hrun Hlen Hcalls Hne. destruct bs as [|first bs]; [done|].
  pose proof (Hcalls 0 first eq_refl) as H0. rewrite Nat.add_0_r in H0.
  pose proof (generate_finalPCM_first _ _ _ _ _ Hrun H0) as Hfirst.
  destruct (generate_finalPCM_ok a0 w first bs Hlen Hcalls Hfirst) as [w2 Hok].
  congruence.
Qed.

(** ** The whole handler *)

Lemma report_untouched err w :
  storage (snd (report err w)) = storage w
  /\ library (app (snd (report err w))) = library (app w).
Proof. unfold report. by destruct (match message err with Some _ => _ | None => _ end). Qed.

(** C6. In a run over the sentences of the script in which every
    per-sentence call returns its buffer (the first one non-empty, as the
    playback of the first sentence requires), the final sample buffer is
    the concatenation of the per-sentence buffers in sentence order: its
    length is the sum of their lengths, and the samples of sentence [i]
    sit in one block right after those of the sentences before it. *)
Theorem finalPCM_is_concatenation a0 w (bs : list (list float)) :
  length bs = length (splitIntoSentences (text a0)) ->
  (forall i b, bs !! i = Some b ->
     AudioEngine.generateTTS (generateContent (calls w + i))
       (splitIntoSentences (text a0) !! i) (mode a0) = Return b) ->
  (forall b, bs !! 0 = Some b -> b <> []) ->
  bs <> [] ->
  (exists w', generate_finalPCM generateContent a0 w = (Return (concat bs), w'))
  /\ length (concat bs) = sum_list (length <$> bs)
  /\ (forall i b, bs !! i = Some b ->
        take (length b) (drop (sum_list (length <$> take i bs)) (concat bs)) = b).
Proof.
  intros Hlen Hcalls Hfirst Hne. split; [|split].
  - destruct bs as [|first bs]; [done|].
    apply generate_finalPCM_ok; auto.
  - clear. induction bs as [|b bs IH]; simpl; [done|].
    by rewrite length_app, IH.
  - intros i b Hb.
    rewrite <- (take_drop_middle bs i b Hb) at 2.
    rewrite concat_app. simpl.
    assert (Hpre : length (concat (take i bs)) = sum_list (length <$> take i bs)).
    { clear. generalize (take i bs) as l. induction l as [|c l IH]; simpl; [done|].
      by rewrite length_app, IH. }
    rewrite <- Hpre, drop_app_length, take_app_length. reflexivity.
Qed.

(** C8. When some per-sentence call fails, or every call returns and the
    encoder then fails, [handleGenerate] saves nothing: the Library Store
    and the displayed library are as they were. *)
Theorem no_partial_save w :
  (exists i e,
     i < length (splitIntoSentences (text (app w)))
     /\ AudioEngine.generateTTS (generateContent (calls w + i))
          (splitIntoSentences (text (app w)) !! i) (mode (app w)) = Throw e)
  \/ (exists bs e,
        length bs = length (splitIntoSentences (text (app w)))
        /\ bs <> []
        /\ (forall i b, bs !! i = Some b ->
              AudioEngine.generateTTS (generateContent (calls w + i))
                (splitIntoSentences (text (app w)) !! i) (mode (app w))
              = Return b)
        /\ pcmToMp3 window_lamejs (concat bs) 24000 = Throw e) ->
  storage (handleGenerate generateContent window_lamejs randomUUID now w)
  = storage w
  /\ library (app (handleGenerate generateContent window_lamejs randomUUID now w))
     = library (app w).
Proof.
  intros Hfail. unfold handleGenerate.
  destruct (length (trim (text (app w))) =? 0); [done|].
  unfold finally, try_catch, mbind.
  set (w1 := on_app (setProgress 5) _).
  destruct (generate_finalPCM generateContent (app w) w1) as [[pcm|err] w2] eqn:Hrun.
  - pose proof (generate_finalPCM_untouched _ _ _ _ Hrun) as [Hst Hlib].
    assert (Henc : exists e, pcmToMp3 window_lamejs pcm 24000 = Throw e).
    { destruct Hfail as [(i & e & Hi & Hcall) | (bs & e & Hlen & Hne & Hcalls & Henc)].
      - destruct (generate_finalPCM_returns _ _ _ _ Hrun i Hi) as [b Hb].
        cbn in Hb. congruence.
      - exists e.
        by rewrite (generate_finalPCM_result _ _ _ _ bs Hrun Hlen Hcalls Hne). }
    destruct Henc as [e Henc].
    unfold encode_and_save, mbind, lift. rewrite Henc.
    destruct (report_untouched e w2) as [Hst' Hlib'].
    destruct (report e w2) as [c3 w3]. cbn in *. split; congruence.
  - pose proof (generate_finalPCM_untouched _ _ _ _ Hrun) as [Hst Hlib].
    destruct (report_untouched err w2) as [Hst' Hlib'].
    destruct (report err w2) as [c3 w3]. cbn in *. split; congruence.
Qed.

(** The other side of C8: a run in which every call and the encoder
    return, against a browser that serves the open and put requests, does
    save the item, under the fresh identifier. *)
Lemma handleGenerate_saves w (bs : list (list float)) (mp3Blob : Blob) :
  ~ blank (text (app w)) ->
  length bs = length (splitIntoSentences (text (app w))) ->
  (forall i b, bs !! i = Some b ->
     AudioEngine.generateTTS (generateContent (calls w + i))
       (splitIntoSentences (text (app w)) !! i) (mode (app w)) = Return b) ->
  (forall b, bs !! 0 = Some b -> b <> []) ->
  bs <> [] ->
  pcmToMp3 window_lamejs (concat bs) 24000 = Return mp3Blob ->
  Storage.fails (Storage.indexedDB (storage w)) Storage.ReqOpen = false ->
  Storage.fails (Storage.indexedDB (storage w)) Storage.ReqPut = false ->
  Storage.consistent (storage w) ->
  exists item,
    id item = randomUUID
    /\ blob item = mp3Blob
    /\ Storage.stored
         (storage (handleGenerate generateContent window_lamejs randomUUID now w))
       = <[randomUUID := item]> (Storage.stored (storage w)).
Proof.
  intros Hvisible Hlen Hcalls Hfirst Hne Henc Hopen Hput Hwf.
  unfold handleGenerate.
  destruct (Nat.eqb_spec (length (trim (text (app w)))) 0) as [Hz|_].
  { exfalso. apply Hvisible. unfold blank. by destruct (trim (text (app w))). }
  set (w1 := on_app (setProgress 5) _).
  destruct bs as [|first bs]; [done|].
  destruct (generate_finalPCM_ok (app w) w1 first bs Hlen Hcalls
              (Hfirst first eq_refl)) as [w2 Hrun].
  pose proof (generate_finalPCM_untouched _ _ _ _ Hrun) as [Hst _].
  change (storage w1) with (storage w) in Hst.
  unfold finally, try_catch.
  erewrite mbind_step; [|exact Hrun].
  unfold encode_and_save.
  erewrite mbind_step; [|unfold lift; by rewrite Henc].
  set (item := {| id := randomUUID |}).
  rewrite <- Hst in Hopen, Hput, Hwf.
  destruct (StorageFacts.ensure_db_ok (storage w2) Hopen Hwf)
    as (st' & He & Hlib & Hf & Hdb).
  assert (Hsave : Storage.saveItem item (storage w2)
                  = (Return tt,
                     {| Storage.db := Storage.db st';
                        Storage.indexedDB :=
                          {| Storage.fails := Storage.fails (Storage.indexedDB st');
                             Storage.audioLibrary :=
                               Some (<[id item := item]> (Storage.stored (storage w2))) |} |})).
  { unfold Storage.saveItem. erewrite mbind_step; [|exact He].
    unfold Storage.on_store. rewrite Hlib, Hf, Hput. reflexivity. }
  erewrite mbind_step; [|unfold on_storage; rewrite Hsave; reflexivity].
  exists item. rewrite <- Hst. by cbn.
Qed.

End Run.

Lemma finalPCM_is_concatenation_witness :
  exists w',
    generate_finalPCM Samples.remote_ok (app Samples.world0) Samples.world0
    = (Return (concat [Samples.three_samples; Samples.three_samples]), w').
Proof.
  refine (proj1 (finalPCM_is_concatenation Samples.remote_ok
                   (app Samples.world0) Samples.world0
                   [Samples.three_samples; Samples.three_samples] _ _ _ _)).
  - reflexivity.
  - intros [|[|i]] b Hb; try discriminate Hb;
      injection Hb as <-; reflexivity.
  - intros b Hb. injection Hb as <-. discriminate.
  - discriminate.
Defined.

Lemma no_partial_save_witness :
  storage (handleGenerate Samples.remote_quota None (lit "id") 0 Samples.world0)
  = storage Samples.world0.
Proof.
  refine (proj1 (no_partial_save Samples.remote_quota None (lit "id") 0%Z
                   Samples.world0 _)).
  left. exists 0, (new_Error AudioEngine.QUOTA_FULL).
  split; [apply Nat.ltb_lt | ]; reflexivity.
Defined.

End AppFacts.

(* ===================================================================== *)
(** * Properties of the WAV encoder *)
(* ===================================================================== *)

Module EncoderFacts.
Import Js Utils Types Eff Contract BufferFacts.

#[local] Open Scope Z_scope.

(** ** Little-endian bytes *)

Lemma le_bytes_mod (n : nat) : forall z : Z,
  le_bytes n (z mod 256 ^ Z.of_nat n) = le_bytes n z.
Proof.
  induction n as [|n IH]; intros z; [reflexivity|].
  cbn [le_bytes].
  replace (256 ^ Z.of_nat (S n)) with (256 * 256 ^ Z.of_nat n)
    by (rewrite Nat2Z.inj_succ, Z.pow_succ_r; lia).
  assert (Hpos : 0 < 256 ^ Z.of_nat n) by (apply Z.pow_pos_nonneg; lia).
  rewrite Z.rem_mul_r by lia.
  f_equal.
  - rewrite Z.mul_comm, Z_mod_plus_full. apply Z.mod_mod. lia.
  - rewrite <- (IH (z / 256)). f_equal.
    rewrite Z.mul_comm, Z_div_plus_full by lia.
    rewrite (Z.div_small (z mod 256) 256) by (apply Z.mod_pos_bound; lia).
    lia.
Qed.

Lemma le_bytes_congr (n : nat) (a b : Z) :
  a mod 256 ^ Z.of_nat n = b mod 256 ^ Z.of_nat n ->
  le_bytes n a = le_bytes n b.
Proof. intros H. by rewrite <- (le_bytes_mod n a), H, le_bytes_mod. Qed.

Lemma le_bytes_u32le (v : Z) : le_bytes 4 (to_uint 32 v) = u32le v.
Proof.
  unfold to_uint. change (2 ^ 32) with (256 ^ Z.of_nat 4).
  rewrite le_bytes_mod. unfold u32le. cbn [le_bytes].
  rewrite !Z.div_div by lia. reflexivity.
Qed.

Lemma le_bytes_u16le (v : Z) : le_bytes 2 (to_uint 16 v) = u16le v.
Proof.
  unfold to_uint. change (2 ^ 16) with (256 ^ Z.of_nat 2).
  by rewrite le_bytes_mod.
Qed.

Lemma le_bytes_u8 (v : Z) : 0 <= v < 256 -> le_bytes 1 (to_uint 8 v) = [v].
Proof.
  intros Hv. unfold to_uint. cbn [le_bytes].
  by rewrite Z.mod_mod, Z.mod_small by lia.
Qed.

Lemma le_bytes_s16le (v : Z) : le_bytes 2 (to_int16 v) = s16le v.
Proof.
  unfold s16le. change (u16le ?x) with (le_bytes 2 x).
  apply le_bytes_congr. change (256 ^ Z.of_nat 2) with 65536.
  unfold to_int16.
  destruct (Z.ltb_spec (v mod 65536) 32768), (Z.ltb_spec v 0).
  - rewrite Z.mod_mod by lia.
    by rewrite <- (Z_mod_plus_full v 1 65536), Z.mul_1_l.
  - by rewrite Z.mod_mod by lia.
  - rewrite <- (Z_mod_plus_full (v mod 65536 - 65536) 1 65536).
    replace (v mod 65536 - 65536 + 1 * 65536) with (v mod 65536) by lia.
    rewrite Z.mod_mod by lia.
    by rewrite <- (Z_mod_plus_full v 1 65536), Z.mul_1_l.
  - rewrite <- (Z_mod_plus_full (v mod 65536 - 65536) 1 65536).
    replace (v mod 65536 - 65536 + 1 * 65536) with (v mod 65536) by lia.
    by rewrite Z.mod_mod by lia.
Qed.

(** The fields hold their values: reading a field back gives the number
    written, when it fits. *)
Lemma le_value_u32le (v : Z) : 0 <= v < 2 ^ 32 -> le_value (u32le v) = v.
Proof.
  intros Hv. unfold le_value, u32le. cbn [foldr].
  pose proof (Z.div_mod v 256 ltac:(lia)).
  pose proof (Z.div_mod (v / 256) 256 ltac:(lia)).
  pose proof (Z.div_mod (v / 256 / 256) 256 ltac:(lia)).
  assert (v / 256 / 256 / 256 < 256).
  { rewrite !Z.div_div by lia. apply Z.div_lt_upper_bound; lia. }
  assert (0 <= v / 256 / 256 / 256).
  { rewrite !Z.div_div by lia. apply Z.div_pos; lia. }
  replace (v / 65536) with (v / 256 / 256)
    by (rewrite Z.div_div by lia; reflexivity).
  replace (v / 16777216) with (v / 256 / 256 / 256)
    by (rewrite !Z.div_div by lia; reflexivity).
  rewrite (Z.mod_small (v / 256 / 256 / 256)) by lia. lia.
Qed.

Lemma le_value_s16le (v : Z) :
  -32768 <= v <= 32767 -> signed16 (le_value (s16le v)) = v.
Proof.
  intros Hv. unfold s16le, le_value, u16le, signed16. cbn [foldr].
  destruct (Z.ltb_spec v 0).
  - pose proof (Z.div_mod (v + 65536) 256 ltac:(lia)).
    assert (0 <= (v + 65536) / 256 < 256).
    { split; [apply Z.div_pos; lia | apply Z.div_lt_upper_bound; lia]. }
    rewrite (Z.mod_small ((v + 65536) / 256)) by lia.
    destruct (Z.ltb_spec ((v + 65536) mod 256 + 256 * ((v + 65536) / 256 + 256 * 0)) 32768); lia.
  - pose proof (Z.div_mod v 256 ltac:(lia)).
    assert (0 <= v / 256 < 256).
    { split; [apply Z.div_pos; lia | apply Z.div_lt_upper_bound; lia]. }
    rewrite (Z.mod_small (v / 256)) by lia.
    destruct (Z.ltb_spec (v mod 256 + 256 * (v / 256 + 256 * 0)) 32768); lia.
Qed.

(** ** Stores at a cursor

    [pcmToWav] fills its buffer front to back: every store starts where
    the previous one ended. *)

Lemma view_store_cursor (done bs : list Z) (k off : nat) :
  off = length done ->
  (length bs <= k)%nat ->
  view_store (done ++ replicate k 0) off bs
  = Return ((done ++ bs) ++ replicate (k - length bs) 0).
Proof.
  intros -> Hk. unfold view_store.
  rewrite length_app, length_replicate.
  destruct (Nat.leb_spec (length done + length bs) (length done + k)); [|lia].
  by rewrite list_inserts_cursor.
Qed.

Lemma setUint32_cursor (done : list Z) (k off : nat) (v : Z) :
  off = length done ->
  (4 <= k)%nat ->
  setUint32_le (done ++ replicate k 0) off v
  = Return ((done ++ u32le v) ++ replicate (k - 4) 0).
Proof.
  intros Hoff Hk. unfold setUint32_le.
  rewrite le_bytes_u32le. by apply view_store_cursor.
Qed.

Lemma setUint16_cursor (done : list Z) (k off : nat) (v : Z) :
  off = length done ->
  (2 <= k)%nat ->
  setUint16_le (done ++ replicate k 0) off v
  = Return ((done ++ u16le v) ++ replicate (k - 2) 0).
Proof.
  intros Hoff Hk. unfold setUint16_le.
  rewrite le_bytes_u16le. by apply view_store_cursor.
Qed.

Lemma writeString_from_cursor (chars : jsstring) :
  forall (done : list Z) (k i offset : nat),
    (offset + i)%nat = length done ->
    (length chars <= k)%nat ->
    Forall (fun c => (c < 256)%N) chars ->
    writeString_from i (done ++ replicate k 0) offset chars
    = Return ((done ++ map Z.of_N chars) ++ replicate (k - length chars) 0).
Proof.
  induction chars as [|c chars IH]; intros done k i offset Hoff Hk Hchars.
  - cbn. by rewrite app_nil_r, Nat.sub_0_r.
  - inversion Hchars as [|? ? Hc Hrest]; subst.
    cbn [writeString_from length] in *. unfold setUint8.
    rewrite le_bytes_u8 by lia.
    rewrite view_store_cursor by (cbn [length]; lia).
    cbn [bind length]. rewrite IH; [|rewrite length_app; cbn; lia|lia|done].
    cbn [map]. rewrite <- !app_assoc. cbn [app].
    by replace (k - 1 - length chars)%nat with (k - S (length chars))%nat by lia.
Qed.

Lemma writeString_cursor (str : string) (done : list Z) (k offset : nat) :
  offset = length done ->
  (length (lit str) <= k)%nat ->
  Forall (fun c => (c < 256)%N) (lit str) ->
  writeString (done ++ replicate k 0) offset (lit str)
  = Return ((done ++ ascii_bytes str) ++ replicate (k - length (lit str)) 0).
Proof.
  intros Hoff Hk Hchars. unfold writeString, ascii_bytes.
  apply writeString_from_cursor; [lia | done | done].
Qed.

(** ** The float-to-integer step *)

Lemma quot_one (d : positive) (c : Z) :
  Z.quot (Z.pos d * c) (Z.pos (d * 1)) = c.
Proof.
  rewrite Pos.mul_1_r, Z.mul_comm. apply Z.quot_mul. lia.
Qed.

(** The code's conversion of a finite sample is the contract's. *)
Lemma truncate_scale_clamp (q : Q) :
  truncate (scale_sample (clamp_sample (Fin q))) = quantise q.
Proof.
  destruct q as [n d].
  unfold clamp_sample, Math_min, Math_max, quantise, clamp.
  destruct (Qle_bool 1 (n # d)) eqn:Hhi.
  - apply Qle_bool_iff in Hhi.
    destruct (Qlt_le_dec (n # d) (-1)) as [Hlo|Hlo].
    { unfold Qle, Qlt in *. cbn in *. lia. }
    destruct (Qlt_le_dec 1 (n # d)) as [Hgt|Hle]; [reflexivity|].
    assert (Hn : n = Z.pos d) by (unfold Qle in *; cbn in *; lia).
    subst n.
    destruct (Qlt_le_dec (Z.pos d # d) 0) as [Hneg|Hpos].
    { unfold Qlt in Hneg. cbn in Hneg. lia. }
    cbn. symmetry. apply quot_one.
  - assert (Hlt : ~ (1 <= n # d)%Q).
    { intros H. apply Qle_bool_iff in H. congruence. }
    destruct (Qlt_le_dec 1 (n # d)) as [Hgt|_].
    { exfalso. apply Hlt. unfold Qle, Qlt in *. cbn in *. lia. }
    destruct (Qle_bool (-1) (n # d)) eqn:Hlo.
    + apply Qle_bool_iff in Hlo.
      destruct (Qlt_le_dec (n # d) (-1)) as [Hlo'|_].
      { unfold Qle, Qlt in *. cbn in *. lia. }
      unfold scale_sample, float_lt.
      destruct (Qle_bool 0 (n # d)) eqn:Hsign.
      * apply Qle_bool_iff in Hsign.
        destruct (Qlt_le_dec (n # d) 0) as [Hneg|_]; [|reflexivity].
        unfold Qle, Qlt in *. cbn in *. lia.
      * destruct (Qlt_le_dec (n # d) 0) as [_|Hpos]; [reflexivity|].
        apply Qle_bool_iff in Hpos. congruence.
    + destruct (Qlt_le_dec (n # d) (-1)) as [_|Hlo']; [reflexivity|].
      apply Qle_bool_iff in Hlo'. congruence.
Qed.

Lemma quantise_range (q : Q) : -32768 <= quantise q <= 32767.
Proof.
  destruct q as [n d]. unfold quantise, clamp.
  destruct (Qlt_le_dec (n # d) (-1)) as [Hlo|Hlo];
    [vm_compute; split; discriminate|].
  destruct (Qlt_le_dec 1 (n # d)) as [Hhi|Hhi];
    [vm_compute; split; discriminate|].
  unfold Qle in Hlo, Hhi. cbn in Hlo, Hhi.
  destruct (Qlt_le_dec (n # d) 0) as [Hneg|Hpos].
  - unfold Qlt in Hneg. cbn in Hneg. cbn. rewrite Pos.mul_1_r. split.
    + transitivity (Z.quot (-32768 * Z.pos d) (Z.pos d));
        [rewrite Z.quot_mul; lia | apply Z.quot_le_mono; lia].
    + transitivity (Z.quot 0 (Z.pos d)); [apply Z.quot_le_mono; lia|].
      rewrite Z.quot_0_l; lia.
  - unfold Qle in Hpos. cbn in Hpos. cbn. rewrite Pos.mul_1_r. split.
    + transitivity (Z.quot 0 (Z.pos d)); [rewrite Z.quot_0_l; lia|].
      apply Z.quot_le_mono; lia.
    + transitivity (Z.quot (32767 * Z.pos d) (Z.pos d));
        [apply Z.quot_le_mono; lia | rewrite Z.quot_mul; lia].
Qed.

(** ** The sample loop *)

Lemma write_samples_cursor (pcm : list Q) : forall (done : list Z) (off : nat),
  off = length done ->
  write_samples (done ++ replicate (length pcm * 2) 0) off (Fin <$> pcm)
  = Return (done ++ wav_data pcm).
Proof.
  induction pcm as [|q pcm IH]; intros done off Hoff.
  - cbn. by rewrite !app_nil_r.
  - cbn [fmap list_fmap write_samples length]. unfold setInt16_le.
    rewrite truncate_scale_clamp, le_bytes_s16le.
    rewrite view_store_cursor by (cbn; lia).
    cbn [bind]. replace (S (length pcm) * 2 - length (s16le (quantise q)))%nat
      with (length pcm * 2)%nat by (cbn; lia).
    rewrite IH by (rewrite length_app; cbn; lia).
    unfold wav_data. cbn [map concat]. by rewrite <- app_assoc.
Qed.

(** ** The whole file *)

Lemma ascii_literal (str : string) :
  forallb (fun c => (c <? 256)%N) (lit str) = true ->
  Forall (fun c => (c < 256)%N) (lit str).
Proof.
  intros H. apply Forall_forall. intros c Hc.
  rewrite forallb_forall in H. apply N.ltb_lt, H.
  by apply list_elem_of_In.
Qed.

Ltac store_string :=
  rewrite writeString_cursor;
    [cbn [bind]
    | reflexivity
    | cbn [length lit map list_ascii_of_string]; lia
    | by apply ascii_literal].
Ltac store_u32 :=
  rewrite setUint32_cursor;
    [cbn [bind]
    | reflexivity
    | cbn [length lit map list_ascii_of_string]; lia].
Ltac store_u16 :=
  rewrite setUint16_cursor;
    [cbn [bind]
    | reflexivity
    | cbn [length lit map list_ascii_of_string]; lia].

Lemma pcmToWav_bytes (pcm : list Q) (sampleRate : Z) :
  pcmToWav (Fin <$> pcm) sampleRate
  = Return (new_Blob (wav_header (length pcm) sampleRate ++ wav_data pcm)
              (lit "audio/wav")).
Proof.
  unfold pcmToWav, new_ArrayBuffer. rewrite length_fmap.
  change (replicate (44 + length pcm * 2) 0)
    with ([] ++ replicate (44 + length pcm * 2) 0).
  store_string. store_u32. store_string. store_string. store_u32.
  store_u16. store_u16. store_u32. store_u32. store_u16. store_u16.
  store_string. store_u32.
  cbn [length lit map list_ascii_of_string].
  replace (44 + length pcm * 2 - 4 - 4 - 4 - 4 - 4 - 2 - 2 - 4 - 4 - 2 - 2 - 4 - 4)%nat
    with (length pcm * 2)%nat by lia.
  rewrite write_samples_cursor by reflexivity.
  cbn [bind]. do 2 f_equal. unfold wav_header.
  rewrite <- !app_assoc. cbn [app].
  replace (Z.of_nat (length pcm) * 2) with (2 * Z.of_nat (length pcm)) by lia.
  reflexivity.
Qed.

(** C5. For every buffer of finite samples and every sample rate,
    [pcmToWav] returns (it never throws), and the file is the 44-byte
    header -- RIFF, total size, WAVE, fmt, 16, PCM code 1, 1 channel, the
    sample rate, byte rate 2 x rate, block align 2, 16 bits, data, 2 x
    count -- followed by each sample clamped to [-1, 1], scaled by 32768
    when negative and 32767 otherwise, as a signed 16-bit little-endian
    integer.  For a rate and a count that fit their fields, every field
    and every sample reads back as the value stated. *)
Theorem pcmToWav_layout (pcm : list Q) (sampleRate : Z) :
  0 <= sampleRate ->
  sampleRate * 2 < 2 ^ 32 ->
  36 + 2 * Z.of_nat (length pcm) < 2 ^ 32 ->
  pcmToWav (Fin <$> pcm) sampleRate
  = Return (new_Blob (wav_header (length pcm) sampleRate ++ wav_data pcm)
              (lit "audio/wav"))
  /\ length (wav_header (length pcm) sampleRate) = 44%nat
  /\ length (wav_data pcm) = (2 * length pcm)%nat
  /\ le_value (u32le (36 + 2 * Z.of_nat (length pcm)))
     = 36 + 2 * Z.of_nat (length pcm)
  /\ le_value (u32le sampleRate) = sampleRate
  /\ le_value (u32le (sampleRate * 2)) = sampleRate * 2
  /\ le_value (u32le (2 * Z.of_nat (length pcm))) = 2 * Z.of_nat (length pcm)
  /\ Forall (fun q =>
       -32768 <= quantise q <= 32767
       /\ signed16 (le_value (s16le (quantise q))) = quantise q) pcm.
Proof.
  intros Hrate Hbyte Hsize.
  split; [apply pcmToWav_bytes|].
  split; [reflexivity|].
  split.
  { unfold wav_data. induction pcm as [|q pcm IH]; [reflexivity|].
    cbn [map concat length]. rewrite length_app. cbn [length s16le u16le].
    rewrite IH; [lia|]. cbn [length] in Hsize. lia. }
  repeat split; try (apply le_value_u32le; lia).
  apply Forall_forall. intros q _. split.
  - apply quantise_range.
  - apply le_value_s16le, quantise_range.
Qed.

Lemma pcmToWav_layout_witness :
  pcmToWav (Fin <$> [0; 1 # 2; -1; 3]%Q) 24000
  = Return (new_Blob (wav_header 4 24000 ++ wav_data [0; 1 # 2; -1; 3]%Q)
              (lit "audio/wav")).
Proof.
  refine (proj1 (pcmToWav_layout [0; 1 # 2; -1; 3]%Q 24000 _ _ _)).
  - lia.
  - lia.
  - cbn [length]. lia.
Defined.

End EncoderFacts.

(* ===================================================================== *)
(** * Properties of the text segmenter *)
(* ===================================================================== *)

Module SegmenterFacts.
Import Js Utils Contract RegexFacts.

(** ** Trimming *)

Lemma trim_start_nil s : trim_start s = [] -> forallb is_space s = true.
Proof.
  induction s as [|c s IH]; cbn; [done|].
  destruct (is_space c); [exact IH | discriminate].
Qed.

Lemma trim_start_blank s : forallb is_space s = true -> trim_start s = [].
Proof.
  induction s as [|c s IH]; cbn; [done|].
  destruct (is_space c); [exact IH | discriminate].
Qed.

Lemma trim_start_sublist s c :
  c ∈ s -> is_space c = false -> c ∈ trim_start s.
Proof.
  induction s as [|a s IH]; cbn; intros Hin Hc; [done|].
  destruct (is_space a) eqn:Ha; [|done].
  apply elem_of_cons in Hin as [->|Hin]; [congruence | by apply IH].
Qed.

Lemma forallb_space_no_letter s c :
  forallb is_space s = true -> c ∈ s -> is_space c = true.
Proof.
  intros Hall Hin. rewrite forallb_forall in Hall.
  by apply Hall, list_elem_of_In.
Qed.

(** A string with a visible character is not blank. *)
Lemma not_blank_intro u c : c ∈ u -> is_space c = false -> ~ blank u.
Proof.
  intros Hin Hc Hblank. unfold blank, trim, trim_end in Hblank.
  assert (Hin' : c ∈ trim_start (rev (trim_start u))).
  { apply trim_start_sublist; [|done].
    apply list_elem_of_In, in_rev. rewrite rev_involutive.
    by apply list_elem_of_In, trim_start_sublist. }
  apply (f_equal (@rev N)) in Hblank. rewrite rev_involutive in Hblank.
  cbn in Hblank. rewrite Hblank in Hin'. by apply elem_of_nil in Hin'.
Qed.

Lemma blank_intro u : forallb is_space u = true -> blank u.
Proof.
  intros Hall. unfold blank, trim. by rewrite trim_start_blank.
Qed.

Lemma not_blank_length u : ~ blank u <-> 0 < length (trim u).
Proof.
  unfold blank. destruct (trim u); cbn; split; intros H; try done; lia.
Qed.

Lemma terminator_not_blank u : ends_with_terminator u -> ~ blank u.
Proof.
  intros (u' & c & -> & Hc).
  apply (not_blank_intro _ c); [|by apply terminator_not_space].
  apply elem_of_app. right. by apply list_elem_of_singleton.
Qed.

Lemma terminator_no_trailing_space u :
  ends_with_terminator u -> no_trailing_space u.
Proof.
  intros (u' & c & -> & Hc). unfold no_trailing_space.
  rewrite rev_app_distr. cbn. by apply terminator_not_space.
Qed.

(** ** The pieces [split] cuts *)

(** The scan from a state [(prev, cur, s)]: the piece in progress grows by
    a prefix [l0] of [s]; every piece but the last ends with a terminator;
    every later piece starts with a visible character, unless it is the
    empty piece at the very end. *)
Lemma split_go_shape (fuel : nat) : forall prev cur s,
  length s < fuel ->
  (forall c, prev = Some c -> is_terminator c = true ->
     exists cur', cur = c :: cur') ->
  exists l0 rest,
    split_go fuel re_sentence_gap prev cur s = (rev cur ++ l0) :: rest
    /\ (exists tail, s = l0 ++ tail)
    /\ (rest = [] -> l0 = s)
    /\ (rest <> [] -> ends_with_terminator (rev cur ++ l0))
    /\ (s <> [] -> exec_at re_sentence_gap prev s = None -> l0 <> [])
    /\ Forall no_leading_space rest
    /\ (forall i u, rest !! i = Some u -> S i < length rest ->
          ends_with_terminator u).
Proof.
  induction fuel as [|fuel IH]; intros prev cur s Hfuel Hprev; [lia|].
  destruct s as [|c s'].
  { exists [], []. cbn. rewrite app_nil_r.
    split; [done|]. split; [by exists []|]. repeat split; done. }
  cbn [split_go]. rewrite exec_at_sentence_gap.
  destruct prev as [t|]; [destruct (is_terminator t && is_space c) eqn:Hgap|].
  - (* a gap starts here *)
    apply andb_true_iff in Hgap as [Ht Hc].
    destruct (Hprev t eq_refl Ht) as [cur' ->].
    pose proof (span_end_length is_space (Some c) s') as Hlen.
    pose proof (span_end_stops is_space (Some c) s') as Hstop.
    destruct (span_end_last is_space c s' Hc) as (w & Hw & Hwspace).
    destruct (span_end is_space (Some c) s') as [prev' after] eqn:Hspan.
    cbn [fst snd] in *. subst prev'.
    destruct (Nat.ltb_spec (length after) (length (c :: s')));
      [|cbn [length] in *; lia].
    destruct (IH (Some w) [] after) as
      (l0 & rest & Hgo & [tail Htail] & Hall & Hterm & Hfirst & Hlead & Hmid).
    { cbn [length] in *. lia. }
    { intros c0 [= <-] Hc0. apply terminator_not_space in Hc0. congruence. }
    exists [], ((rev [] ++ l0) :: rest). rewrite Hgo, app_nil_r.
    repeat split; try done.
    + by exists (c :: s').
    + intros _. exists (rev cur'), t. by cbn.
    + constructor; [|exact Hlead]. cbn [rev app].
      destruct l0 as [|a l0]; [done|]. cbn.
      rewrite Htail in Hstop. exact Hstop.
    + intros [|i] u Hi Hlt.
      * cbn in Hi. injection Hi as <-. apply Hterm.
        intros ->. cbn in Hlt. lia.
      * cbn in Hi, Hlt. apply (Hmid i u Hi). lia.
  - (* an ordinary code unit after some code unit *)
    destruct (IH (Some c) (c :: cur) s') as
      (l0 & rest & Hgo & [tail Htail] & Hall & Hterm & Hfirst & Hlead & Hmid).
    { cbn [length] in Hfuel. lia. }
    { intros c0 [= <-] _. by exists cur. }
    exists (c :: l0), rest. rewrite Hgo. cbn [rev]. rewrite <- app_assoc.
    repeat split; try done.
    + exists tail. cbn. by rewrite Htail.
    + intros Hrest. by rewrite (Hall Hrest).
    + intros Hrest. specialize (Hterm Hrest). cbn [rev] in Hterm.
      by rewrite <- app_assoc in Hterm.
  - (* the first code unit of the text *)
    destruct (IH (Some c) (c :: cur) s') as
      (l0 & rest & Hgo & [tail Htail] & Hall & Hterm & Hfirst & Hlead & Hmid).
    { cbn [length] in Hfuel. lia. }
    { intros c0 [= <-] _. by exists cur. }
    exists (c :: l0), rest. rewrite Hgo. cbn [rev]. rewrite <- app_assoc.
    repeat split; try done.
    + exists tail. cbn. by rewrite Htail.
    + intros Hrest. by rewrite (Hall Hrest).
    + intros Hrest. specialize (Hterm Hrest). cbn [rev] in Hterm.
      by rewrite <- app_assoc in Hterm.
Qed.

Lemma split_go_no_terminator (fuel : nat) : forall prev cur s,
  length s < fuel ->
  (forall c, prev = Some c -> is_terminator c = false) ->
  (forall c, c ∈ s -> is_terminator c = false) ->
  split_go fuel re_sentence_gap prev cur s = [rev cur ++ s].
Proof.
  induction fuel as [|fuel IH]; intros prev cur s Hfuel Hprev Hs; [lia|].
  destruct s as [|c s']; [by rewrite app_nil_r|].
  cbn [split_go]. rewrite exec_at_sentence_gap.
  assert (Hnone : match prev with
                  | Some t => if is_terminator t && is_space c
                              then Some (span_end is_space (Some c) s')
                              else None
                  | None => None
                  end = None).
  { destruct prev as [t|]; [|done]. by rewrite (Hprev t eq_refl). }
  rewrite Hnone. rewrite IH.
  - cbn [rev]. by rewrite <- app_assoc.
  - cbn [length] in Hfuel. lia.
  - intros c0 [= <-]. apply Hs. by left.
  - intros c0 Hc0. apply Hs. by right.
Qed.

Lemma split_shape (text : jsstring) :
  text <> [] ->
  exists l0 rest,
    split re_sentence_gap text = l0 :: rest
    /\ (rest = [] -> l0 = text)
    /\ (rest <> [] -> ends_with_terminator l0)
    /\ Forall no_leading_space rest
    /\ (forall i u, rest !! i = Some u -> S i < length rest ->
          ends_with_terminator u).
Proof.
  intros Hne. unfold split. destruct text as [|c text]; [done|].
  destruct (split_go_shape (S (length (c :: text))) None [] (c :: text))
    as (l0 & rest & Hgo & _ & Hall & Hterm & _ & Hlead & Hmid);
    [lia | discriminate |].
  exists l0, rest. by rewrite Hgo.
Qed.

(** ** Dropping the blank pieces *)

Lemma filter_all_but_last {A} (P : A -> Prop) `{forall x, Decision (P x)}
    (l : list A) :
  (forall i u, l !! i = Some u -> S i < length l -> P u) ->
  filter P l = l
  \/ exists init last,
       l = init ++ [last] /\ filter P l = init /\ ~ P last.
Proof.
  induction l as [|a l IH]; intros Hall; [by left|].
  destruct l as [|b l].
  - destruct (decide (P a)) as [Ha|Ha].
    + left. by rewrite filter_cons_True.
    + right. exists [], a. by rewrite filter_cons_False.
  - assert (Ha : P a) by (apply (Hall 0 a eq_refl); cbn; lia).
    rewrite filter_cons_True by done.
    destruct IH as [Hsame | (init & last & Hl & Hf & Hlast)].
    + intros i u Hi Hlt. apply (Hall (S i) u Hi). cbn in *. lia.
    + left. by rewrite Hsame.
    + right. exists (a :: init), last. rewrite Hl at 1. by rewrite Hf.
Qed.

(** The sentences of a text with something visible in it: a first unit,
    then units that start with a visible character; all of them but
    possibly the last end with a terminator. *)
Lemma splitIntoSentences_shape (text : jsstring) :
  ~ blank text ->
  exists first more,
    splitIntoSentences text = first :: more
    /\ Forall no_leading_space more
    /\ (more <> [] -> ends_with_terminator first)
    /\ (forall i u, more !! i = Some u -> S i < length more ->
          ends_with_terminator u).
Proof.
  intros Hvisible.
  assert (Hne : text <> []) by (intros ->; by apply Hvisible).
  destruct (split_shape text Hne) as (l0 & rest & Hsplit & Hall & Hterm & Hlead & Hmid).
  unfold splitIntoSentences. rewrite Hsplit.
  destruct rest as [|r rest].
  { rewrite (Hall eq_refl).
    rewrite filter_cons_True by (by apply not_blank_length).
    exists text, []. rewrite filter_nil. repeat split; try done. }
  assert (Hl0 : ends_with_terminator l0) by (by apply Hterm).
  rewrite filter_cons_True
    by (by apply not_blank_length, terminator_not_blank).
  destruct (filter_all_but_last (fun u => 0 < length (trim u)) (r :: rest))
    as [Hsame | (init & last & Hrest & Hfilter & Hlast)].
  { intros i u Hi Hlt.
    by apply not_blank_length, terminator_not_blank, (Hmid i u). }
  - exists l0, (r :: rest). rewrite Hsame. repeat split; done.
  - exists l0, init. rewrite Hfilter. rewrite Hrest in Hlead, Hmid.
    apply Forall_app in Hlead as [Hlead _].
    repeat split; try done.
    intros i u Hi _. apply (Hmid i u).
    + by apply lookup_app_l_Some.
    + apply lookup_lt_Some in Hi. rewrite length_app. cbn. lia.
Qed.




End SegmenterFacts.

(* ===================================================================== *)
(** * Properties of the text normaliser *)
(* ===================================================================== *)

Module NormaliserFacts.
Import Js Utils Contract RegexFacts SegmenterFacts.

(** ** What each pattern matches *)

Lemma exec_at_markdown prev s :
  exec_at re_markdown prev s
  = match s with
    | c :: s' => if is_markdown c then Some (Some c, s') else None
    | [] => None
    end.
Proof. reflexivity. Qed.

Lemma exec_at_spaces prev s :
  exec_at re_spaces prev s
  = match s with
    | c :: s' =>
        if is_space c then Some (span_end is_space (Some c) s') else None
    | [] => None
    end.
Proof.
  unfold exec_at, re_spaces. cbn [rmatch at_least].
  destruct s as [|c s']; [done|]. destruct (is_space c); [|done].
  apply greedy_star_final.
Qed.

Lemma exec_at_bullet prev s :
  exec_at re_bullet prev s
  = match s with
    | c :: w :: s' =>
        if is_bullet c && is_space w
        then Some (span_end is_space (Some w) s')
        else None
    | _ => None
    end.
Proof.
  unfold exec_at, re_bullet. cbn [rmatch at_least].
  destruct s as [|c [|w s']]; [done|by destruct (is_bullet c)|].
  destruct (is_bullet c); [|done]. cbn [andb].
  destruct (is_space w); [|done]. apply greedy_star_final.
Qed.

Lemma exec_at_blank_lines_other prev s :
  match s with c :: _ => c <> 0x0A%N | [] => True end ->
  exec_at re_blank_lines prev s = None.
Proof.
  unfold exec_at, re_blank_lines. cbn [rmatch at_least].
  destruct s as [|c s']; [done|]. intros Hc. unfold is_char.
  by destruct (N.eqb_spec c 0x0A).
Qed.

Lemma exec_at_link_other prev s :
  match s with c :: _ => c <> 0x5B%N | [] => True end ->
  exec_at re_link prev s = None.
Proof.
  unfold exec_at, re_link. cbn [rmatch].
  destruct s as [|c s']; [done|]. intros Hc. unfold is_char at 1.
  by destruct (N.eqb_spec c 0x5B).
Qed.

Lemma exec_at_link_prev prev s :
  exec_at re_link prev s = exec_at re_link None s.
Proof. unfold exec_at, re_link. cbn [rmatch]. by destruct s. Qed.

(** ** Trimming *)

Lemma trim_start_suffix s : trim_start s `suffix_of` s.
Proof.
  induction s as [|c s IH]; cbn; [done|].
  destruct (is_space c); [by apply suffix_cons_r | done].
Qed.

Lemma trim_start_stops s : no_leading_space (trim_start s).
Proof.
  induction s as [|c s IH]; cbn; [done|].
  destruct (is_space c) eqn:Hc; [exact IH | exact Hc].
Qed.

Lemma trim_start_id s : no_leading_space s -> trim_start s = s.
Proof. destruct s as [|c s]; cbn; [done|]. by intros ->. Qed.

Lemma trim_end_prefix s : exists t, s = trim_end s ++ t.
Proof.
  unfold trim_end. destruct (trim_start_suffix (rev s)) as [m Hm].
  exists (rev m). rewrite <- rev_app_distr, <- Hm. by rewrite rev_involutive.
Qed.

Lemma trim_id s : no_leading_space s -> no_trailing_space s -> trim s = s.
Proof.
  intros Hlead Htrail. unfold trim, trim_end.
  rewrite (trim_start_id s) by done. rewrite trim_start_id by done.
  apply rev_involutive.
Qed.

Lemma no_leading_space_prefix a b :
  no_leading_space (a ++ b) -> no_leading_space a.
Proof. by destruct a. Qed.

Lemma trim_edges s : no_leading_space (trim s) /\ no_trailing_space (trim s).
Proof.
  unfold trim. split.
  - destruct (trim_end_prefix (trim_start s)) as [t Ht].
    pose proof (trim_start_stops s) as Hstop. rewrite Ht in Hstop.
    by apply no_leading_space_prefix in Hstop.
  - unfold no_trailing_space, trim_end. rewrite rev_involutive.
    apply trim_start_stops.
Qed.

Lemma trim_Forall (Q : N -> Prop) s : Forall Q s -> Forall Q (trim s).
Proof.
  intros Hs. unfold trim.
  assert (Hstart : Forall Q (trim_start s)).
  { destruct (trim_start_suffix s) as [m Hm]. rewrite Hm in Hs.
    by apply Forall_app in Hs as [_ ?]. }
  destruct (trim_end_prefix (trim_start s)) as [t Ht].
  rewrite Ht in Hstart. by apply Forall_app in Hstart as [? _].
Qed.

(** ** Tidy white space *)

Lemma tidy_suffix a b : tidy (a ++ b) -> tidy b.
Proof. induction a as [|c a IH]; cbn; [done|]. intros [_ H]. by apply IH. Qed.

Lemma tidy_prefix a b : tidy (a ++ b) -> tidy a.
Proof.
  induction a as [|c a IH]; cbn; [done|]. intros [Hc H]. split; [|by apply IH].
  intros Hs. destruct (Hc Hs) as [-> Hlead]. split; [done|].
  by apply no_leading_space_prefix in Hlead.
Qed.

Lemma tidy_trim s : tidy s -> tidy (trim s).
Proof.
  intros Hs. unfold trim.
  assert (Hstart : tidy (trim_start s)).
  { destruct (trim_start_suffix s) as [m Hm]. rewrite Hm in Hs.
    by apply tidy_suffix in Hs. }
  destruct (trim_end_prefix (trim_start s)) as [t Ht].
  rewrite Ht in Hstart. by apply tidy_prefix in Hstart.
Qed.

Lemma no_bullet_gap_suffix a b : no_bullet_gap (a ++ b) -> no_bullet_gap b.
Proof. induction a as [|c a IH]; cbn; [done|]. intros [_ H]. by apply IH. Qed.

Lemma no_bullet_gap_prefix a b : no_bullet_gap (a ++ b) -> no_bullet_gap a.
Proof.
  induction a as [|c a IH]; cbn; [done|]. intros [Hc H]. split; [|by apply IH].
  intros Hb. by apply no_leading_space_prefix with b, Hc.
Qed.

Lemma no_bullet_gap_trim s : no_bullet_gap s -> no_bullet_gap (trim s).
Proof.
  intros Hs. unfold trim.
  assert (Hstart : no_bullet_gap (trim_start s)).
  { destruct (trim_start_suffix s) as [m Hm]. rewrite Hm in Hs.
    by apply no_bullet_gap_suffix in Hs. }
  destruct (trim_end_prefix (trim_start s)) as [t Ht].
  rewrite Ht in Hstart. by apply no_bullet_gap_prefix in Hstart.
Qed.

(** ** What the replacements leave behind *)

(** A replacement whose text starts with a visible character keeps a
    visible start visible. *)
Lemma replace_go_leading fuel r rep prev s :
  no_leading_space rep -> rep <> [] ->
  no_leading_space s ->
  no_leading_space (replace_go fuel r rep prev s).
Proof.
  intros Hrep Hne Hs. destruct fuel as [|fuel]; [done|]. cbn [replace_go].
  destruct (exec_at r prev s) as [[q' rest]|].
  - destruct rep as [|a rep]; [done|].
    destruct (length rest <? length s); [done|]. by destruct s.
  - by destruct s.
Qed.

(** After the markdown symbols are stripped, none is left. *)
Lemma strip_markdown fuel : forall prev s,
  length s < fuel ->
  Forall (fun c => is_markdown c = false)
    (replace_go fuel re_markdown [] prev s).
Proof.
  induction fuel as [|fuel IH]; intros prev s Hfuel; [lia|].
  destruct s as [|c s]; [by rewrite replace_go_nil|].
  cbn [length] in Hfuel.
  destruct (is_markdown c) eqn:Hc.
  - rewrite (replace_go_match _ _ _ _ _ (Some c) s);
      [|by rewrite exec_at_markdown, Hc|cbn; lia].
    apply IH. lia.
  - rewrite replace_go_skip by (by rewrite exec_at_markdown, Hc).
    constructor; [done|]. apply IH. lia.
Qed.

(** After the bullets are replaced, no bullet is followed by white
    space. *)
Lemma replace_bullets fuel : forall prev s,
  length s < fuel ->
  no_bullet_gap (replace_go fuel re_bullet (lit ", ") prev s).
Proof.
  induction fuel as [|fuel IH]; intros prev s Hfuel; [lia|].
  destruct s as [|c [|w s]]; [by rewrite replace_go_nil by done| |].
  - rewrite replace_go_skip, replace_go_nil by (by rewrite exec_at_bullet).
    by cbn.
  - cbn [length] in Hfuel.
    destruct (is_bullet c && is_space w) eqn:Hm.
    + pose proof (span_end_length is_space (Some w) s) as Hlen.
      destruct (span_end is_space (Some w) s) as [q' rest] eqn:Hspan.
      cbn [snd] in Hlen.
      rewrite (replace_go_match _ _ _ _ _ q' rest);
        [|by rewrite exec_at_bullet, Hm, Hspan|cbn [length]; lia].
      cbn. repeat split; try done. apply IH. lia.
    + rewrite replace_go_skip by (by rewrite exec_at_bullet, Hm).
      cbn [no_bullet_gap]. split; [|apply IH; cbn [length]; lia].
      intros Hb. apply replace_go_leading; [done|done|].
      rewrite Hb in Hm. cbn in Hm. by cbn.
Qed.

(** Collapsing white space keeps a visible start visible. *)
Lemma collapse_leading fuel prev s :
  no_leading_space s ->
  no_leading_space (replace_go fuel re_spaces (lit " ") prev s).
Proof.
  intros Hs. destruct fuel as [|fuel]; [done|].
  destruct s as [|c s]; [by rewrite replace_go_nil by done|].
  cbn in Hs. rewrite replace_go_skip by (by rewrite exec_at_spaces, Hs).
  exact Hs.
Qed.

(** After white space is collapsed, it is tidy. *)
Lemma collapse_spaces fuel : forall prev s,
  length s < fuel ->
  tidy (replace_go fuel re_spaces (lit " ") prev s).
Proof.
  induction fuel as [|fuel IH]; intros prev s Hfuel; [lia|].
  destruct s as [|c s]; [by rewrite replace_go_nil by done|].
  cbn [length] in Hfuel. destruct (is_space c) eqn:Hc.
  - pose proof (span_end_length is_space (Some c) s) as Hlen.
    pose proof (span_end_stops is_space (Some c) s) as Hstop.
    destruct (span_end is_space (Some c) s) as [q' rest] eqn:Hspan.
    cbn [snd] in Hlen, Hstop.
    rewrite (replace_go_match _ _ _ _ _ q' rest);
      [|by rewrite exec_at_spaces, Hc, Hspan|cbn [length]; lia].
    cbn. split; [|apply IH; lia].
    intros _. split; [done|]. apply collapse_leading. by destruct rest.
  - rewrite replace_go_skip by (by rewrite exec_at_spaces, Hc).
    cbn [tidy]. split; [congruence|]. apply IH. lia.
Qed.

Lemma collapse_keeps_bullets fuel : forall prev s,
  length s < fuel ->
  no_bullet_gap s ->
  no_bullet_gap (replace_go fuel re_spaces (lit " ") prev s).
Proof.
  induction fuel as [|fuel IH]; intros prev s Hfuel Hs; [lia|].
  destruct s as [|c s]; [by rewrite replace_go_nil by done|].
  cbn [length] in Hfuel. cbn [no_bullet_gap] in Hs. destruct Hs as [Hc Hs].
  destruct (is_space c) eqn:Hspace.
  - pose proof (span_end_length is_space (Some c) s) as Hlen.
    destruct (span_end_suffix is_space (Some c) s) as (run & Hrun & _).
    destruct (span_end is_space (Some c) s) as [q' rest] eqn:Hspan.
    cbn [snd] in Hlen, Hrun.
    rewrite (replace_go_match _ _ _ _ _ q' rest);
      [|by rewrite exec_at_spaces, Hspace, Hspan|cbn [length]; lia].
    cbn. split; [done|]. apply IH; [lia|].
    rewrite Hrun in Hs. by apply no_bullet_gap_suffix in Hs.
  - rewrite replace_go_skip by (by rewrite exec_at_spaces, Hspace).
    cbn [no_bullet_gap]. split; [|apply IH; [lia|done]].
    intros Hb. by apply collapse_leading, Hc.
Qed.

(** ** Texts the patterns leave alone *)

Lemma no_match_markdown s : forall prev,
  Forall (fun c => is_markdown c = false) s -> no_match re_markdown prev s.
Proof.
  induction s as [|c s IH]; intros prev Hs; cbn [no_match]; [done|].
  inversion Hs as [|? ? Hc Hrest]; subst.
  split; [by rewrite exec_at_markdown, Hc | by apply IH].
Qed.

Lemma no_match_blank_lines s : forall prev,
  tidy s -> no_match re_blank_lines prev s.
Proof.
  induction s as [|c s IH]; intros prev Hs; cbn [no_match]; [done|].
  cbn [tidy] in Hs. destruct Hs as [Hc Hs].
  split; [|by apply IH].
  apply exec_at_blank_lines_other. intros ->.
  by destruct (Hc eq_refl) as [? _].
Qed.

Lemma no_match_bullet s : forall prev,
  no_bullet_gap s -> no_match re_bullet prev s.
Proof.
  induction s as [|c s IH]; intros prev Hs; cbn [no_match]; [done|].
  cbn [no_bullet_gap] in Hs. destruct Hs as [Hc Hs].
  split; [|by apply IH].
  rewrite exec_at_bullet. destruct s as [|w s]; [done|].
  destruct (is_bullet c); [|done]. cbn in Hc. by rewrite Hc.
Qed.

Lemma no_match_link s : forall prev, link_free s -> no_match re_link prev s.
Proof.
  induction s as [|c s IH]; intros prev Hs; cbn [no_match].
  - split; [|done]. rewrite exec_at_link_prev. by apply (Hs [] []).
  - split.
    + rewrite exec_at_link_prev. by apply (Hs [] (c :: s)).
    + apply IH. intros pre post ->. by apply (Hs (c :: pre) post).
Qed.

Lemma collapse_tidy fuel : forall prev s,
  tidy s -> replace_go fuel re_spaces (lit " ") prev s = s.
Proof.
  induction fuel as [|fuel IH]; intros prev s Hs; [done|].
  destruct s as [|c s]; [by rewrite replace_go_nil by done|].
  cbn [tidy] in Hs. destruct Hs as [Hc Hs].
  destruct (is_space c) eqn:Hspace.
  - destruct (Hc eq_refl) as [-> Hlead].
    assert (Hspan : span_end is_space (Some 0x20%N) s = (Some 0x20%N, s)).
    { destruct s as [|d s]; [done|]. cbn in Hlead. cbn. by rewrite Hlead. }
    rewrite (replace_go_match _ _ _ _ _ (Some 0x20%N) s);
      [|by rewrite exec_at_spaces, Hspan|cbn [length]; lia].
    cbn. f_equal. by apply IH.
  - rewrite replace_go_skip by (by rewrite exec_at_spaces, Hspace).
    f_equal. by apply IH.
Qed.

(** ** The normal form *)

(** What a normalised text looks like, whatever the input. *)
Lemma cleanTextForTTS_normal (x : jsstring) :
  Forall (fun c => is_markdown c = false) (cleanTextForTTS x)
  /\ tidy (cleanTextForTTS x)
  /\ no_bullet_gap (cleanTextForTTS x)
  /\ no_leading_space (cleanTextForTTS x)
  /\ no_trailing_space (cleanTextForTTS x).
Proof.
  unfold cleanTextForTTS, replace_all. split; [|split; [|split]].
  - apply trim_Forall.
    apply replace_go_Forall; [|by repeat constructor].
    apply replace_go_Forall; [|by repeat constructor].
    apply replace_go_Forall; [|by repeat constructor].
    apply replace_go_Forall; [|by repeat constructor].
    apply strip_markdown. lia.
  - apply tidy_trim, collapse_spaces. lia.
  - apply no_bullet_gap_trim, collapse_keeps_bullets; [lia|].
    apply replace_bullets. lia.
  - apply trim_edges.
Qed.

(** Code units the input does not have, and the inserted pauses do not
    have, the normalised text does not have. *)
Lemma cleanTextForTTS_Forall (Q : N -> Prop) (x : jsstring) :
  Q 0x2E%N -> Q 0x20%N -> Q 0x2C%N ->
  Forall Q x -> Forall Q (cleanTextForTTS x).
Proof.
  intros Hdot Hsp Hcomma Hx. unfold cleanTextForTTS, replace_all.
  apply trim_Forall.
  apply replace_go_Forall; [|by repeat constructor].
  apply replace_go_Forall; [|by repeat constructor].
  apply replace_go_Forall; [|by repeat constructor].
  apply replace_go_Forall; [|by repeat constructor].
  apply replace_go_Forall; [done | by repeat constructor].
Qed.



(** A text without an opening bracket normalises to a text without
    links. *)
Lemma link_free_without_bracket (x : jsstring) :
  Forall (fun c => c <> 0x5B%N) x -> link_free (cleanTextForTTS x).
Proof.
  intros Hx pre post Hsplit.
  assert (Ho : Forall (fun c => c <> 0x5B%N) (cleanTextForTTS x))
    by (by apply cleanTextForTTS_Forall).
  rewrite Hsplit in Ho. apply Forall_app in Ho as [_ Hpost].
  apply exec_at_link_other. destruct post as [|c post]; [done|].
  by inversion Hpost.
Qed.


(** ** The side condition is needed

    A second pass over a normalised text that still holds a link removes
    it, and nothing a pass does makes a text longer. *)

Lemma replace_go_length r rep :
  (forall prev s q rest,
     exec_at r prev s = Some (q, rest) -> length rep + length rest <= length s) ->
  forall fuel prev s, length (replace_go fuel r rep prev s) <= length s.
Proof.
  intros Hr. induction fuel as [|fuel IH]; intros prev s; [done|].
  cbn [replace_go].
  destruct (exec_at r prev s) as [[q rest]|] eqn:Hexec.
  - apply Hr in Hexec.
    destruct (Nat.ltb_spec (length rest) (length s)).
    + rewrite length_app. specialize (IH q rest). lia.
    + destruct s as [|c s]; [lia|].
      rewrite length_app. cbn [length] in *. specialize (IH (Some c) s). lia.
  - destruct s as [|c s]; [done|]. cbn [length]. specialize (IH (Some c) s). lia.
Qed.

Lemma suffix_length (a b : jsstring) : a `suffix_of` b -> length a <= length b.
Proof. intros [m ->]. rewrite length_app. lia. Qed.

Lemma exec_at_class_consumes p r prev s q rest :
  exec_at (Cat (Class p) r) prev s = Some (q, rest) -> length rest < length s.
Proof.
  unfold exec_at. cbn [rmatch]. destruct s as [|c s]; [done|].
  destruct (p c); [|done]. intros Hrest.
  apply rmatch_suffix in Hrest.
  - apply suffix_length in Hrest. cbn [length]. lia.
  - by intros ? ? ? ? [= _ ->].
Qed.

Lemma exec_at_link_consumes prev s q rest :
  exec_at re_link prev s = Some (q, rest) -> length rest < length s.
Proof. apply exec_at_class_consumes. Qed.

Lemma exec_at_blank_lines_consumes prev s q rest :
  exec_at re_blank_lines prev s = Some (q, rest) -> 2 + length rest <= length s.
Proof.
  unfold exec_at, re_blank_lines. cbn [at_least rmatch].
  destruct s as [|a [|b s]]; [done|by destruct (is_char 10 a)|].
  destruct (is_char 10 a); [|done]. destruct (is_char 10 b); [|done].
  intros Hrest. apply greedy_star_suffix in Hrest.
  - apply suffix_length in Hrest. cbn [length]. lia.
  - by intros ? ? ? ? [= _ ->].
Qed.

Lemma exec_at_bullet_consumes prev s q rest :
  exec_at re_bullet prev s = Some (q, rest) -> 2 + length rest <= length s.
Proof.
  rewrite exec_at_bullet. destruct s as [|c [|w s]]; [done|done|].
  destruct (is_bullet c && is_space w); [|done]. intros [= Hspan].
  pose proof (span_end_length is_space (Some w) s) as Hlen.
  rewrite Hspan in Hlen. cbn [snd length] in *. lia.
Qed.

Lemma exec_at_spaces_consumes prev s q rest :
  exec_at re_spaces prev s = Some (q, rest) -> 1 + length rest <= length s.
Proof.
  rewrite exec_at_spaces. destruct s as [|c s]; [done|].
  destruct (is_space c); [|done]. intros [= Hspan].
  pose proof (span_end_length is_space (Some c) s) as Hlen.
  rewrite Hspan in Hlen. cbn [snd length] in *. lia.
Qed.

Lemma trim_length s : length (trim s) <= length s.
Proof.
  unfold trim.
  pose proof (suffix_length _ _ (trim_start_suffix s)) as Hstart.
  destruct (trim_end_prefix (trim_start s)) as [t Ht].
  apply (f_equal length) in Ht. rewrite length_app in Ht. lia.
Qed.

(** Removing links shortens a text that has one. *)
Lemma strip_links_shorter fuel : forall prev pre post m,
  length (pre ++ post) < fuel ->
  exec_at re_link None post = Some m ->
  length (replace_go fuel re_link [] prev (pre ++ post)) < length (pre ++ post).
Proof.
  assert (Hlen : forall fuel prev s,
    length (replace_go fuel re_link [] prev s) <= length s).
  { apply replace_go_length. intros prev s q rest Hexec.
    apply exec_at_link_consumes in Hexec. cbn [length]. lia. }
  induction fuel as [|fuel IH]; intros prev pre post m Hfuel Hpost; [lia|].
  destruct (exec_at re_link prev (pre ++ post)) as [[q rest]|] eqn:Hexec.
  - pose proof (exec_at_link_consumes _ _ _ _ Hexec) as Hshort.
    rewrite (replace_go_match _ _ _ _ _ q rest) by done.
    cbn [app]. specialize (Hlen fuel q rest). lia.
  - destruct pre as [|c pre].
    + cbn [app] in Hexec. rewrite exec_at_link_prev in Hexec. congruence.
    + cbn [app] in *. rewrite replace_go_skip by done. cbn [length] in *.
      specialize (IH (Some c) pre post m ltac:(lia) Hpost). lia.
Qed.

(** A normalised text that still holds a link is not a fixed point. *)
Lemma cleanTextForTTS_fixed_point_link_free (x : jsstring) :
  cleanTextForTTS (cleanTextForTTS x) = cleanTextForTTS x ->
  link_free (cleanTextForTTS x).
Proof.
  intros Hfixed pre post Hsplit.
  destruct (exec_at re_link None post) as [m|] eqn:Hpost; [exfalso|done].
  destruct (cleanTextForTTS_normal x) as (Hmarkdown & _).
  generalize dependent (cleanTextForTTS x). intros o Hfixed Hsplit Hmarkdown.
  apply (f_equal length) in Hfixed. revert Hfixed.
  unfold cleanTextForTTS, replace_all.
  rewrite (replace_go_no_match _ re_markdown) by (by apply no_match_markdown).
  pose proof (strip_links_shorter (S (length o)) None pre post m) as Hlinks.
  rewrite <- Hsplit in Hlinks. specialize (Hlinks ltac:(lia) Hpost).
  set (o2 := replace_go (S (length o)) re_link [] None o) in *.
  pose proof (replace_go_length re_blank_lines (lit ". ")
                exec_at_blank_lines_consumes (S (length o2)) None o2) as H3.
  set (o3 := replace_go _ re_blank_lines _ None o2) in *.
  pose proof (replace_go_length re_bullet (lit ", ")
                exec_at_bullet_consumes (S (length o3)) None o3) as H4.
  set (o4 := replace_go _ re_bullet _ None o3) in *.
  pose proof (replace_go_length re_spaces (lit " ")
                exec_at_spaces_consumes (S (length o4)) None o4) as H5.
  set (o5 := replace_go _ re_spaces _ None o4) in *.
  pose proof (trim_length o5). lia.
Qed.

End NormaliserFacts.

(* ===================================================================== *)
(** * Worked scenarios *)
(* ===================================================================== *)

Module Scenarios.
Import Js Utils Types Contract.

Example segment_two_sentences :
  splitIntoSentences (lit "Hello world. This is a test.")
  = [lit "Hello world."; lit "This is a test."].
Proof. reflexivity. Qed.

Example segment_keeps_edges :
  splitIntoSentences (lit " a.  b ") = [lit " a."; lit "b "].
Proof. reflexivity. Qed.

Example segment_bangla_danda :
  splitIntoSentences ([0x995; 0x964; 0x20; 0x996]%N) = [[0x995; 0x964]; [0x996]]%N.
Proof. reflexivity. Qed.

Example normalise_markdown :
  cleanTextForTTS
    (lit "# Title" ++ [0x0A; 0x0A]%N ++ lit "- one *two* [x](http://y)  end ")
  = lit "Title. , one two end".
Proof. reflexivity. Qed.

Example normalise_link_across_lines :
  cleanTextForTTS [0x5B; 0x61; 0x0A; 0x5D; 0x28; 0x62; 0x29]%N = lit "[a ](b)"
  /\ cleanTextForTTS (lit "[a ](b)") = [].
Proof. split; reflexivity. Qed.

Example atob_pcm :
  decodeBase64 (lit "AAD/fwCA") = Return [0; 0; 255; 127; 0; 128]%Z.
Proof. reflexivity. Qed.

Example atob_padding :
  decodeBase64 (lit "AA==") = Return [0%Z]
  /\ decodeBase64 (lit "A") = Throw InvalidCharacterError.
Proof. split; reflexivity. Qed.

Example wav_of_two_samples :
  blob_bytes <$>
    match pcmToWav [Fin (1 # 2); Fin (-1)] 24000 with
    | Return b => Some b
    | Throw _ => None
    end
  = Some [82; 73; 70; 70; 40; 0; 0; 0; 87; 65; 86; 69; 102; 109; 116; 32;
          16; 0; 0; 0; 1; 0; 1; 0; 192; 93; 0; 0; 128; 187; 0; 0; 2; 0; 16; 0;
          100; 97; 116; 97; 4; 0; 0; 0; 255; 63; 0; 128]%Z.
Proof. reflexivity. Qed.

End Scenarios.

(* ===================================================================== *)
(** * More on the Library Store *)
(* ===================================================================== *)

Module StoreFacts.
Import Js Utils Types Eff Storage Reference.

(** A request on a service that is initialised, or whose database opens:
    it is served, and only the object store changes. *)
Lemma request_served req failure f st :
  db st = true \/ fails (indexedDB st) ReqOpen = false ->
  consistent st ->
  fails (indexedDB st) req = false ->
  exists st1,
    (ensure_db ;;; on_store req failure f) st = (Return tt, st1)
    /\ stored st1 = f (stored st)
    /\ db st1 = true
    /\ fails (indexedDB st1) = fails (indexedDB st)
    /\ consistent st1.
Proof.
  intros Hopen Hwf Hreq.
  assert (Hdb : exists st',
    ensure_db st = (Return tt, st')
    /\ audioLibrary (indexedDB st') = Some (stored st)
    /\ fails (indexedDB st') = fails (indexedDB st)
    /\ db st' = true).
  { destruct (db st) eqn:Hd.
    - exists st. unfold ensure_db. rewrite Hd.
      destruct (Hwf Hd) as [items Hitems]. unfold stored. by rewrite Hitems.
    - destruct Hopen as [?|Hopen]; [done|].
      by apply StorageFacts.ensure_db_ok. }
  destruct Hdb as (st' & He & Hlib & Hf & Hd').
  unfold mbind. rewrite He. unfold on_store. rewrite Hlib, Hf, Hreq.
  eexists. split; [reflexivity|]. cbn. repeat split; try done.
  intros _. by eexists.
Qed.

(** A request the browser lets fail: the method throws the message of
    that request, and the stored items stay. *)
Lemma request_refused req failure f st :
  db st = true \/ fails (indexedDB st) ReqOpen = false ->
  consistent st ->
  fails (indexedDB st) req = true ->
  exists st1,
    (ensure_db ;;; on_store req failure f) st = (Throw (new_Error failure), st1)
    /\ stored st1 = stored st.
Proof.
  intros Hopen Hwf Hreq.
  assert (Hdb : exists st',
    ensure_db st = (Return tt, st')
    /\ audioLibrary (indexedDB st') = Some (stored st)
    /\ fails (indexedDB st') = fails (indexedDB st)).
  { destruct (db st) eqn:Hd.
    - exists st. unfold ensure_db. rewrite Hd.
      destruct (Hwf Hd) as [items Hitems]. unfold stored. by rewrite Hitems.
    - destruct Hopen as [?|Hopen]; [done|].
      destruct (StorageFacts.ensure_db_ok st Hopen Hwf) as (st' & ? & ? & ? & _).
      by exists st'. }
  destruct Hdb as (st' & He & Hlib & Hf).
  unfold mbind. rewrite He. unfold on_store. rewrite Hlib, Hf, Hreq.
  eexists. split; [reflexivity|]. unfold stored. by rewrite Hlib.
Qed.

(** X1. [saveItem] is an upsert by [id]: it returns, the store then maps
    the item's id to the item and every other id as before, and saving a
    second item under the same id leaves one entry, the second item. *)
Theorem saveItem_upsert (item : LibraryItem) (st : StorageService) :
  db st = true \/ fails (indexedDB st) ReqOpen = false ->
  fails (indexedDB st) ReqPut = false ->
  consistent st ->
  exists st1,
    saveItem item st = (Return tt, st1)
    /\ stored st1 !! id item = Some item
    /\ (forall k, k <> id item -> stored st1 !! k = stored st !! k)
    /\ forall item2, id item2 = id item ->
         exists st2,
           saveItem item2 st1 = (Return tt, st2)
           /\ stored st2 = <[id item := item2]> (stored st).
Proof.
  intros Hopen Hput Hwf.
  destruct (request_served ReqPut (lit "Failed to save audio")
              (fun items => <[id item := item]> items) st Hopen Hwf Hput)
    as (st1 & Hrun & Hstored & Hdb & Hf & Hwf1).
  exists st1. split; [exact Hrun|]. rewrite Hstored.
  split; [by rewrite lookup_insert_eq|]. split.
  - intros k Hk. by rewrite lookup_insert_ne.
  - intros item2 Hid.
    destruct (request_served ReqPut (lit "Failed to save audio")
                (fun items => <[id item2 := item2]> items) st1)
      as (st2 & Hrun2 & Hstored2 & _); [by left|done|by rewrite Hf|].
    exists st2. split; [exact Hrun2|].
    by rewrite Hstored2, Hstored, Hid, insert_insert_eq.
Qed.

Lemma saveItem_upsert_witness :
  exists st1,
    saveItem (fresh_item (lit "a")) Samples.storage0 = (Return tt, st1)
    /\ stored st1 !! lit "a" = Some (fresh_item (lit "a")).
Proof.
  destruct (saveItem_upsert (fresh_item (lit "a")) Samples.storage0)
    as (st1 & H1 & H2 & _).
  - right. reflexivity.
  - reflexivity.
  - intros H. discriminate H.
  - exists st1. split; [exact H1 | exact H2].
Defined.

Lemma mbind_assoc {St A B C} (m : M St A) (k1 : A -> M St B)
    (k2 : B -> M St C) st :
  mbind m (fun a => mbind (k1 a) k2) st = mbind (mbind m k1) k2 st.
Proof. unfold mbind. by destruct (m st) as [[a|e] st']. Qed.

Lemma getItems_run st :
  getItems st
  = mbind (ensure_db ;;; on_store ReqGetAll (lit "Failed to retrieve library")
                           (fun items => items))
      (fun _ => st' <~ get ;; ret (map snd (map_to_list (stored st')))) st.
Proof. unfold getItems. by rewrite <- mbind_assoc. Qed.



(** X3. Save, list, delete, list: against a browser that serves every
    request, a saved item is in the next listing; after it is deleted no
    item of that id is stored, and the store is what it was before the
    save when the id was new. *)
Theorem save_list_delete (item : LibraryItem) (st : StorageService) :
  (forall req, fails (indexedDB st) req = false) ->
  consistent st ->
  exists st1 items st2 st3,
    saveItem item st = (Return tt, st1)
    /\ getItems st1 = (Return items, st2)
    /\ item ∈ items
    /\ deleteItem (id item) st2 = (Return tt, st3)
    /\ stored st3 !! id item = None
    /\ (stored st !! id item = None -> stored st3 = stored st).
Proof.
  intros Hserved Hwf.
  destruct (request_served ReqPut (lit "Failed to save audio")
              (fun items => <[id item := item]> items) st)
    as (st1 & Hsave & Hstored1 & Hdb1 & Hf1 & Hwf1); [by right|done|done|].
  destruct (request_served ReqGetAll (lit "Failed to retrieve library")
              (fun items => items) st1)
    as (st2 & Hlist & Hstored2 & Hdb2 & Hf2 & Hwf2);
    [by left|done|by rewrite Hf1|].
  destruct (request_served ReqDelete (lit "Failed to delete item")
              (fun items => delete (id item) items) st2)
    as (st3 & Hdel & Hstored3 & _); [by left|done|by rewrite Hf2, Hf1|].
  exists st1, (map snd (map_to_list (stored st2))), st2, st3.
  split; [exact Hsave|]. split.
  { rewrite getItems_run. unfold mbind at 1. rewrite Hlist. reflexivity. }
  split.
  { rewrite Hstored2, Hstored1. apply list_elem_of_In, in_map_iff.
    exists (id item, item). split; [done|].
    apply list_elem_of_In, elem_of_map_to_list. by rewrite lookup_insert_eq. }
  split; [exact Hdel|].
  rewrite Hstored3, Hstored2, Hstored1. split.
  - by rewrite lookup_delete_eq.
  - intros Hnew. by rewrite delete_insert_eq, delete_id.
Qed.

Lemma save_list_delete_witness :
  exists st1 items st2 st3,
    saveItem (fresh_item (lit "a")) Samples.storage0 = (Return tt, st1)
    /\ getItems st1 = (Return items, st2)
    /\ fresh_item (lit "a") ∈ items
    /\ deleteItem (lit "a") st2 = (Return tt, st3)
    /\ stored st3 !! lit "a" = None.
Proof.
  destruct (save_list_delete (fresh_item (lit "a")) Samples.storage0)
    as (st1 & items & st2 & st3 & H1 & H2 & H3 & H4 & H5 & _).
  - reflexivity.
  - intros H. discriminate H.
  - exists st1, items, st2, st3. repeat split; assumption.
Defined.

(** Saving and deleting keep every item under its own id. *)
Lemma keyed_by_id_insert items item :
  keyed_by_id items -> keyed_by_id (<[id item := item]> items).
Proof.
  intros Hkeyed k x Hx. apply lookup_insert_Some in Hx as [[<- <-]|[_ Hx]];
    [done | by apply Hkeyed].
Qed.

Lemma keyed_by_id_delete items key :
  keyed_by_id items -> keyed_by_id (delete key items).
Proof.
  intros Hkeyed k x Hx. apply lookup_delete_Some in Hx as [_ Hx].
  by apply Hkeyed.
Qed.



(** X5. Failures of the browser's database: when the database cannot be
    opened, every method of a service not yet initialised throws the
    open error and changes nothing; when the request itself is refused,
    [saveItem] and [deleteItem] throw their own message and the stored
    items stay. *)
Theorem storage_failures (item : LibraryItem) (key : jsstring)
    (st : StorageService) :
  consistent st ->
  (db st = false -> fails (indexedDB st) ReqOpen = true ->
     saveItem item st = (Throw (new_Error (lit "Failed to open IndexedDB")), st)
     /\ getItems st = (Throw (new_Error (lit "Failed to open IndexedDB")), st)
     /\ deleteItem key st
        = (Throw (new_Error (lit "Failed to open IndexedDB")), st))
  /\ (db st = true \/ fails (indexedDB st) ReqOpen = false ->
      fails (indexedDB st) ReqPut = true ->
      exists st1,
        saveItem item st = (Throw (new_Error (lit "Failed to save audio")), st1)
        /\ stored st1 = stored st)
  /\ (db st = true \/ fails (indexedDB st) ReqOpen = false ->
      fails (indexedDB st) ReqDelete = true ->
      exists st1,
        deleteItem key st
        = (Throw (new_Error (lit "Failed to delete item")), st1)
        /\ stored st1 = stored st).
Proof.
  intros Hwf. split; [|split].
  - intros Hdb Hopen.
    unfold saveItem, getItems, deleteItem, mbind, ensure_db, init.
    by rewrite Hdb, Hopen.
  - intros Hopen Hput. by apply request_refused.
  - intros Hopen Hdel. by apply request_refused.
Qed.

Lemma storage_failures_witness :
  exists st1,
    saveItem (fresh_item (lit "a"))
      {| db := false;
         indexedDB := {| fails := fun req => match req with
                                             | ReqPut => true
                                             | _ => false
                                             end;
                         audioLibrary := None |} |}
    = (Throw (new_Error (lit "Failed to save audio")), st1).
Proof.
  destruct (proj1 (proj2 (storage_failures (fresh_item (lit "a")) []
    {| db := false;
       indexedDB := {| fails := fun req => match req with
                                           | ReqPut => true
                                           | _ => false
                                           end;
                       audioLibrary := None |} |}
    ltac:(intros H; discriminate H)))
    ltac:(right; reflexivity) eq_refl) as (st1 & H1 & _).
  exists st1. exact H1.
Defined.

End StoreFacts.

(* ===================================================================== *)
(** * The playback controller: the other methods *)
(* ===================================================================== *)

Module EngineFacts.
Import Js Utils Types Eff AudioEngine Contract PlaybackFacts.

Lemma stop_frame e :
  audioCtx (stop e) = audioCtx e
  /\ length (nodes (stop e)) = length (nodes e)
  /\ isActuallyPlaying (stop e) = false.
Proof.
  destruct e as [ctx an [h|] gain st pt pl ns tr ab];
    unfold stop, try_catch, node_stop; cbn; [|done].
  destruct (ns !! h) as [n|]; [destruct (started n)|]; cbn;
    by rewrite ?length_alter.
Qed.

Lemma stop_idle e :
  currentSource e = None ->
  trace (stop e) = trace e /\ nodes (stop e) = nodes e.
Proof. intros Hcur. unfold stop. by rewrite Hcur. Qed.

Lemma initContext_flag e :
  isActuallyPlaying (initContext e) = isActuallyPlaying e.
Proof. by destruct e as [[[[] t]|] an cur gain st pt pl ns tr []]. Qed.

(** Whatever the engine was doing, [playBuffer] leaves it Playing the new
    source. *)
Lemma playBuffer_playing b rate onEnd e :
  playing (playBuffer b rate onEnd e) (length (nodes e)) b rate.
Proof.
  destruct (initContext_spec e) as (c & pre & Hctx & Hrun & Hns & _).
  destruct (stop_frame (initContext e)) as (Hctx2 & Hlen & _).
  rewrite Hctx in Hctx2. rewrite Hns in Hlen.
  rewrite playBuffer_unfold, <- Hlen.
  by apply (after_stop_playing b rate onEnd _ c (stop_current _) Hctx2 Hrun).
Qed.

(** X6. [stop] is idempotent: after it the engine holds no source and
    is not playing, a second [stop] changes nothing, and a [stop] with no
    current source sends nothing to the browser. *)
Theorem stop_idempotent (e : AudioEngine) :
  stop (stop e) = stop e
  /\ currentSource (stop e) = None
  /\ isActuallyPlaying (stop e) = false
  /\ (currentSource e = None ->
      trace (stop e) = trace e /\ nodes (stop e) = nodes e).
Proof.
  split; [|split; [apply stop_current|split; [apply stop_frame|apply stop_idle]]].
  destruct e as [ctx an [h|] gain st pt pl ns tr ab];
    unfold stop, try_catch, node_stop; cbn; [|done].
  by destruct (ns !! h) as [n|]; [destruct (started n)|].
Qed.

Lemma stop_idempotent_witness :
  trace (stop Samples.engine0) = trace Samples.engine0
  /\ nodes (stop Samples.engine0) = nodes Samples.engine0.
Proof.
  exact (proj2 (proj2 (proj2 (stop_idempotent Samples.engine0))) eq_refl).
Defined.









End EngineFacts.

(* ===================================================================== *)
(** * Base64, WAV and MP3: the codecs *)
(* ===================================================================== *)

Module CodecFacts.
Import Js Utils Types Eff Contract Reference.

(** ** Base64 *)

Lemma list_ind3 {A} (P : list A -> Prop) :
  P [] -> (forall a, P [a]) -> (forall a b, P [a; b]) ->
  (forall a b c rest, P rest -> P (a :: b :: c :: rest)) ->
  forall l, P l.
Proof.
  intros H0 H1 H2 H3 l.
  assert (Hall : forall n l, length l < n -> P l).
  { clear l. induction n as [|n IH]; intros l Hl; [lia|].
    destruct l as [|a [|b [|c rest]]]; auto.
    apply H3, IH. cbn in Hl. lia. }
  apply (Hall (S (length l))). lia.
Qed.

Lemma base64_encode_digits (bytes : list Z) :
  base64_encode bytes
  = map base64_char (base64_digits bytes) ++ base64_padding bytes.
Proof.
  induction bytes as [| | |a b c rest IH] using list_ind3; try reflexivity.
  cbn [base64_encode base64_digits base64_padding map app]. by rewrite IH.
Qed.

Lemma base64_digits_range (bytes : list Z) :
  Forall (fun b => (0 <= b < 256)%Z) bytes ->
  Forall (fun v => (0 <= v < 64)%Z) (base64_digits bytes).
Proof.
  induction bytes as [| | |a b c rest IH] using list_ind3; intros Hb;
    cbn [base64_digits].
  - constructor.
  - inversion Hb; subst. repeat constructor; Z.div_mod_to_equations; lia.
  - inversion Hb as [|? ? ? Hb']; subst. inversion Hb'; subst.
    repeat constructor; Z.div_mod_to_equations; lia.
  - inversion Hb as [|? ? ? Hb1]; subst. inversion Hb1 as [|? ? ? Hb2]; subst.
    inversion Hb2; subst.
    repeat (constructor; [Z.div_mod_to_equations; lia|]). by apply IH.
Qed.

Lemma decode_base64_digits (bytes : list Z) :
  Forall (fun b => (0 <= b < 256)%Z) bytes ->
  decode_sextets (base64_digits bytes) = bytes.
Proof.
  induction bytes as [| | |a b c rest IH] using list_ind3; intros Hb;
    cbn [base64_digits decode_sextets].
  - reflexivity.
  - inversion Hb; subst. f_equal. Z.div_mod_to_equations. lia.
  - inversion Hb as [|? ? ? Hb']; subst. inversion Hb'; subst.
    repeat f_equal; Z.div_mod_to_equations; lia.
  - inversion Hb as [|? ? ? Hb1]; subst. inversion Hb1 as [|? ? ? Hb2]; subst.
    inversion Hb2; subst. rewrite IH by done.
    repeat f_equal; Z.div_mod_to_equations; lia.
Qed.

Lemma base64_char_facts (v : Z) :
  (0 <= v < 64)%Z ->
  base64_value (base64_char v) = Some v
  /\ is_ascii_whitespace (base64_char v) = false
  /\ base64_char v <> 0x3D%N.
Proof.
  intros Hv.
  assert (Hnat : forall n, n < 64 ->
    base64_value (base64_char (Z.of_nat n)) = Some (Z.of_nat n)
    /\ is_ascii_whitespace (base64_char (Z.of_nat n)) = false
    /\ base64_char (Z.of_nat n) <> 0x3D%N).
  { intros n Hn.
    do 64 (destruct n as [|n]; [by vm_compute|]). lia. }
  rewrite <- (Z2Nat.id v) by lia. apply Hnat. lia.
Qed.

Lemma sextets_digits (vs : list Z) :
  Forall (fun v => (0 <= v < 64)%Z) vs ->
  sextets (map base64_char vs) = Some vs.
Proof.
  induction 1 as [|v vs Hv _ IH]; [done|].
  cbn [map sextets]. destruct (base64_char_facts v Hv) as (-> & _).
  by rewrite IH.
Qed.

(** [strip_padding], with its patterns read as comparisons. *)
Lemma strip_padding_cases (data : jsstring) :
  strip_padding data
  = if length data mod 4 =? 0 then
      match rev data with
      | c1 :: r1 =>
          if (c1 =? 0x3D)%N
          then match r1 with
               | c2 :: r2 => if (c2 =? 0x3D)%N then rev r2 else rev r1
               | [] => rev r1
               end
          else data
      | [] => data
      end
    else data.
Proof.
  unfold strip_padding. destruct (length data mod 4 =? 0); [|done].
  destruct (rev data) as [|c1 r1]; [done|].
  assert (Hc : forall c : N, (c =? 0x3D)%N = false ->
            forall (x y : jsstring),
              match c with 0x3D%N => x | _ => y end = y).
  { intros [|p] Hp x y; [done|].
    do 6 (try destruct p as [p|p|]); try done. }
  destruct (c1 =? 0x3D)%N eqn:H1.
  - apply N.eqb_eq in H1. subst c1. destruct r1 as [|c2 r2]; [done|].
    destruct (c2 =? 0x3D)%N eqn:H2.
    + apply N.eqb_eq in H2. by subst c2.
    + destruct c2 as [|p]; [done|].
      do 6 (try destruct p as [p|p|]); try done.
  - destruct c1 as [|p]; [done|].
    do 6 (try destruct p as [p|p|]); try done.
Qed.

Lemma strip_padding_encoded (chars pad : jsstring) :
  Forall (fun c => c <> 0x3D%N) chars ->
  pad = [] \/ pad = [0x3D%N] \/ pad = [0x3D; 0x3D]%N ->
  length (chars ++ pad) mod 4 = 0 ->
  strip_padding (chars ++ pad) = chars.
Proof.
  intros Hchars Hpad Hlen. rewrite strip_padding_cases, Hlen. cbn [Nat.eqb].
  rewrite rev_app_distr.
  assert (Hfirst : forall c r, rev chars = c :: r -> (c =? 0x3D)%N = false).
  { intros c r Hr. apply N.eqb_neq.
    rewrite Forall_forall in Hchars. apply Hchars.
    apply list_elem_of_In, in_rev. rewrite Hr. by left. }
  destruct Hpad as [->|[->| ->]]; cbn [rev app].
  - rewrite app_nil_r. destruct (rev chars) as [|c r] eqn:Hr; [done|].
    by rewrite (Hfirst c r eq_refl).
  - rewrite N.eqb_refl. destruct (rev chars) as [|c r] eqn:Hr.
    + by rewrite <- (rev_involutive chars), Hr.
    + rewrite (Hfirst c r eq_refl). by rewrite <- Hr, rev_involutive.
  - rewrite !N.eqb_refl. apply rev_involutive.
Qed.

Lemma length_base64_encode (bytes : list Z) :
  length (base64_encode bytes) mod 4 = 0.
Proof.
  induction bytes as [| | |a b c rest IH] using list_ind3; try reflexivity.
  cbn [base64_encode length].
  change (S (S (S (S (length (base64_encode rest))))))
    with (4 + length (base64_encode rest)).
  by rewrite <- Nat.Div0.add_mod_idemp_l.
Qed.

Lemma base64_padding_cases (bytes : list Z) :
  base64_padding bytes = []
  \/ base64_padding bytes = [0x3D%N]
  \/ base64_padding bytes = [0x3D; 0x3D]%N.
Proof.
  induction bytes as [| | |a b c rest IH] using list_ind3; cbn; auto.
Qed.

Lemma atob_encoded (bytes : list Z) (base64 : jsstring) :
  Forall (fun b => (0 <= b < 256)%Z) bytes ->
  filter (fun c => negb (is_ascii_whitespace c)) base64 = base64_encode bytes ->
  atob base64 = Return (map Z.to_N bytes).
Proof.
  intros Hb Hfilter.
  pose proof (base64_digits_range bytes Hb) as Hd.
  unfold atob. rewrite Hfilter.
  pose proof (length_base64_encode bytes) as Hlen.
  rewrite base64_encode_digits in Hlen |- *.
  rewrite strip_padding_encoded;
    [| | apply base64_padding_cases | exact Hlen].
  2:{ apply Forall_forall. intros c Hc.
      apply list_elem_of_In, in_map_iff in Hc as (v & <- & Hv).
      rewrite Forall_forall in Hd.
      apply base64_char_facts, Hd. by apply list_elem_of_In. }
  rewrite sextets_digits by done.
  rewrite decode_base64_digits by done.
  destruct (length (map base64_char (base64_digits bytes)) mod 4 =? 1) eqn:Hone;
    [|done].
  exfalso. apply Nat.eqb_eq in Hone.
  destruct (base64_padding_cases bytes) as [Hp|[Hp|Hp]];
    rewrite Hp in Hlen; rewrite ?app_nil_r, ?length_app in Hlen;
    cbn [length] in Hlen.
  - lia.
  - rewrite <- Nat.Div0.add_mod_idemp_l, Hone in Hlen. discriminate Hlen.
  - rewrite <- Nat.Div0.add_mod_idemp_l, Hone in Hlen. discriminate Hlen.
Qed.

(** X11. [decodeBase64] inverts the base64 encoding: a string that, with
    its ASCII whitespace dropped, is the padded encoding of a sequence of
    bytes is decoded to exactly those bytes. *)
Theorem decodeBase64_inverts (bytes : list Z) (base64 : jsstring) :
  Forall (fun b => (0 <= b < 256)%Z) bytes ->
  filter (fun c => negb (is_ascii_whitespace c)) base64 = base64_encode bytes ->
  decodeBase64 base64 = Return bytes.
Proof.
  intros Hb Hfilter. unfold decodeBase64.
  rewrite (atob_encoded bytes base64 Hb Hfilter). cbn [bind]. f_equal.
  rewrite map_map. rewrite <- (map_id bytes) at 2.
  apply map_ext_in. intros b Hin.
  rewrite Forall_forall in Hb. specialize (Hb b (proj2 (list_elem_of_In _ _) Hin)).
  rewrite Z2N.id by lia. unfold to_uint. apply Z.mod_small. lia.
Qed.

Lemma decodeBase64_inverts_witness :
  decodeBase64 (lit "AAD/ fwCA") = Return [0; 0; 255; 127; 0; 128]%Z.
Proof.
  apply (decodeBase64_inverts [0; 0; 255; 127; 0; 128]%Z).
  - repeat constructor; lia.
  - reflexivity.
Defined.

(** A character outside the alphabet survives the two preparation steps. *)
Lemma strip_padding_keeps (data : jsstring) (c : N) :
  c ∈ data -> c <> 0x3D%N -> c ∈ strip_padding data.
Proof.
  intros Hc Hne. rewrite strip_padding_cases.
  destruct (length data mod 4 =? 0); [|done].
  assert (Hrev : c ∈ rev data) by (by apply list_elem_of_In, in_rev, list_elem_of_In; rewrite rev_involutive).
  destruct (rev data) as [|c1 r1]; [done|].
  destruct (N.eqb_spec c1 0x3D); [|done]. subst c1.
  apply elem_of_cons in Hrev as [->|Hrev]; [done|].
  assert (Hr1 : c ∈ rev r1) by (by apply list_elem_of_In, in_rev, list_elem_of_In; rewrite rev_involutive).
  destruct r1 as [|c2 r2]; [done|].
  destruct (N.eqb_spec c2 0x3D); [|done]. subst c2.
  apply elem_of_cons in Hrev as [->|Hrev]; [done|].
  apply list_elem_of_In. rewrite <- in_rev. by apply list_elem_of_In.
Qed.

Lemma sextets_invalid (data : jsstring) (c : N) :
  c ∈ data -> base64_value c = None -> sextets data = None.
Proof.
  induction data as [|d data IH]; intros Hc Hv; [by apply elem_of_nil in Hc|].
  cbn [sextets]. apply elem_of_cons in Hc as [<-|Hc].
  - by rewrite Hv.
  - rewrite (IH Hc Hv). by destruct (base64_value d).
Qed.

(** X12. A payload with a character that is neither of the base64
    alphabet, nor padding, nor ASCII whitespace makes [decodeBase64] throw
    the decoder's error, and [generateTTS] raises that error as it is: it
    is not the quota error. *)
Theorem generateTTS_invalid_payload gc t mode (b64 : jsstring) (c : N) :
  c ∈ b64 ->
  base64_value c = None ->
  c <> 0x3D%N ->
  is_ascii_whitespace c = false ->
  decodeBase64 b64 = Throw InvalidCharacterError
  /\ (gc (request_for t mode) = AudioEngine.Response (Some b64) ->
      AudioEngine.generateTTS gc (Some t) mode = Throw InvalidCharacterError
      /\ is_quota_error InvalidCharacterError = false).
Proof.
  intros Hc Hv Hpad Hws.
  assert (Hdec : decodeBase64 b64 = Throw InvalidCharacterError).
  { unfold decodeBase64, atob.
    set (data := strip_padding _).
    assert (Hdata : c ∈ data).
    { apply strip_padding_keeps; [|done].
      apply list_elem_of_filter. split; [|done]. by rewrite Hws. }
    rewrite (sextets_invalid data c Hdata Hv).
    by destruct (length data mod 4 =? 1). }
  split; [exact Hdec|]. intros Hgc.
  split; [|reflexivity].
  unfold AudioEngine.generateTTS, AudioEngine.generateTTS_try. cbn [bind].
  change (gc _) with (gc (request_for t mode)). rewrite Hgc. cbn [bind].
  destruct b64 as [|d b64]; [by apply elem_of_nil in Hc|].
  cbn [bind]. rewrite Hdec. reflexivity.
Qed.

Lemma generateTTS_invalid_payload_witness :
  decodeBase64 (lit "AA-A") = Throw InvalidCharacterError.
Proof.
  refine (proj1 (generateTTS_invalid_payload
    (fun _ => AudioEngine.Response None) [] STUDY (lit "AA-A") 0x2D%N
    _ _ _ _)).
  - apply list_elem_of_In. right. right. left. reflexivity.
  - reflexivity.
  - discriminate.
  - reflexivity.
Defined.

(** ** WAV: samples that are not finite *)

Lemma sample_finite (x : float) :
  truncate (scale_sample (clamp_sample x))
  = truncate (scale_sample (clamp_sample (Fin (finite_of x)))).
Proof. by destruct x as [|[]|q]. Qed.

Lemma write_samples_finite (pcm : list float) : forall view offset,
  write_samples view offset pcm
  = write_samples view offset (Fin <$> map finite_of pcm).
Proof.
  induction pcm as [|x pcm IH]; intros view offset; [done|].
  cbn [write_samples map fmap list_fmap]. unfold setInt16_le.
  rewrite <- sample_finite.
  destruct (view_store _ _ _) as [view'|e]; [|done].
  cbn [bind]. apply IH.
Qed.

Lemma length_wav_data (pcm : list Q) : length (wav_data pcm) = 2 * length pcm.
Proof.
  unfold wav_data. induction pcm as [|q pcm IH]; [done|].
  cbn [map concat length]. rewrite length_app, IH. cbn. lia.
Qed.

(** X13. [pcmToWav] returns on every input -- any samples, NaN and the
    infinities among them, and any sample rate: the file is the 44-byte
    header followed by two bytes per sample, with NaN written as silence
    and the infinities as full scale. *)
Theorem pcmToWav_total (pcmData : list float) (sampleRate : Z) :
  pcmToWav pcmData sampleRate
  = Return (new_Blob (wav_header (length pcmData) sampleRate
                        ++ wav_data (map finite_of pcmData))
              (lit "audio/wav"))
  /\ length (wav_header (length pcmData) sampleRate
             ++ wav_data (map finite_of pcmData))
     = 44 + 2 * length pcmData.
Proof.
  split.
  - unfold pcmToWav, new_ArrayBuffer.
    change (replicate (44 + length pcmData * 2) 0%Z)
      with ([] ++ replicate (44 + length pcmData * 2) 0%Z).
    EncoderFacts.store_string. EncoderFacts.store_u32.
    EncoderFacts.store_string. EncoderFacts.store_string.
    EncoderFacts.store_u32. EncoderFacts.store_u16. EncoderFacts.store_u16.
    EncoderFacts.store_u32. EncoderFacts.store_u32. EncoderFacts.store_u16.
    EncoderFacts.store_u16. EncoderFacts.store_string. EncoderFacts.store_u32.
    cbn [length lit map list_ascii_of_string].
    replace (44 + length pcmData * 2 - 4 - 4 - 4 - 4 - 4 - 2 - 2 - 4 - 4 - 2 - 2 - 4 - 4)
      with (length (map finite_of pcmData) * 2) by (rewrite length_map; lia).
    rewrite write_samples_finite.
    rewrite EncoderFacts.write_samples_cursor by reflexivity.
    cbn [bind]. do 2 f_equal. unfold wav_header.
    rewrite <- !app_assoc. cbn [app].
    replace (Z.of_nat (length pcmData) * 2)%Z
      with (2 * Z.of_nat (length pcmData))%Z by lia.
    reflexivity.
  - rewrite length_app, length_wav_data, length_map. reflexivity.
Qed.

(** ** From the generator's samples back to 16 bits *)

Lemma to_int16_id (z : Z) : (-32768 <= z <= 32767)%Z -> to_int16 z = z.
Proof.
  intros Hz. unfold to_int16.
  destruct (Z.ltb_spec (z mod 65536) 32768); Z.div_mod_to_equations; lia.
Qed.

(** X14. The 16-bit value [v] that [generateTTS] turned into the sample
    [v / 32768] does not always come back when the encoders quantise that
    sample: zero and the negative values do, every positive value comes
    back one less. *)
Theorem requantise (v : Z) :
  (-32768 <= v <= 32767)%Z ->
  int16_of_sample (float_div (float_of_Z v) 32768)
  = if (v <=? 0)%Z then v else (v - 1)%Z.
Proof.
  intros Hv. unfold int16_of_sample, float_div, float_of_Z.
  rewrite EncoderFacts.truncate_scale_clamp.
  assert (Hq : quantise (inject_Z v / inject_Z 32768)
               = if (v <=? 0)%Z then v else (v - 1)%Z).
  { unfold quantise, clamp.
    destruct (Qlt_le_dec (inject_Z v / inject_Z 32768) (-1)) as [Hlo|_].
    { unfold Qlt in Hlo. cbn in Hlo. lia. }
    destruct (Qlt_le_dec 1 (inject_Z v / inject_Z 32768)) as [Hhi|_].
    { unfold Qlt in Hhi. cbn in Hhi. lia. }
    destruct (Qlt_le_dec (inject_Z v / inject_Z 32768) 0) as [Hneg|Hpos].
    - unfold Qlt in Hneg. cbn in Hneg. cbn.
      destruct (Z.leb_spec v 0); [|lia].
      rewrite Z.mul_1_r. apply Z.quot_mul. lia.
    - unfold Qle in Hpos. cbn in Hpos. cbn. rewrite Z.mul_1_r.
      rewrite Z.quot_div_nonneg by lia.
      destruct (Z.leb_spec v 0).
      + assert (v = 0%Z) as -> by lia. reflexivity.
      + symmetry. apply (Z.div_unique _ _ _ (32768 - v)); lia. }
  rewrite Hq. apply to_int16_id. destruct (Z.leb_spec v 0); lia.
Qed.

Lemma requantise_witness :
  int16_of_sample (float_div (float_of_Z 1000) 32768) = 999%Z.
Proof. apply (requantise 1000). lia. Defined.

(** ** MP3: the block loop *)

Lemma concat_nonempty (l : list (list Z)) :
  concat (filter (fun b => 0 < length b) l) = concat l.
Proof.
  induction l as [|b l IH]; [done|].
  rewrite filter_cons. destruct (decide (0 < length b)) as [Hb|Hb]; cbn [concat].
  - by rewrite IH.
  - destruct b; [by rewrite IH | cbn in Hb; lia].
Qed.

Lemma encode_blocks_feed (lame : lamejs) (fuel : nat) :
  forall (enc : encoder lame) (samples : list Z) (mp3Data : list (list Z)),
    encode_blocks fuel lame enc samples mp3Data
    = (r <- feed lame enc (blocks_go fuel 1152 samples) ;;
       Return (fst r, mp3Data ++ filter (fun b => 0 < length b) (snd r))).
Proof.
  induction fuel as [|fuel IH]; intros enc samples mp3Data.
  - destruct samples; cbn; by rewrite app_nil_r.
  - destruct samples as [|s samples]; [cbn; by rewrite app_nil_r|].
    cbn [encode_blocks blocks_go feed].
    destruct (encodeBuffer lame enc (take 1152 (s :: samples))) as [[enc' out]|e];
      [|done].
    cbn [bind fst snd]. rewrite IH.
    destruct (feed lame enc' _) as [[enc'' outs]|e]; [|done].
    cbn [bind fst snd]. do 2 f_equal. rewrite filter_cons.
    destruct (Nat.ltb_spec 0 (length out)), (decide (0 < length out)); try lia.
    + by rewrite <- app_assoc.
    + done.
Qed.

Lemma blocks_go_spec {A} (n fuel : nat) : forall l : list A,
  0 < n ->
  length l <= fuel ->
  concat (blocks_go fuel n l) = l
  /\ Forall (fun b => 0 < length b <= n) (blocks_go fuel n l).
Proof.
  induction fuel as [|fuel IH]; intros l Hn Hl.
  - destruct l; [by split | cbn in Hl; lia].
  - destruct l as [|a l]; [by split|].
    cbn [blocks_go concat].
    destruct (IH (drop n (a :: l)) Hn) as [Hcat Hall].
    { rewrite length_drop. cbn [length] in *. lia. }
    rewrite Hcat, take_drop. split; [done|].
    constructor; [|done]. rewrite length_take. cbn [length]. lia.
Qed.

(** X15. [pcmToMp3] with the encoder library loaded: the samples are
    quantised to 16 bits, cut into consecutive blocks of 1152 (the last
    one shorter, none empty), the blocks are fed in order to one encoder,
    and the file is everything the encoder returned followed by what
    [flush] returns; a throw of the encoder is the throw of [pcmToMp3].
    Without the library the result is the WAV file. *)
Theorem pcmToMp3_blocks (lame : lamejs) (pcmData : list float)
    (sampleRate : Z) :
  pcmToMp3 (Some lame) pcmData sampleRate
  = (r <- feed lame (new_Mp3Encoder lame 1 sampleRate 128)
            (blocks 1152 (map int16_of_sample pcmData)) ;;
     mp3buf <- flush lame (fst r) ;;
     Return (new_Blob (concat (snd r) ++ mp3buf) (lit "audio/mp3")))
  /\ concat (blocks 1152 (map int16_of_sample pcmData))
     = map int16_of_sample pcmData
  /\ Forall (fun b => 0 < length b <= 1152)
       (blocks 1152 (map int16_of_sample pcmData))
  /\ Forall (fun v => (-32768 <= v <= 32767)%Z) (map int16_of_sample pcmData)
  /\ pcmToMp3 None pcmData sampleRate = pcmToWav pcmData sampleRate.
Proof.
  split; [|split; [|split; [|split; [|reflexivity]]]].
  - unfold pcmToMp3, blocks.
    change (map (fun x => to_int16 (truncate (scale_sample (clamp_sample x)))) pcmData)
      with (map int16_of_sample pcmData).
    rewrite encode_blocks_feed.
    destruct (feed lame _ _) as [[enc outs]|e]; [|done].
    cbn [bind fst snd app].
    destruct (flush lame enc) as [mp3buf|e]; [|done].
    cbn [bind]. f_equal. f_equal.
    destruct (Nat.ltb_spec 0 (length mp3buf)).
    + by rewrite concat_app, concat_nonempty; cbn; rewrite app_nil_r.
    + destruct mp3buf; [|cbn in *; lia].
      by rewrite concat_nonempty, app_nil_r.
  - by apply blocks_go_spec; lia.
  - by apply blocks_go_spec; lia.
  - apply Forall_forall. intros v Hv.
    apply list_elem_of_In, in_map_iff in Hv as (x & <- & _).
    apply GeneratorFacts.to_int16_range.
Qed.

End CodecFacts.

(* ===================================================================== *)
(** * Text: what the normaliser and the segmenter keep *)
(* ===================================================================== *)

Module TextFacts.
Import Js Utils Types Eff Contract Reference RegexFacts.
Import SegmenterFacts NormaliserFacts.

(** ** The normal form, position by position *)

Lemma tidy_lookup (s : jsstring) : forall i c,
  tidy s -> s !! i = Some c -> is_space c = true ->
  c = 0x20%N /\ no_leading_space (drop (S i) s).
Proof.
  induction s as [|d s IH]; intros i c Htidy Hi Hc; [done|].
  destruct Htidy as [Hd Htidy]. destruct i as [|i].
  - injection Hi as ->. cbn [drop]. rewrite drop_0. by apply Hd.
  - cbn [drop]. by apply IH.
Qed.

Lemma no_bullet_gap_lookup (s : jsstring) : forall i c,
  no_bullet_gap s -> s !! i = Some c -> is_bullet c = true ->
  no_leading_space (drop (S i) s).
Proof.
  induction s as [|d s IH]; intros i c Hgap Hi Hc; [done|].
  destruct Hgap as [Hd Hgap]. destruct i as [|i].
  - injection Hi as ->. cbn [drop]. rewrite drop_0. by apply Hd.
  - cbn [drop]. by apply (IH i c).
Qed.

Lemma no_leading_space_drop (s : jsstring) (i : nat) (d : N) :
  no_leading_space (drop i s) -> s !! i = Some d -> is_space d = false.
Proof.
  intros Hlead Hd. rewrite <- (take_drop_middle s i d Hd) in Hlead.
  rewrite drop_app_length' in Hlead; [done|].
  rewrite length_take. apply lookup_lt_Some in Hd. lia.
Qed.

Lemma last_lookup (s : jsstring) (i : nat) (c : N) :
  s !! i = Some c -> s !! S i = None -> rev s = c :: rev (take i s).
Proof.
  intros Hc Hnone. rewrite <- (take_drop_middle s i c Hc) at 1.
  apply lookup_ge_None in Hnone.
  rewrite (drop_ge s (S i)) by done. by rewrite rev_app_distr.
Qed.

(** X16. What [cleanTextForTTS] returns is never longer than the text;
    it holds no markdown sign and no white space but U+0020; every space
    in it stands alone between two characters that are not white space
    (so the text neither starts nor ends with one); and no list bullet in
    it is followed by white space. *)
Theorem cleanTextForTTS_output (text : jsstring) :
  length (cleanTextForTTS text) <= length text
  /\ Forall (fun c => is_markdown c = false
                      /\ (is_space c = true -> c = 0x20%N))
       (cleanTextForTTS text)
  /\ (forall i,
        cleanTextForTTS text !! i = Some 0x20%N ->
        (exists j a, i = S j /\ cleanTextForTTS text !! j = Some a
                     /\ is_space a = false)
        /\ exists b, cleanTextForTTS text !! S i = Some b
                     /\ is_space b = false)
  /\ (forall i c d,
        cleanTextForTTS text !! i = Some c -> is_bullet c = true ->
        cleanTextForTTS text !! S i = Some d -> is_space d = false).
Proof.
  destruct (cleanTextForTTS_normal text)
    as (Hmarkdown & Htidy & Hbullets & Hlead & Htrail).
  split; [|split; [|split]].
  - unfold cleanTextForTTS, replace_all.
    set (o1 := replace_go _ re_markdown _ None text).
    assert (H1 : length o1 <= length text).
    { apply replace_go_length. intros prev s q rest.
      rewrite exec_at_markdown. destruct s as [|c s]; [done|].
      destruct (is_markdown c); [|done]. intros [= _ <-]. cbn. lia. }
    set (o2 := replace_go _ re_link _ None o1).
    assert (H2 : length o2 <= length o1).
    { apply replace_go_length. intros prev s q rest Hm.
      apply exec_at_link_consumes in Hm. cbn. lia. }
    pose proof (replace_go_length re_blank_lines (lit ". ")
                  exec_at_blank_lines_consumes (S (length o2)) None o2) as H3.
    set (o3 := replace_go _ re_blank_lines _ None o2) in *.
    pose proof (replace_go_length re_bullet (lit ", ")
                  exec_at_bullet_consumes (S (length o3)) None o3) as H4.
    set (o4 := replace_go _ re_bullet _ None o3) in *.
    pose proof (replace_go_length re_spaces (lit " ")
                  exec_at_spaces_consumes (S (length o4)) None o4) as H5.
    set (o5 := replace_go _ re_spaces _ None o4) in *.
    pose proof (trim_length o5). lia.
  - apply Forall_lookup. intros i c Hc. split.
    + rewrite Forall_lookup in Hmarkdown. by apply (Hmarkdown i).
    + intros Hs. by apply (tidy_lookup _ i c Htidy Hc).
  - generalize dependent (cleanTextForTTS text).
    intros o Hmarkdown Htidy Hbullets Hlead Htrail i Hi.
    destruct (tidy_lookup o i _ Htidy Hi eq_refl) as [_ Hnext]. split.
    + destruct i as [|j].
      { destruct o as [|c o]; [done|]. injection Hi as ->. done. }
      destruct (o !! j) as [a|] eqn:Ha.
      2:{ apply lookup_ge_None in Ha. apply lookup_lt_Some in Hi. lia. }
      exists j, a. split; [done|]. split; [done|].
      destruct (is_space a) eqn:Hsa; [|done].
      destruct (tidy_lookup o j a Htidy Ha Hsa) as [_ Hgap].
      pose proof (no_leading_space_drop o (S j) _ Hgap Hi) as Habs.
      vm_compute in Habs. discriminate Habs.
    + destruct (o !! S i) as [b|] eqn:Hb.
      * exists b. split; [done|]. by apply (no_leading_space_drop o (S i)).
      * exfalso. unfold no_trailing_space in Htrail.
        rewrite (last_lookup o i _ Hi Hb) in Htrail. done.
  - intros i c d Hc Hbullet Hd.
    apply (no_leading_space_drop (cleanTextForTTS text) (S i)); [|done].
    by apply (no_bullet_gap_lookup _ i c).
Qed.

(** X17. The texts [cleanTextForTTS] leaves as they are, are exactly
    the texts in normal form without an inline link: no markdown sign,
    white space only as single spaces, no bullet followed by white space,
    no white space at either end, and the link pattern matching
    nowhere. *)
Theorem cleanTextForTTS_fixed_points (text : jsstring) :
  cleanTextForTTS text = text
  <-> (Forall (fun c => is_markdown c = false) text
       /\ tidy text
       /\ no_bullet_gap text
       /\ no_leading_space text
       /\ no_trailing_space text
       /\ link_free text).
Proof.
  split.
  - intros Hfixed.
    pose proof (cleanTextForTTS_normal text) as Hnormal.
    pose proof (cleanTextForTTS_fixed_point_link_free text) as Hlinks.
    rewrite !Hfixed in Hnormal, Hlinks.
    destruct Hnormal as (? & ? & ? & ? & ?). by repeat split; auto.
  - intros (Hmarkdown & Htidy & Hbullets & Hlead & Htrail & Hlinks).
    unfold cleanTextForTTS, replace_all.
    rewrite (replace_go_no_match _ re_markdown) by (by apply no_match_markdown).
    rewrite (replace_go_no_match _ re_link) by (by apply no_match_link).
    rewrite (replace_go_no_match _ re_blank_lines)
      by (by apply no_match_blank_lines).
    rewrite (replace_go_no_match _ re_bullet) by (by apply no_match_bullet).
    rewrite collapse_tidy by done.
    by apply trim_id.
Qed.

(** ** What the segmenter keeps *)

Lemma visible_app (a b : jsstring) : visible (a ++ b) = visible a ++ visible b.
Proof. apply filter_app. Qed.

Lemma visible_spaces (run : jsstring) :
  forallb is_space run = true -> visible run = [].
Proof.
  induction run as [|c run IH]; [done|]. cbn [forallb].
  intros [Hc Hrun]%andb_true_iff. unfold visible, jsstring in *.
  rewrite filter_cons_False by (by rewrite Hc). by apply IH.
Qed.

Lemma visible_nil_spaces (u : jsstring) :
  visible u = [] -> forallb is_space u = true.
Proof.
  induction u as [|c u IH]; [done|]. unfold visible, jsstring in *.
  rewrite filter_cons.
  destruct (decide (is_space c = false)) as [Hc|Hc]; [done|].
  intros Hu. cbn [forallb]. rewrite (IH Hu). by destruct (is_space c).
Qed.

Lemma blank_visible (u : jsstring) : blank u <-> visible u = [].
Proof.
  split.
  - intros Hblank. apply visible_spaces.
    apply forallb_forall. intros c Hc.
    destruct (is_space c) eqn:Hs; [done|]. exfalso.
    by apply (not_blank_intro u c (proj2 (list_elem_of_In _ _) Hc) Hs).
  - intros Hv. by apply blank_intro, visible_nil_spaces.
Qed.

Lemma split_go_visible (fuel : nat) : forall prev cur s,
  concat (visible <$> split_go fuel re_sentence_gap prev cur s)
  = visible (rev cur ++ s).
Proof.
  induction fuel as [|fuel IH]; intros prev cur s.
  - cbn. by rewrite app_nil_r.
  - destruct s as [|c s]; [cbn; by rewrite !app_nil_r|].
    cbn [split_go]. rewrite exec_at_sentence_gap.
    assert (Hskip : concat (visible <$> split_go fuel re_sentence_gap (Some c)
                                         (c :: cur) s)
                    = visible (rev cur ++ c :: s)).
    { rewrite IH. cbn [rev]. by rewrite <- app_assoc. }
    destruct prev as [p|]; [|exact Hskip].
    destruct (is_terminator p && is_space c) eqn:Hgap; [|exact Hskip].
    apply andb_true_iff in Hgap as [_ Hc].
    pose proof (span_end_length is_space (Some c) s) as Hlen.
    destruct (span_end_suffix is_space (Some c) s) as (run & Hrun & Hspaces).
    destruct (span_end is_space (Some c) s) as [prev' rest]. cbn [snd] in *.
    replace (length rest <? length (c :: s)) with true
      by (symmetry; apply Nat.ltb_lt; cbn [length]; lia).
    cbn [fmap list_fmap concat]. rewrite IH. cbn [rev app].
    rewrite Hrun, !visible_app.
    change (c :: run ++ rest) with ([c] ++ run ++ rest).
    rewrite !visible_app, (visible_spaces run Hspaces).
    rewrite (visible_spaces [c]) by (cbn; by rewrite Hc). reflexivity.
Qed.

Lemma filter_blank_visible (l : list jsstring) :
  concat (visible <$> filter (fun s => 0 < length (trim s)) l)
  = concat (visible <$> l).
Proof.
  induction l as [|u l IH]; [done|]. rewrite filter_cons.
  destruct (decide (0 < length (trim u))) as [Hu|Hu];
    cbn [fmap list_fmap concat]; rewrite IH; [done|].
  assert (Hblank : blank u) by (unfold blank; destruct (trim u); [done | cbn in Hu; lia]).
  apply blank_visible in Hblank. by rewrite Hblank.
Qed.

(** X18. [splitIntoSentences] loses nothing but white space: the
    characters of the units that are not white space, read in order, are
    those of the text; and it returns no unit exactly when the text is
    blank. *)
Theorem splitIntoSentences_content (text : jsstring) :
  concat (visible <$> splitIntoSentences text) = visible text
  /\ (splitIntoSentences text = [] <-> blank text).
Proof.
  assert (Hcontent : concat (visible <$> splitIntoSentences text) = visible text).
  { unfold splitIntoSentences. rewrite filter_blank_visible.
    unfold split. destruct text as [|c text]; [by vm_compute|].
    by rewrite split_go_visible. }
  split; [exact Hcontent|]. split.
  - intros Hnone. rewrite Hnone in Hcontent. by apply blank_visible.
  - intros Hblank. apply blank_visible in Hblank. rewrite Hblank in Hcontent.
    destruct (splitIntoSentences text) as [|u units] eqn:Hunits; [done|].
    exfalso.
    assert (Hu : u ∈ splitIntoSentences text) by (rewrite Hunits; by left).
    unfold splitIntoSentences in Hu. apply list_elem_of_filter in Hu as [Hu _].
    cbn [fmap list_fmap concat] in Hcontent.
    apply app_eq_nil in Hcontent as [Hvis _].
    apply blank_visible in Hvis. unfold blank in Hvis. rewrite Hvis in Hu.
    cbn in Hu. lia.
Qed.

(** ** The download name *)

Lemma underscores_no_space (fuel : nat) : forall prev s,
  length s < fuel ->
  Forall (fun c => is_space c = false)
    (replace_go fuel re_spaces (lit "_") prev s).
Proof.
  induction fuel as [|fuel IH]; intros prev s Hlen; [lia|].
  destruct s as [|c s].
  - rewrite replace_go_nil; [done | by rewrite exec_at_spaces].
  - destruct (is_space c) eqn:Hc.
    + pose proof (span_end_length is_space (Some c) s) as Hrest.
      destruct (span_end is_space (Some c) s) as [q rest] eqn:Hspan.
      rewrite (replace_go_match fuel _ _ prev (c :: s) q rest);
        [| by rewrite exec_at_spaces, Hc, Hspan | cbn in *; lia].
      apply Forall_app. split; [by repeat constructor|].
      apply IH. cbn in *. lia.
    + rewrite replace_go_skip by (by rewrite exec_at_spaces, Hc).
      constructor; [done|]. apply IH. cbn in Hlen. lia.
Qed.

Lemma no_match_spaces (s : jsstring) : forall prev,
  Forall (fun c => is_space c = false) s -> no_match re_spaces prev s.
Proof.
  induction s as [|c s IH]; intros prev Hs.
  - split; [by rewrite exec_at_spaces | done].
  - inversion Hs as [|? ? Hc Hs']; subst. split.
    + by rewrite exec_at_spaces, Hc.
    + by apply IH.
Qed.


End TextFacts.

(* ===================================================================== *)
(** * The library on screen and the store behind it *)
(* ===================================================================== *)

Module LibraryFacts.
Import Js Utils Types Eff Storage App Actions Reference.

(** ** The sort *)

Lemma sort_insert_perm {A} (comparefn : A -> A -> Z) (x : A) (l : list A) :
  sort_insert comparefn x l ≡ₚ x :: l.
Proof.
  induction l as [|y l IH]; [done|]. cbn [sort_insert].
  destruct (comparefn x y <=? 0)%Z; [done|].
  rewrite IH. apply Permutation_swap.
Qed.

Lemma Array_sort_perm {A} (comparefn : A -> A -> Z) (l : list A) :
  Array_sort comparefn l ≡ₚ l.
Proof.
  induction l as [|x l IH]; [done|]. unfold Array_sort in *. cbn [foldr].
  by rewrite sort_insert_perm, IH.
Qed.

Lemma newest_first_cons (x : LibraryItem) (l : list LibraryItem) :
  newest_first (x :: l)
  <-> (forall b, b ∈ l -> (timestamp b <= timestamp x)%Z) /\ newest_first l.
Proof.
  split.
  - intros Hs. split.
    + intros b [j Hj]%list_elem_of_lookup.
      apply (Hs 0 (S j) x b); [lia|done|done].
    + intros i j a b Hij Ha Hb. apply (Hs (S i) (S j) a b); [lia|done|done].
  - intros [Hx Hl] i j a b Hij Ha Hb.
    destruct i as [|i], j as [|j]; try lia.
    + cbn in Ha, Hb. injection Ha as <-. injection Hb as <-. lia.
    + cbn in Ha, Hb. injection Ha as <-. apply Hx.
      by apply list_elem_of_lookup_2 in Hb.
    + apply (Hl i j a b); [lia|done|done].
Qed.

Lemma sort_insert_newest (x : LibraryItem) (l : list LibraryItem) :
  newest_first l -> newest_first (sort_insert by_newest x l).
Proof.
  induction l as [|y l IH]; intros Hl.
  - apply newest_first_cons. split; [|done]. intros b Hb.
    by apply elem_of_nil in Hb.
  - apply newest_first_cons in Hl as [Hy Hl]. cbn [sort_insert].
    unfold by_newest at 1. destruct (Z.leb_spec (timestamp y - timestamp x) 0).
    + apply newest_first_cons. split.
      * intros b [->|Hb]%elem_of_cons; [lia|]. specialize (Hy b Hb). lia.
      * by apply newest_first_cons.
    + apply newest_first_cons. split; [|by apply IH].
      intros b Hb. rewrite sort_insert_perm in Hb.
      apply elem_of_cons in Hb as [->|Hb]; [lia | by apply Hy].
Qed.

Lemma Array_sort_newest (l : list LibraryItem) :
  newest_first (Array_sort by_newest l).
Proof.
  induction l as [|x l IH]; [by intros [|i] j a b|].
  by apply sort_insert_newest.
Qed.

(** ** The store, seen from the component *)

Lemma getItems_served (st : StorageService) :
  db st = true \/ fails (indexedDB st) ReqOpen = false ->
  consistent st ->
  fails (indexedDB st) ReqGetAll = false ->
  exists st1,
    getItems st = (Return (map snd (map_to_list (stored st))), st1)
    /\ stored st1 = stored st.
Proof.
  intros Hopen Hwf Hget.
  destruct (StoreFacts.request_served ReqGetAll
              (lit "Failed to retrieve library")
              (fun items => items) st Hopen Hwf Hget)
    as (st1 & Hrun & Hstored & _).
  exists st1. rewrite StoreFacts.getItems_run. unfold mbind at 1.
  rewrite Hrun. unfold mbind, get, ret. by rewrite Hstored.
Qed.

Lemma stored_values (items : gmap (list N) LibraryItem) (item : LibraryItem) :
  item ∈ map snd (map_to_list items) <-> exists k, items !! k = Some item.
Proof.
  rewrite list_elem_of_In, in_map_iff. split.
  - intros ([k y] & <- & Hin). exists k.
    by apply elem_of_map_to_list, list_elem_of_In.
  - intros [k Hk]. exists (k, item). split; [done|].
    by apply list_elem_of_In, elem_of_map_to_list.
Qed.





End LibraryFacts.

(* ===================================================================== *)
(** * A generation run, from the button to the library *)
(* ===================================================================== *)

Module GenerateFacts.
Import Js Utils Types Eff Contract App Reference AppFacts.

#[local] Arguments lit : simpl never.
#[local] Arguments AudioEngine.generateTTS : simpl never.
#[local] Arguments AudioEngine.playBuffer : simpl never.
#[local] Arguments AudioEngine.initContext : simpl never.
#[local] Arguments splitIntoSentences : simpl never.
#[local] Arguments percent : simpl never.
#[local] Arguments pcmToMp3 : simpl never.

Section Run.

Variable generateContent :
  nat -> AudioEngine.GenerateContentParameters -> AudioEngine.GenerateContentResult.
Variable window_lamejs : option lamejs.
Variable randomUUID : jsstring.
Variable now : Z.

Lemma setProgress_id (a : State) : a = setProgress (progress a) a.
Proof. by destruct a. Qed.

(** Projections of a world, as equations: rewriting with them keeps the
    engine's methods folded. *)
Lemma world_audioEngine a e s c :
  audioEngine {| app := a; audioEngine := e; storage := s; calls := c |} = e.
Proof. reflexivity. Qed.

Lemma on_app_audioEngine f w : audioEngine (on_app f w) = audioEngine w.
Proof. reflexivity. Qed.

(** The loop sends one request per round and touches nothing but the
    progress bar. *)
Lemma fetch_remaining_state k : forall i sentences m chunks total w c w',
  fetch_remaining generateContent k i sentences m chunks total w = (c, w') ->
  audioEngine w' = audioEngine w
  /\ storage w' = storage w
  /\ (exists p, app w' = setProgress p (app w))
  /\ (forall r, c = Return r -> calls w' = calls w + k)
  /\ calls w <= calls w' <= calls w + k.
Proof.
  induction k as [|k IH]; intros i sentences m chunks total w c w' Hrun.
  - inversion Hrun; subst. repeat split; [|intros; lia|lia|lia].
    exists (progress (app w')). apply setProgress_id.
  - simpl in Hrun. unfold mbind, call_generateTTS in Hrun.
    destruct (AudioEngine.generateTTS _ _ _) as [chunk|e].
    + simpl in Hrun. apply IH in Hrun as (He & Hs & [p Hp] & Hc & Hb).
      cbn in He, Hs, Hp, Hc, Hb. repeat split; try done; try lia.
      * by exists p.
      * intros r Hr. rewrite (Hc r Hr). lia.
    + inversion Hrun; subst. cbn. repeat split; [|done|lia|lia].
      exists (progress (app w)). apply setProgress_id.
Qed.

(** The loop stops at the first call that throws. *)
Lemma fetch_remaining_throws k : forall j i sentences m chunks total w e,
  j < k ->
  (forall j', j' < j ->
     exists b, AudioEngine.generateTTS (generateContent (calls w + j'))
                 (sentences !! (i + j')) m = Return b) ->
  AudioEngine.generateTTS (generateContent (calls w + j))
    (sentences !! (i + j)) m = Throw e ->
  exists w',
    fetch_remaining generateContent k i sentences m chunks total w
    = (Throw e, w')
    /\ calls w' = calls w + S j.
Proof.
  induction k as [|k IH]; intros j i sentences m chunks total w e Hj Hbefore Hthrow;
    [lia|].
  simpl. unfold mbind, call_generateTTS. destruct j as [|j].
  - rewrite !Nat.add_0_r in Hthrow. rewrite Hthrow. eexists.
    split; [reflexivity|]. cbn. lia.
  - destruct (Hbefore 0 ltac:(lia)) as [b Hb].
    rewrite !Nat.add_0_r in Hb. rewrite Hb. simpl.
    match goal with
    | |- context [fetch_remaining _ _ _ _ _ _ _ ?w1] =>
        destruct (IH j (S i) sentences m (chunks ++ [b]) (total + length b)
                    w1 e) as (w' & Hrun & Hcalls)
    end; [lia| | |].
    + intros j' Hj'. destruct (Hbefore (S j') ltac:(lia)) as [b' Hb'].
      exists b'. simpl.
      replace (calls w + S j') with (S (calls w + j')) in Hb' by lia.
      replace (i + S j') with (S (i + j')) in Hb' by lia. exact Hb'.
    + simpl.
      replace (calls w + S j) with (S (calls w + j)) in Hthrow by lia.
      replace (i + S j) with (S (i + j)) in Hthrow by lia. exact Hthrow.
    + rewrite Hrun. eexists. split; [reflexivity|].
      rewrite Hcalls. cbn. lia.
Qed.

Ltac run_first H :=
  unfold generate_finalPCM, mbind, call_generateTTS, on_engine, modify, lift,
    ret, AudioEngine.decodeToBuffer in H;
  cbn [fst snd app audioEngine storage calls on_app] in H.

(** What a run that reaches the merged buffer has done on the way. *)
Lemma generate_finalPCM_state a0 w pcm w' :
  generate_finalPCM generateContent a0 w = (Return pcm, w') ->
  splitIntoSentences (text a0) <> [] ->
  exists first p f,
    AudioEngine.generateTTS (generateContent (calls w))
      (splitIntoSentences (text a0) !! 0) (mode a0) = Return first
    /\ calls w' = calls w + length (splitIntoSentences (text a0))
    /\ audioEngine w'
       = AudioEngine.playBuffer
           {| AudioEngine.channelData := first; AudioEngine.sampleRate := 24000 |}
           (playbackRate (audioState a0)) (Some 0)
           (AudioEngine.initContext (audioEngine w))
    /\ storage w' = storage w
    /\ app w' = setProgress p (setAudioState f (app w))
    /\ forall prev,
         isPlaying (f prev) = true /\ isPaused (f prev) = false
         /\ currentTitle (f prev) = title a0
         /\ currentVoice (f prev) = AudioEngine.voice_of (mode a0)
         /\ playbackRate (f prev) = playbackRate prev.
Proof.
  intros Hrun Hne. run_first Hrun.
  destruct (AudioEngine.generateTTS _ _ _) as [first|e] eqn:Hfirst;
    [|discriminate Hrun].
  destruct (length first =? 0); [discriminate Hrun|].
  exists first.
  set (shown := fun (first : list float) (prev : AudioState) =>
    {| isPlaying := true; isPaused := false;
       currentTime := currentTime prev;
       duration := inject_Z (Z.of_nat (length first)) / inject_Z 24000;
       playbackRate := playbackRate prev;
       currentTitle := title a0;
       currentVoice := AudioEngine.voice_of (mode a0) |}).
  destruct (Nat.ltb_spec 1 (length (splitIntoSentences (text a0)))) as [Hn|Hn].
  - destruct (fetch_remaining _ _ _ _ _ _ _ _) as [[r|e] w2] eqn:Hloop;
      [|discriminate Hrun].
    apply fetch_remaining_state in Hloop as (He & Hs & [p Hp] & Hc & _).
    specialize (Hc r eq_refl).
    rewrite on_app_audioEngine, !world_audioEngine in He.
    cbn in Hs, Hp, Hc.
    destruct (merge_chunks _ _ _); [|discriminate Hrun].
    injection Hrun as _ <-.
    exists p, (shown first). split; [reflexivity|].
    split; [rewrite Hc; lia|]. split; [exact He|]. split; [exact Hs|].
    split; [by rewrite Hp|]. intros prev. by cbn.
  - destruct (merge_chunks _ _ _); [|discriminate Hrun].
    injection Hrun as _ <-. cbn.
    exists (percent 1 (length (splitIntoSentences (text a0)))), (shown first).
    split; [reflexivity|].
    assert (length (splitIntoSentences (text a0)) = 1) as ->.
    { destruct (splitIntoSentences (text a0)); [done | cbn in *; lia]. }
    split; [lia|]. split; [reflexivity|]. split; [reflexivity|].
    split; [reflexivity|]. intros prev. by cbn.
Qed.

Lemma setAudioState_id (a : State) :
  a = setProgress (progress a) (setAudioState (fun prev => prev) a).
Proof. by destruct a. Qed.

(** Whatever its outcome, the first part of a run leaves the store, the
    text, the library, the error and the busy flag alone, and sends at
    least one request and at most one per sentence. *)
Lemma generate_finalPCM_frame a0 w c w' :
  generate_finalPCM generateContent a0 w = (c, w') ->
  storage w' = storage w
  /\ (exists p f, app w' = setProgress p (setAudioState f (app w)))
  /\ calls w < calls w'
  /\ calls w' <= calls w + Nat.max 1 (length (splitIntoSentences (text a0))).
Proof.
  intros Hrun. run_first Hrun.
  destruct (AudioEngine.generateTTS _ _ _) as [first|e].
  2:{ injection Hrun as _ <-. cbn. split; [done|].
      split; [|lia]. eexists _, _. apply setAudioState_id. }
  destruct (length first =? 0).
  { injection Hrun as _ <-. cbn. split; [done|].
    split; [|lia]. eexists _, _. apply setAudioState_id. }
  destruct (1 <? length (splitIntoSentences (text a0))).
  - destruct (fetch_remaining _ _ _ _ _ _ _ _) as [[r|e] w2] eqn:Hloop;
      apply fetch_remaining_state in Hloop as (_ & Hs & [p Hp] & _ & Hb);
      cbn in Hs, Hp, Hb.
    + assert (w' = w2) as -> by (destruct (merge_chunks _ _ _); by injection Hrun).
      split; [done|]. split; [|lia]. eexists p, _. by rewrite Hp.
    + injection Hrun as _ <-.
      split; [done|]. split; [|lia]. eexists p, _. by rewrite Hp.
  - assert (w' = snd (merge_chunks (replicate (length first) (Fin 0)) 0 [first],
                      on_app (setProgress (percent 1 (length (splitIntoSentences (text a0)))))
                        {| app := setAudioState
                              (fun prev =>
                                 {| isPlaying := true; isPaused := false;
                                    currentTime := currentTime prev;
                                    duration := inject_Z (Z.of_nat (length first)) / inject_Z 24000;
                                    playbackRate := playbackRate prev;
                                    currentTitle := title a0;
                                    currentVoice := AudioEngine.voice_of (mode a0) |})
                              (app w);
                           audioEngine :=
                             AudioEngine.playBuffer
                               {| AudioEngine.channelData := first;
                                  AudioEngine.sampleRate := 24000 |}
                               (playbackRate (audioState a0)) (Some 0)
                               (AudioEngine.initContext (audioEngine w));
                           storage := storage w;
                           calls := S (calls w) |})) as ->.
    { destruct (merge_chunks _ _ _); by injection Hrun. }
    cbn [snd on_app storage app calls]. split; [done|].
    split; [|lia]. eexists _, _. reflexivity.
Qed.

(** A run stops at the first call that throws. *)
Lemma generate_finalPCM_throws a0 w i e :
  i < length (splitIntoSentences (text a0)) ->
  (forall j, j < i ->
     exists b, AudioEngine.generateTTS (generateContent (calls w + j))
                 (splitIntoSentences (text a0) !! j) (mode a0) = Return b) ->
  (forall b, 0 < i ->
     AudioEngine.generateTTS (generateContent (calls w))
       (splitIntoSentences (text a0) !! 0) (mode a0) = Return b -> b <> []) ->
  AudioEngine.generateTTS (generateContent (calls w + i))
    (splitIntoSentences (text a0) !! i) (mode a0) = Throw e ->
  exists w',
    generate_finalPCM generateContent a0 w = (Throw e, w')
    /\ calls w' = calls w + S i
    /\ (i = 0 -> audioEngine w' = audioEngine w /\ app w' = app w).
Proof.
  intros Hi Hbefore Hfirst Hthrow. unfold generate_finalPCM.
  destruct i as [|i].
  - rewrite Nat.add_0_r in Hthrow.
    unfold mbind at 1. unfold call_generateTTS. rewrite Hthrow.
    eexists. split; [reflexivity|]. cbn. split; [lia|done].
  - destruct (Hbefore 0 ltac:(lia)) as [first H0].
    rewrite Nat.add_0_r in H0.
    pose proof (Hfirst first ltac:(lia) H0) as Hne.
    erewrite mbind_step; [|unfold call_generateTTS; rewrite H0; reflexivity].
    erewrite mbind_step;
      [|unfold on_engine, AudioEngine.decodeToBuffer;
        destruct first; [done | reflexivity]].
    erewrite mbind_step; [|reflexivity].
    erewrite mbind_step; [|reflexivity].
    erewrite mbind_step; [|reflexivity].
    replace (1 <? length (splitIntoSentences (text a0))) with true
      by (symmetry; apply Nat.ltb_lt; lia).
    match goal with
    | |- context [mbind (fetch_remaining _ ?k _ _ _ _ _) _ ?w5] =>
        destruct (fetch_remaining_throws k i 1
                    (splitIntoSentences (text a0)) (mode a0) [first]
                    (length first) w5 e) as (w6 & Hw6 & Hcalls)
    end.
    + lia.
    + intros j Hj. destruct (Hbefore (S j) ltac:(lia)) as [b Hb].
      exists b. cbn [calls on_app].
      replace (S (calls w) + j) with (calls w + S j) by lia.
      exact Hb.
    + cbn [calls on_app].
      replace (S (calls w) + i) with (calls w + S i) by lia. exact Hthrow.
    + unfold mbind at 1. rewrite Hw6. eexists. split; [reflexivity|].
      split; [|lia]. rewrite Hcalls. cbn [calls on_app]. lia.
Qed.

Lemma not_blank_test (t : jsstring) :
  (length (trim t) =? 0) = false <-> ~ blank t.
Proof.
  unfold blank. destruct (trim t); cbn; split; intros H; try done.
Qed.

Lemma percent_full (n : nat) : 0 < n -> percent n n = 100%Z.
Proof.
  intros Hn. unfold percent. symmetry.
  apply (Z.div_unique _ _ _ (Z.of_nat n)); lia.
Qed.


(** X23. A run of [handleGenerate] whose calls return up to sentence
    [i], where the call throws: no further request is sent; the message
    shown is the quota message when the error thrown is the
    distinguished quota error and the generic message otherwise; the busy
    flag is off; and when it was the first call that threw, nothing was
    played and the player display is as it was. *)
Theorem handleGenerate_reports w (i : nat) (e : Js.error) :
  ~ blank (text (app w)) ->
  i < length (splitIntoSentences (text (app w))) ->
  (forall j, j < i ->
     exists b, AudioEngine.generateTTS (generateContent (calls w + j))
                 (splitIntoSentences (text (app w)) !! j) (mode (app w))
               = Return b) ->
  (forall b, 0 < i ->
     AudioEngine.generateTTS (generateContent (calls w))
       (splitIntoSentences (text (app w)) !! 0) (mode (app w)) = Return b ->
     b <> []) ->
  AudioEngine.generateTTS (generateContent (calls w + i))
    (splitIntoSentences (text (app w)) !! i) (mode (app w)) = Throw e ->
  exists w',
    handleGenerate generateContent window_lamejs randomUUID now w = w'
    /\ error (app w')
       = Some (if is_quota_error e
               then lit "API Quota Full. Please wait a moment."
               else lit "An error occurred during generation.")
    /\ isGenerating (app w') = false
    /\ calls w' = calls w + S i
    /\ (i = 0 ->
        audioEngine w' = audioEngine w
        /\ audioState (app w') = audioState (app w)).
Proof.
  intros Hvisible Hi Hbefore Hfirst Hthrow.
  unfold handleGenerate.
  rewrite (proj2 (not_blank_test _) Hvisible).
  set (w1 := on_app (setProgress 5) _).
  destruct (generate_finalPCM_throws (app w) w1 i e Hi Hbefore Hfirst Hthrow)
    as (w2 & Hrun & Hc2 & Hidle).
  change (calls w1) with (calls w) in Hc2.
  eexists. split; [reflexivity|].
  unfold finally, try_catch, mbind. rewrite Hrun.
  unfold report, is_quota_error, modify.
  destruct (match message e with Some m => _ | None => false end);
    cbn [snd app audioEngine calls on_app error isGenerating setError
         setIsGenerating audioState];
    (split; [reflexivity|]); (split; [reflexivity|]); (split; [exact Hc2|]);
    intros Hz; destruct (Hidle Hz) as [He Ha]; by rewrite He, Ha.
Qed.

(** X24. Whatever happens in it, [handleGenerate] leaves the text, the
    title and the mode as they are.  On a blank text it only shows its
    message: no request is sent and the engine, the store, the library
    and the busy flag are untouched.  On any other text it ends with the
    busy flag off, having sent at least one request and at most one per
    sentence. *)
Theorem handleGenerate_settles w :
  text (app (handleGenerate generateContent window_lamejs randomUUID now w))
  = text (app w)
  /\ title (app (handleGenerate generateContent window_lamejs randomUUID now w))
     = title (app w)
  /\ mode (app (handleGenerate generateContent window_lamejs randomUUID now w))
     = mode (app w)
  /\ (blank (text (app w)) ->
      handleGenerate generateContent window_lamejs randomUUID now w
      = on_app (setError (Some (lit "Please enter some text first."))) w)
  /\ (~ blank (text (app w)) ->
      isGenerating
        (app (handleGenerate generateContent window_lamejs randomUUID now w))
      = false
      /\ calls w
         < calls (handleGenerate generateContent window_lamejs randomUUID now w)
      /\ calls (handleGenerate generateContent window_lamejs randomUUID now w)
         <= calls w + length (splitIntoSentences (text (app w)))).
Proof.
  unfold handleGenerate.
  destruct (length (trim (text (app w))) =? 0) eqn:Htest.
  { do 4 (split; [done|]). intros Hvisible.
    apply not_blank_test in Hvisible. congruence. }
  apply not_blank_test in Htest.
  set (w1 := on_app (setProgress 5) _).
  assert (Hn : 0 < length (splitIntoSentences (text (app w)))).
  { destruct (SegmenterFacts.splitIntoSentences_shape _ Htest)
      as (u & more & -> & _). cbn. lia. }
  unfold finally, try_catch, mbind.
  destruct (generate_finalPCM generateContent (app w) w1) as [[pcm|err] w2] eqn:Hrun;
    apply generate_finalPCM_frame in Hrun as (Hs & (p & f & Ha) & Hlo & Hhi);
    change (calls w1) with (calls w) in Hlo, Hhi;
    rewrite Nat.max_r in Hhi by lia.
  - unfold encode_and_save, mbind, lift, on_storage, modify.
    destruct (pcmToMp3 window_lamejs pcm 24000) as [mp3Blob|err].
    + destruct (Storage.saveItem _ (storage w2)) as [[[]|err] st1].
      * cbn [snd app calls on_app]. rewrite Ha. by repeat split.
      * unfold report, modify.
        destruct (match message err with Some m => _ | None => false end);
          cbn [snd app calls on_app]; rewrite Ha; by repeat split.
    + unfold report, modify.
      destruct (match message err with Some m => _ | None => false end);
        cbn [snd app calls on_app]; rewrite Ha; by repeat split.
  - unfold report, modify.
    destruct (match message err with Some m => _ | None => false end);
      cbn [snd app calls on_app]; rewrite Ha; by repeat split.
Qed.

End Run.


Lemma handleGenerate_reports_witness :
  exists w',
    handleGenerate Samples.remote_quota None (lit "id") 0 Samples.world0 = w'
    /\ error (app w') = Some (lit "API Quota Full. Please wait a moment.")
    /\ calls w' = 1.
Proof.
  destruct (handleGenerate_reports Samples.remote_quota None (lit "id") 0%Z
              Samples.world0 0 (new_Error AudioEngine.QUOTA_FULL))
    as (w' & Hrun & He & _ & Hc & _).
  - intros H. vm_compute in H. discriminate H.
  - apply Nat.ltb_lt. reflexivity.
  - intros j Hj. lia.
  - intros b Hb. lia.
  - reflexivity.
  - exists w'. split; [exact Hrun|]. split; [exact He | exact Hc].
Defined.

End GenerateFacts.

(* ===================================================================== *)
(** * The player controls and the script helper *)
(* ===================================================================== *)

Module ControlFacts.
Import Js Utils Types Eff Contract App Actions Reference.

#[local] Arguments AudioEngine.playBuffer : simpl never.
#[local] Arguments AudioEngine.initContext : simpl never.
#[local] Arguments lit : simpl never.

(** X25. Pausing and resuming with the toggle, from a display that is
    not paused and an engine with a context: after the first toggle the
    display is paused and the context suspended; after the second the
    display is playing and not paused, the context is running, title,
    voice, rate and duration are as before, and the sources of the engine
    were never touched -- the browser was only asked to suspend and to
    resume. *)
Theorem togglePlayback_twice (w : World) (c : AudioEngine.AudioContext) :
  AudioEngine.audioCtx (audioEngine w) = Some c ->
  isPaused (audioState (app w)) = false ->
  isPaused (audioState (app (togglePlayback w))) = true
  /\ isPlaying (audioState (app (togglePlayback w)))
     = isPlaying (audioState (app w))
  /\ AudioEngine.audioCtx (audioEngine (togglePlayback w))
     = Some (AudioEngine.set_state AudioEngine.suspended c)
  /\ isPaused (audioState (app (togglePlayback (togglePlayback w)))) = false
  /\ isPlaying (audioState (app (togglePlayback (togglePlayback w)))) = true
  /\ AudioEngine.audioCtx (audioEngine (togglePlayback (togglePlayback w)))
     = Some (AudioEngine.set_state AudioEngine.running c)
  /\ AudioEngine.trace (audioEngine (togglePlayback (togglePlayback w)))
     = AudioEngine.trace (audioEngine w)
         ++ [AudioEngine.EvSuspend; AudioEngine.EvResume]
  /\ AudioEngine.nodes (audioEngine (togglePlayback (togglePlayback w)))
     = AudioEngine.nodes (audioEngine w)
  /\ AudioEngine.currentSource (audioEngine (togglePlayback (togglePlayback w)))
     = AudioEngine.currentSource (audioEngine w)
  /\ currentTitle (audioState (app (togglePlayback (togglePlayback w))))
     = currentTitle (audioState (app w))
  /\ playbackRate (audioState (app (togglePlayback (togglePlayback w))))
     = playbackRate (audioState (app w))
  /\ duration (audioState (app (togglePlayback (togglePlayback w))))
     = duration (audioState (app w)).
Proof.
  intros Hctx Hpaused.
  destruct w as [a e st n]. destruct a as [tx ti mo li ge pr er au].
  destruct au as [pl pa ct du ra cti cv].
  destruct e as [ctx an cur gain stt pt ap ns tr ab].
  cbn in Hctx, Hpaused. subst ctx pa.
  cbn. by rewrite <- app_assoc.
Qed.

Lemma togglePlayback_twice_witness :
  isPaused (audioState (app (togglePlayback (togglePlayback
    (with_engine AudioEngine.initContext Samples.world0))))) = false.
Proof.
  exact (proj1 (proj2 (proj2 (proj2 (togglePlayback_twice
    (with_engine AudioEngine.initContext Samples.world0)
    {| AudioEngine.state := AudioEngine.running;
       AudioEngine.currentTime := 0 |}
    eq_refl eq_refl))))).
Defined.






(** X29. [handleMagicScript]: with neither text nor title it only shows
    its message and asks nothing of the model.  Otherwise it ends with the
    busy flag off; when the model answers, the text becomes the answer
    (the empty text when the answer has none) and no error is shown; when
    the request is rejected, the text stays and the failure message is
    shown.  The library, the engine and the store are never touched. *)
Theorem handleMagicScript_outcomes (generateScript : jsstring -> ScriptResult)
    (w : World) :
  library (app (handleMagicScript generateScript w)) = library (app w)
  /\ audioEngine (handleMagicScript generateScript w) = audioEngine w
  /\ storage (handleMagicScript generateScript w) = storage w
  /\ title (app (handleMagicScript generateScript w)) = title (app w)
  /\ (text (app w) = [] -> title (app w) = [] ->
      handleMagicScript generateScript w
      = on_app (setError (Some (lit "Enter a topic or some text first."))) w)
  /\ (text (app w) <> [] \/ title (app w) <> [] ->
      isGenerating (app (handleMagicScript generateScript w)) = false
      /\ (forall answer,
            generateScript (magic_prompt (app w)) = ScriptResponse answer ->
            text (app (handleMagicScript generateScript w)) = default [] answer
            /\ error (app (handleMagicScript generateScript w)) = None)
      /\ (forall e,
            generateScript (magic_prompt (app w)) = ScriptRejected e ->
            text (app (handleMagicScript generateScript w)) = text (app w)
            /\ error (app (handleMagicScript generateScript w))
               = Some (lit "Magic Script failed. Please try again."))).
Proof.
  unfold handleMagicScript, finally, try_catch, mbind, lift, modify.
  destruct (text (app w)) as [|c t] eqn:Htext;
    [destruct (title (app w)) as [|c t] eqn:Htitle|].
  - do 4 (split; [done|]). split; [done|]. by intros [H|H].
  - destruct (generateScript (magic_prompt (app w))) as [e|answer];
      cbn [snd app audioEngine storage on_app library title text error
           isGenerating setError setIsGenerating setText];
      rewrite ?Htext, ?Htitle;
      (do 4 (split; [done|])); (split; [done|]); intros _;
      (split; [done|]); split; intros ? [= <-]; by split.
  - destruct (generateScript (magic_prompt (app w))) as [e|answer];
      cbn [snd app audioEngine storage on_app library title text error
           isGenerating setError setIsGenerating setText];
      rewrite ?Htext;
      (do 4 (split; [done|])); (split; [done|]); intros _;
      (split; [done|]); split; intros ? [= <-]; by split.
Qed.

Lemma handleMagicScript_outcomes_witness :
  isGenerating (app (handleMagicScript (fun _ => ScriptResponse None)
                       Samples.world0)) = false.
Proof.
  refine (proj1 (proj2 (proj2 (proj2 (proj2 (proj2
    (handleMagicScript_outcomes (fun _ => ScriptResponse None)
       Samples.world0))))) _)).
  left. discriminate.
Defined.

End ControlFacts.
